(** Verification of the payment-rule circuits and of the proof-backed
    authorization pipeline: the circom circuits over the BN254 scalar field,
    the prover with its direct-evaluation fallback, the rule commitment, the
    on-chain and local verifiers, and the pipeline that gates the payment on
    them; then the rule-commitment contract, the token transfer, the
    planner's compliance and risk checks and the log manager. *)

From Stdlib Require Import ZArith Znumtheory Lia List Bool Ascii String.
From Stdlib Require Import Sorting.Permutation Sorting.Sorted.
From Stdlib Require Zmod.ZmodInv.
From Bignums Require BigZ.
From Stdlib Require Floats.
From stdpp Require Import base gmap list strings.
Import ListNotations.
Open Scope Z_scope.

(** * Primality certificates

    The circuits are compiled over the BN254 scalar field; that its order is
    prime is checked here by Pocklington certificates. *)
Module Primality.

(** Trial division up to the square root. *)
Definition trial_division (n : Z) : bool :=
  (1 <? n) &&
  forallb (fun d => negb (n mod (Z.of_nat d) =? 0))
          (seq 2 (Z.to_nat (Z.sqrt n) - 1)).

(** Modular exponentiation by repeated squaring on machine-word integers. *)
Fixpoint pow_mod_big (a : BigZ.bigZ) (m : positive) (n : BigZ.bigZ) : BigZ.bigZ :=
  match m with
  | xH => BigZ.BigZ.modulo a n
  | xO m' =>
      let z := pow_mod_big a m' n in BigZ.BigZ.modulo (BigZ.BigZ.mul z z) n
  | xI m' =>
      let z := pow_mod_big a m' n in
      BigZ.BigZ.modulo (BigZ.BigZ.mul (BigZ.BigZ.mul z z) a) n
  end.

Definition pow_mod (a e n : Z) : Z :=
  match e with
  | Zpos m => BigZ.BigZ.to_Z (pow_mod_big (BigZ.BigZ.of_Z a) m (BigZ.BigZ.of_Z n))
  | _ => 1 mod n
  end.

(** A certificate lists, for each prime power q ^ e of the factored part, a
    witness a. *)
Definition cert_part (c : list (Z * Z * Z)) : Z :=
  fold_right (fun '(q, e, _) acc => q ^ e * acc) 1 c.

Definition cert_entry_ok (n : Z) (x : Z * Z * Z) : bool :=
  let '(q, e, a) := x in
  (0 <? e) && (pow_mod a (n - 1) n =? 1) &&
  (Z.gcd (pow_mod a ((n - 1) / q) n - 1) n =? 1).

Definition pocklington_check (n : Z) (c : list (Z * Z * Z)) : bool :=
  (1 <? n) && ((n - 1) mod cert_part c =? 0) &&
  (n <=? cert_part c * cert_part c) && forallb (cert_entry_ok n) c.

(** Order of the BN254 scalar field, circom's default prime. *)
Definition bn254_r : Z :=
  21888242871839275222246405745257275088548364400416034343698204186575808495617.

End Primality.

(** * The scalar field of the circuits

    circom compiles every template of [circuits/] over the BN254 scalar
    field; a signal is a residue modulo [p], kept in [0, p). *)
Module Field.

Definition p : Z := Primality.bn254_r.

Definition is_signal (x : Z) : Prop := 0 <= x < p.

(** Field operations on canonical residues. *)
Definition fadd (a b : Z) : Z := (a + b) mod p.
Definition fsub (a b : Z) : Z := (a - b) mod p.
Definition fmul (a b : Z) : Z := (a * b) mod p.

(** [1/x] of the witness generator. *)
Definition finv (a : Z) : Z := Z.invmod a p.

End Field.

(** * circomlib templates used by the circuits

    [comparators.circom], [gates.circom] and [bitify.circom] come from the
    circomlib package the circuits include.  Each template is given twice:
    [_w] is what its assignments ([<--], [<==]) compute, [_sat] is what its
    constraints ([===], [<==]) allow, with the template's inner signals
    quantified. *)
Module Circomlib.
Import Field.

(** [AND]: [out <== a*b]. *)
Definition AND_w (a b : Z) : Z := fmul a b.
Definition AND_sat (a b out : Z) : Prop := out = fmul a b.

(** [OR]: [out <== a + b - a*b]. *)
Definition OR_w (a b : Z) : Z := (a + b - a * b) mod p.
Definition OR_sat (a b out : Z) : Prop := out = (a + b - a * b) mod p.

(** [IsZero]: [inv <-- in!=0 ? 1/in : 0; out <== -in*inv + 1; in*out === 0]. *)
Definition IsZero_inv (i : Z) : Z := if i =? 0 then 0 else finv i.
Definition IsZero_w (i : Z) : Z := (- i * IsZero_inv i + 1) mod p.
Definition IsZero_sat (i out : Z) : Prop :=
  exists inv, is_signal inv /\ out = (- i * inv + 1) mod p /\ (i * out) mod p = 0.

(** [IsEqual]: [in[1] - in[0] ==> isz.in; isz.out ==> out]. *)
Definition IsEqual_w (in0 in1 : Z) : Z := IsZero_w (fsub in1 in0).
Definition IsEqual_sat (in0 in1 out : Z) : Prop := IsZero_sat (fsub in1 in0) out.

(** [Num2Bits(n)]: [out[i] <-- (in >> i) & 1; out[i]*(out[i]-1) === 0;
    lc1 += out[i]*e2; e2 = e2+e2; lc1 === in]. *)
Fixpoint lc1 (out : list Z) : Z :=
  match out with
  | [] => 0
  | b :: rest => b + 2 * lc1 rest
  end.

Definition Num2Bits_w (n : nat) (i : Z) : list Z :=
  map (fun k => Z.land (Z.shiftr i (Z.of_nat k)) 1) (seq 0 n).

Definition Num2Bits_sat (n : nat) (i : Z) (out : list Z) : Prop :=
  length out = n /\
  List.Forall (fun b => is_signal b /\ (b * (b - 1)) mod p = 0) out /\
  lc1 out mod p = i mod p.

(** [LessThan(n)]: [assert(n <= 252); n2b = Num2Bits(n+1);
    n2b.in <== in[0] + (1<<n) - in[1]; out <== 1 - n2b.out[n]]. *)
Definition LessThan_w (n : nat) (in0 in1 : Z) : Z :=
  let out := Num2Bits_w (S n) ((in0 + Z.shiftl 1 (Z.of_nat n) - in1) mod p) in
  (1 - nth n out 0) mod p.

Definition LessThan_sat (n : nat) (in0 in1 out : Z) : Prop :=
  exists bits,
    Num2Bits_sat (S n) ((in0 + Z.shiftl 1 (Z.of_nat n) - in1) mod p) bits /\
    out = (1 - nth n bits 0) mod p.

(** [LessEqThan(n)]: [lt.in[0] <== in[0]; lt.in[1] <== in[1]+1]. *)
Definition LessEqThan_w (n : nat) (in0 in1 : Z) : Z :=
  LessThan_w n in0 (fadd in1 1).
Definition LessEqThan_sat (n : nat) (in0 in1 out : Z) : Prop :=
  LessThan_sat n in0 (fadd in1 1) out.

(** [GreaterEqThan(n)]: [lt.in[0] <== in[1]; lt.in[1] <== in[0]+1]. *)
Definition GreaterEqThan_w (n : nat) (in0 in1 : Z) : Z :=
  LessThan_w n in1 (fadd in0 1).
Definition GreaterEqThan_sat (n : nat) (in0 in1 out : Z) : Prop :=
  LessThan_sat n in1 (fadd in0 1) out.

End Circomlib.

(** * [circuits/address_whitelist.circom], [circuits/time_constraint.circom]
      and [circuits/payment_rules.circom] *)
Module Circuits.
Import Field Circomlib.

(** [AddressWhitelistCheck]. *)
Definition AddressWhitelistCheck_w (targetAddress a1 a2 a3 : Z) : Z :=
  let eq1 := IsEqual_w targetAddress a1 in
  let eq2 := IsEqual_w targetAddress a2 in
  let eq3 := IsEqual_w targetAddress a3 in
  let or1 := OR_w eq1 eq2 in
  OR_w or1 eq3.

Definition AddressWhitelistCheck_sat (targetAddress a1 a2 a3 isValid : Z) : Prop :=
  exists eq1 eq2 eq3 or1,
    IsEqual_sat targetAddress a1 eq1 /\
    IsEqual_sat targetAddress a2 eq2 /\
    IsEqual_sat targetAddress a3 eq3 /\
    OR_sat eq1 eq2 or1 /\
    OR_sat or1 eq3 isValid.

(** [TimeConstraintCheck]. *)
Definition TimeConstraintCheck_w (timestamp minHour maxHour : Z) : Z :=
  let geq := GreaterEqThan_w 8 timestamp minHour in
  let leq := LessEqThan_w 8 timestamp maxHour in
  AND_w geq leq.

Definition TimeConstraintCheck_sat (timestamp minHour maxHour isValid : Z) : Prop :=
  exists geq leq,
    GreaterEqThan_sat 8 timestamp minHour geq /\
    LessEqThan_sat 8 timestamp maxHour leq /\
    AND_sat geq leq isValid.

(** [PaymentRules]: the signals of the main component. *)
Record PaymentRulesInput := {
  paymentAddress : Z;
  paymentAmount : Z;
  paymentTimestamp : Z;
  allowedAddress1 : Z;
  allowedAddress2 : Z;
  allowedAddress3 : Z;
  maxAmount : Z;
  minHour : Z;
  maxHour : Z
}.

Record PaymentRulesOutput := {
  isValid : Z;
  addressValid : Z;
  amountValid : Z;
  timeValid : Z
}.

Definition PaymentRules_w (i : PaymentRulesInput) : PaymentRulesOutput :=
  let addressCheck :=
    AddressWhitelistCheck_w (paymentAddress i) (allowedAddress1 i)
                            (allowedAddress2 i) (allowedAddress3 i) in
  let amountCheck := LessEqThan_w 64 (paymentAmount i) (maxAmount i) in
  let timeCheck :=
    TimeConstraintCheck_w (paymentTimestamp i) (minHour i) (maxHour i) in
  let andGate := AND_w addressCheck amountCheck in
  let finalAnd := AND_w andGate timeCheck in
  {| isValid := finalAnd;
     addressValid := addressCheck;
     amountValid := amountCheck;
     timeValid := timeCheck |}.

Definition PaymentRules_sat (i : PaymentRulesInput) (o : PaymentRulesOutput) : Prop :=
  exists addressCheck amountCheck timeCheck andGate finalAnd,
    AddressWhitelistCheck_sat (paymentAddress i) (allowedAddress1 i)
                              (allowedAddress2 i) (allowedAddress3 i)
                              addressCheck /\
    LessEqThan_sat 64 (paymentAmount i) (maxAmount i) amountCheck /\
    TimeConstraintCheck_sat (paymentTimestamp i) (minHour i) (maxHour i)
                            timeCheck /\
    AND_sat addressCheck amountCheck andGate /\
    AND_sat andGate timeCheck finalAnd /\
    isValid o = finalAnd /\
    addressValid o = addressCheck /\
    amountValid o = amountCheck /\
    timeValid o = timeCheck.

(** The reference booleans of the three rules. *)
Definition address_ok (i : PaymentRulesInput) : bool :=
  (paymentAddress i =? allowedAddress1 i) ||
  (paymentAddress i =? allowedAddress2 i) ||
  (paymentAddress i =? allowedAddress3 i).

Definition amount_ok (i : PaymentRulesInput) : bool :=
  paymentAmount i <=? maxAmount i.

Definition time_ok (i : PaymentRulesInput) : bool :=
  (minHour i <=? paymentTimestamp i) && (paymentTimestamp i <=? maxHour i).

(** Inputs within the widths the comparators are declared with. *)
Definition in_widths (i : PaymentRulesInput) : Prop :=
  is_signal (paymentAddress i) /\ is_signal (allowedAddress1 i) /\
  is_signal (allowedAddress2 i) /\ is_signal (allowedAddress3 i) /\
  0 <= paymentAmount i < 2 ^ 64 /\ 0 <= maxAmount i < 2 ^ 64 /\
  0 <= paymentTimestamp i < 2 ^ 8 /\ 0 <= minHour i < 2 ^ 8 /\
  0 <= maxHour i < 2 ^ 8.

(** [IntegerDivision(n)] of [circuits/time_constraint.circom]:
    [quotient <-- dividend \ divisor; remainder <-- dividend % divisor;
     dividend === quotient * divisor + remainder;
     lt = LessThan(n)(remainder, divisor); lt.out === 1;
     geq = GreaterEqThan(n)(remainder, 0); geq.out === 1]. *)
Definition IntegerDivision_w (dividend divisor : Z) : Z * Z :=
  (dividend / divisor, dividend mod divisor).

Definition IntegerDivision_sat (n : nat) (dividend divisor quotient remainder : Z) : Prop :=
  dividend mod p = (quotient * divisor + remainder) mod p /\
  LessThan_sat n remainder divisor 1 /\
  GreaterEqThan_sat n remainder 0 1.

End Circuits.

(** * JavaScript values and the built-ins the TypeScript sources call

    Strings are sequences of code units below 256 (addresses, decimal
    numerals and hashes are ASCII); a [number] is an integer, the only kind
    the rule checks are fed with. *)
Module Js.

#[local] Set Warnings "-register-all".


Inductive JsValue : Type :=
| JsUndefined
| JsNull
| JsBool (b : bool)
| JsNumber (n : Z)
| JsBigInt (n : Z)
| JsString (s : string)
| JsArray (items : list JsValue)
| JsObject (fields : list (string * JsValue)).

(** [!v] is [negb (truthy v)]. *)
Definition truthy (v : JsValue) : bool :=
  match v with
  | JsUndefined | JsNull => false
  | JsBool b => b
  | JsNumber n | JsBigInt n => negb (n =? 0)
  | JsString s => negb (String.eqb s EmptyString)
  | JsArray _ | JsObject _ => true
  end.

(** [typeof v === 'object']. *)
Definition typeof_object (v : JsValue) : bool :=
  match v with
  | JsNull | JsArray _ | JsObject _ => true
  | _ => false
  end.

Fixpoint assoc (k : string) (fields : list (string * JsValue)) : JsValue :=
  match fields with
  | [] => JsUndefined
  | (k', v) :: rest => if String.eqb k k' then v else assoc k rest
  end.

(** [v.k] for a name [k] that is no built-in property; [None] is the
    TypeError of reading a property of [undefined] or [null]. *)
Definition get (v : JsValue) (k : string) : option JsValue :=
  match v with
  | JsUndefined | JsNull => None
  | JsObject fields => Some (assoc k fields)
  | _ => Some JsUndefined
  end.

Definition charCodeAt (c : ascii) : Z := Z.of_N (N_of_ascii c).

Definition digit_char (d : Z) : ascii := ascii_of_N (Z.to_N (48 + d)).

Fixpoint decimal_digits (fuel : nat) (n : Z) (acc : string) : string :=
  match fuel with
  | O => acc
  | S fuel' =>
      if n <? 10 then String (digit_char n) acc
      else decimal_digits fuel' (n / 10) (String (digit_char (n mod 10)) acc)
  end.

(** [Number.prototype.toString] and [BigInt.prototype.toString] on an
    integer (below 1e21 for a [number]). *)
Definition Number_toString (n : Z) : string :=
  if n <? 0
  then String "-"%char (decimal_digits (S (Z.to_nat (Z.log2 (- n)))) (- n) EmptyString)
  else decimal_digits (S (Z.to_nat (Z.log2 n))) n EmptyString.

(** [v?.[i]]. *)
Definition opt_index (v : JsValue) (i : nat) : JsValue :=
  match v with
  | JsArray items => nth i items JsUndefined
  | JsString s =>
      match String.get i s with
      | Some c => JsString (String c EmptyString)
      | None => JsUndefined
      end
  | JsObject fields => assoc (Number_toString (Z.of_nat i)) fields
  | _ => JsUndefined
  end.

(** White space of [StrWhiteSpaceChar] among the code units below 256. *)
Definition is_whitespace (c : ascii) : bool :=
  let n := N_of_ascii c in
  ((9 <=? n) && (n <=? 13) || (n =? 32) || (n =? 160))%N.

Fixpoint trim_start (s : string) : string :=
  match s with
  | String c rest => if is_whitespace c then trim_start rest else s
  | EmptyString => EmptyString
  end.

Definition reverse (s : string) : string :=
  string_of_list_ascii (List.rev (list_ascii_of_string s)).

Definition trim (s : string) : string :=
  reverse (trim_start (reverse (trim_start s))).

Definition digit_value (c : ascii) : option Z :=
  let n := Z.of_N (N_of_ascii c) in
  if (48 <=? n) && (n <=? 57) then Some (n - 48)
  else if (97 <=? n) && (n <=? 122) then Some (n - 87)
  else if (65 <=? n) && (n <=? 90) then Some (n - 55)
  else None.

(** The longest prefix of digits of the radix, and what follows it. *)
Fixpoint digits_prefix (radix : Z) (s : string) : list Z * string :=
  match s with
  | EmptyString => ([], EmptyString)
  | String c rest =>
      match digit_value c with
      | Some d =>
          if d <? radix
          then let '(ds, tl) := digits_prefix radix rest in (d :: ds, tl)
          else ([], s)
      | None => ([], s)
      end
  end.

Definition digits_value (radix : Z) (ds : list Z) : Z :=
  fold_left (fun acc d => acc * radix + d) ds 0.

(** A string that is digits of the radix throughout, at least one. *)
Definition all_digits (radix : Z) (s : string) : option Z :=
  match digits_prefix radix s with
  | (d :: ds, EmptyString) => Some (digits_value radix (d :: ds))
  | _ => None
  end.

Definition is_char (c : ascii) (codes : list N) : bool :=
  existsb (N.eqb (N_of_ascii c)) codes.

(** [BigInt(s)] on a string: [None] is the SyntaxError. *)
Definition BigInt_of_string (s : string) : option Z :=
  match trim s with
  | EmptyString => Some 0
  | String c0 (String c1 rest) as t =>
      if is_char c0 [48%N] && is_char c1 [120%N; 88%N] then all_digits 16 rest
      else if is_char c0 [48%N] && is_char c1 [111%N; 79%N] then all_digits 8 rest
      else if is_char c0 [48%N] && is_char c1 [98%N; 66%N] then all_digits 2 rest
      else if is_char c0 [45%N] then option_map Z.opp (all_digits 10 (String c1 rest))
      else if is_char c0 [43%N] then all_digits 10 (String c1 rest)
      else all_digits 10 t
  | t => all_digits 10 t
  end.

(** [parseInt(s)] without a radix: [None] is [NaN]. *)
Definition parseInt (s : string) : option Z :=
  let t := trim_start s in
  let '(negative, t1) :=
    match t with
    | String c rest =>
        if is_char c [45%N] then (true, rest)
        else if is_char c [43%N] then (false, rest)
        else (false, t)
    | EmptyString => (false, t)
    end in
  let '(radix, t2) :=
    match t1 with
    | String c0 (String c1 rest) =>
        if is_char c0 [48%N] && is_char c1 [120%N; 88%N] then (16, rest)
        else (10, t1)
    | _ => (10, t1)
    end in
  match digits_prefix radix t2 with
  | ([], _) => None
  | (ds, _) =>
      Some (if negative then - digits_value radix ds else digits_value radix ds)
  end.

(** [a <= b] where [a] may be [NaN]. *)
Definition nan_leb (a : option Z) (b : Z) : bool :=
  match a with
  | Some x => x <=? b
  | None => false
  end.

(** [ToInt32], the result type of the bitwise operators. *)
Definition ToInt32 (z : Z) : Z :=
  let m := z mod 2 ^ 32 in
  if m <? 2 ^ 31 then m else m - 2 ^ 32.

(** [a << k] and [a & b] on numbers. *)
Definition shl (a k : Z) : Z := ToInt32 (Z.shiftl (ToInt32 a) (k mod 32)).
Definition band (a b : Z) : Z := ToInt32 (Z.land (ToInt32 a) (ToInt32 b)).

(** [String.prototype.toLowerCase] on code units below 256. *)
Definition lower_char (c : ascii) : ascii :=
  let n := N_of_ascii c in
  if ((65 <=? n) && (n <=? 90)
      || (192 <=? n) && (n <=? 222) && negb (n =? 215))%N
  then ascii_of_N (n + 32)
  else c.

Fixpoint toLowerCase (s : string) : string :=
  match s with
  | EmptyString => EmptyString
  | String c rest => String (lower_char c) (toLowerCase rest)
  end.

(** [Array.prototype.includes] on strings. *)
Definition includes (l : list string) (x : string) : bool :=
  existsb (String.eqb x) l.

(** [Array.prototype.join(sep)] on strings. *)
Fixpoint join (sep : string) (l : list string) : string :=
  match l with
  | [] => EmptyString
  | [x] => x
  | x :: rest => x ++ sep ++ join sep rest
  end.

(** [String(v)] as [Array.prototype.toString] and [BigInt] see it. *)
Fixpoint toString (v : JsValue) : string :=
  match v with
  | JsUndefined => "undefined"
  | JsNull => "null"
  | JsBool true => "true"
  | JsBool false => "false"
  | JsNumber n | JsBigInt n => Number_toString n
  | JsString s => s
  | JsArray items =>
      join ","
        (List.map (fun x =>
                     match x with
                     | JsUndefined | JsNull => EmptyString
                     | _ => toString x
                     end) items)
  | JsObject _ => "[object Object]"
  end.

(** [BigInt(v)]: [None] is the TypeError or SyntaxError. *)
Definition BigInt (v : JsValue) : option Z :=
  match v with
  | JsUndefined | JsNull => None
  | JsBool b => Some (Z.b2z b)
  | JsNumber n | JsBigInt n => Some n
  | JsString s => BigInt_of_string s
  | JsArray _ | JsObject _ => BigInt_of_string (toString v)
  end.

(** [s.replace(/,/g, '')]. *)
Fixpoint remove_commas (s : string) : string :=
  match s with
  | EmptyString => EmptyString
  | String c rest =>
      if is_char c [44%N] then remove_commas rest
      else String c (remove_commas rest)
  end.

End Js.

(** * [src/types/index.ts]: the fields of the shared records that the
      core reads *)
Module Types.

Record UserRules := {
  allowedAddresses : list string;
  maxAmount : Z;
  allowedHours : Z * Z
}.

Record PaymentPlan := {
  toAddress : string;
  amount : Z;
  timestamp : Z;
  description : string
}.

Record InvoiceData := {
  companyName : string;
  paymentAddress : string;
  invoiceAmount : Z;
  invoiceNumber : string
}.

Inductive PaymentInput :=
| InputPdf (path : string)
| InputText (content : string)
| InputDemo.

End Types.

(** * [src/zkp/prover.ts]: the prover and its direct-evaluation fallback *)
Module Prover.
Import Js Types.

(** What [generatePaymentProof] returns. *)
Record ProofResult := {
  proof : JsValue;
  publicSignals : list string;
  isValid : bool
}.

(** What the prover gets from outside: whether both circuit files exist,
    the local hour of [new Date().getHours()], and snarkjs's
    [groth16.fullProve] ([None] when it throws). *)
Record Env := {
  circuitFilesExist : bool;
  currentHour : Z;
  fullProve : Circuits.PaymentRulesInput -> option (JsValue * list string)
}.

(** The loop of [addressToNumber]:
    [hash = ((hash << 5) - hash) + char; hash = hash & hash]. *)
Fixpoint rolling_hash (hash : Z) (s : string) : Z :=
  match s with
  | EmptyString => hash
  | String c rest =>
      let h := (shl hash 5 - hash) + charCodeAt c in
      rolling_hash (band h h) rest
  end.

Definition addressToNumber (addr : string) : Z :=
  if String.eqb addr EmptyString || (String.length addr <? 42)%nat
  then 0
  else Z.abs (rolling_hash 0 (toLowerCase addr)).

(** [a[i] || '0x0']. *)
Definition address_or_default (l : list string) (i : nat) : string :=
  match nth_error l i with
  | Some s => if String.eqb s EmptyString then "0x0" else s
  | None => "0x0"
  end.

(** [parseInt(paymentPlan.amount.toString())], for an integer amount of
    magnitude below 1e21, the range of [Number_toString]; from 1e21 on
    [toString] gives the exponent form, of which [parseInt] reads the
    leading digits only. *)
Definition plan_amount (plan : PaymentPlan) : option Z :=
  parseInt (Number_toString (amount plan)).

Definition validateRulesManually (hour : Z) (plan : PaymentPlan) (rules : UserRules) : bool :=
  let addressValid := includes (allowedAddresses rules) (toAddress plan) in
  let amountValid := nan_leb (plan_amount plan) (maxAmount rules) in
  let paymentHour := hour in
  let timeValid :=
    (fst (allowedHours rules) <=? paymentHour) &&
    (paymentHour <=? snd (allowedHours rules)) in
  addressValid && amountValid && timeValid.

(** The object literal [{ mock: true, validated: isValid }]. *)
Definition mock_proof (validated : bool) : JsValue :=
  JsObject [("mock", JsBool true); ("validated", JsBool validated)].

Definition signal_of_bool (b : bool) : string := if b then "1" else "0".

(** The input object handed to [fullProve]; a [NaN] amount is serialized as
    it is by snarkjs, which is outside this model, hence the [option]. *)
Definition circuit_input (hour : Z) (plan : PaymentPlan) (rules : UserRules)
  : option Circuits.PaymentRulesInput :=
  match plan_amount plan with
  | Some paymentAmount =>
      Some {| Circuits.paymentAddress := addressToNumber (toAddress plan);
              Circuits.paymentAmount := paymentAmount;
              Circuits.paymentTimestamp := hour;
              Circuits.allowedAddress1 :=
                addressToNumber (address_or_default (allowedAddresses rules) 0);
              Circuits.allowedAddress2 :=
                addressToNumber (address_or_default (allowedAddresses rules) 1);
              Circuits.allowedAddress3 :=
                addressToNumber (address_or_default (allowedAddresses rules) 2);
              Circuits.maxAmount := maxAmount rules;
              Circuits.minHour := fst (allowedHours rules);
              Circuits.maxHour := snd (allowedHours rules) |}
  | None => None
  end.

(** [generatePaymentProof]; [None] is the rethrown error. *)
Definition generatePaymentProof (env : Env) (plan : PaymentPlan) (rules : UserRules)
  : option ProofResult :=
  if negb (circuitFilesExist env) then
    let valid := validateRulesManually (currentHour env) plan rules in
    Some {| proof := mock_proof valid;
            publicSignals := [signal_of_bool valid];
            isValid := valid |}
  else
    match circuit_input (currentHour env) plan rules with
    | Some input =>
        match fullProve env input with
        | Some (proof, publicSignals) =>
            Some {| proof := proof;
                    publicSignals := publicSignals;
                    isValid :=
                      match publicSignals with
                      | s :: _ => String.eqb s "1"
                      | [] => false
                      end |}
        | None => None
        end
    | None => None
    end.

End Prover.

(** * [src/blockchain/rule-commitment.ts]: the rule commitment *)
Module RuleCommitment.
Import Js Types.

(** [Array.prototype.sort()] without a comparator on strings: ascending by
    code units. *)
Fixpoint insert_sorted (x : string) (l : list string) : list string :=
  match l with
  | [] => [x]
  | y :: rest => if String.leb x y then x :: l else y :: insert_sorted x rest
  end.

Fixpoint sort (l : list string) : list string :=
  match l with
  | [] => []
  | x :: rest => insert_sorted x (sort rest)
  end.

Definition quote : string := String (ascii_of_N 34) EmptyString.
Definition backslash : string := String (ascii_of_N 92) EmptyString.

Definition hex_digit (d : N) : ascii :=
  if (d <? 10)%N then ascii_of_N (48 + d) else ascii_of_N (87 + d).

(** [QuoteJSONString], one code unit. *)
Definition json_escape_char (c : ascii) : string :=
  let n := N_of_ascii c in
  if (n =? 34)%N then backslash ++ quote
  else if (n =? 92)%N then backslash ++ backslash
  else if (n =? 8)%N then backslash ++ "b"
  else if (n =? 12)%N then backslash ++ "f"
  else if (n =? 10)%N then backslash ++ "n"
  else if (n =? 13)%N then backslash ++ "r"
  else if (n =? 9)%N then backslash ++ "t"
  else if (n <? 32)%N
       then backslash ++ "u00" ++
            String (hex_digit (n / 16)) (String (hex_digit (n mod 16)) EmptyString)
  else String c EmptyString.

Fixpoint json_escape (s : string) : string :=
  match s with
  | EmptyString => EmptyString
  | String c rest => json_escape_char c ++ json_escape rest
  end.

Definition json_string (s : string) : string := quote ++ json_escape s ++ quote.

Definition json_key (k : string) : string := json_string k ++ ":".

(** [JSON.stringify] of the object literal
    [{ allowedAddresses, maxAmount, allowedHours, version: "1.0" }]. *)
Definition stringify_rules (addresses : list string) (maxAmount : Z) (hours : Z * Z)
  : string :=
  "{" ++ json_key "allowedAddresses"
      ++ "[" ++ join "," (List.map json_string addresses) ++ "]"
  ++ "," ++ json_key "maxAmount" ++ Number_toString maxAmount
  ++ "," ++ json_key "allowedHours"
      ++ "[" ++ Number_toString (fst hours) ++ "," ++ Number_toString (snd hours) ++ "]"
  ++ "," ++ json_key "version" ++ json_string "1.0"
  ++ "}".

Section Hash.

(** viem's [toHex] and [keccak256]. *)
Variable toHex : string -> string.
Variable keccak256 : string -> string.

(** [hashRules]: the hash, and the rule object as the call leaves it
    ([sort] works in place on [userRules.allowedAddresses]). *)
Definition hashRules (userRules : UserRules) : string * UserRules :=
  let sorted := sort (allowedAddresses userRules) in
  let rulesString := stringify_rules sorted (maxAmount userRules) (allowedHours userRules) in
  let rulesBytes := toHex rulesString in
  let hash := keccak256 rulesBytes in
  (hash, {| allowedAddresses := sorted;
            maxAmount := maxAmount userRules;
            allowedHours := allowedHours userRules |}).

(** [verifyRuleChange]. *)
Definition verifyRuleChange (newRules : UserRules) (committedRuleHash : string)
  : bool * UserRules :=
  let '(newRuleHash, rules') := hashRules newRules in
  (negb (String.eqb newRuleHash committedRuleHash), rules').

End Hash.

End RuleCommitment.

(** * [foundry/src/ZKPVerifier.sol]: the on-chain verifier

    [uint256], [bytes32] and [address] values are integers; the verifying
    key and the emitted events play no part in what the functions return
    and store, and are left out of the state. *)
Module ZKPVerifier.

Record Proof := {
  a : Z * Z;
  b : Z * Z;
  c : Z * Z
}.

Record PaymentProof := {
  zkProof : Proof;
  publicSignals : list Z;
  ruleHash : Z;
  paymentAddress : Z;
  amount : Z;
  timestamp : Z;
  verified : bool
}.

Record State := {
  paymentProofs : gmap Z PaymentProof;
  userProofs : gmap Z (list Z)
}.

(** The caller and the block of a transaction. *)
Record Tx := {
  msg_sender : Z;
  block_timestamp : Z
}.

Definition _verifyGroth16Proof (proof : Proof) (publicSignals : list Z) : bool :=
  if (fst (a proof) =? 0) && (snd (a proof) =? 0) then false
  else if (fst (b proof) =? 0) && (snd (b proof) =? 0) then false
  else if (fst (c proof) =? 0) && (snd (c proof) =? 0) then false
  else if negb (length publicSignals =? 4)%nat then false
  else true.

Definition _verifyPublicSignals (publicSignals : list Z)
    (ruleHash paymentAddress amount : Z) : bool :=
  if negb (length publicSignals =? 4)%nat then false
  else (nth 0 publicSignals 0 =? 1) &&
       (nth 1 publicSignals 0 =? 1) &&
       (nth 2 publicSignals 0 =? 1) &&
       (nth 3 publicSignals 0 =? 1).

(** [paymentProofs[proofId].verified]; an absent entry reads as zero. *)
Definition isProofVerified (st : State) (proofId : Z) : bool :=
  match paymentProofs st !! proofId with
  | Some pp => verified pp
  | None => false
  end.

Definition getUserProofs (st : State) (user : Z) : list Z :=
  default [] (userProofs st !! user).

(** [verifyAndAuthorizePayment]; [None] is a revert. *)
Definition verifyAndAuthorizePayment (st : State) (tx : Tx)
    (proofId : Z) (zkProof : Proof) (publicSignals : list Z)
    (ruleHash paymentAddress amount : Z) : option (bool * State) :=
  if proofId =? 0 then None
  else if isProofVerified st proofId then None
  else
    let isValidProof := _verifyGroth16Proof zkProof publicSignals in
    let isValidSignals :=
      _verifyPublicSignals publicSignals ruleHash paymentAddress amount in
    let isValid := isValidProof && isValidSignals in
    Some (isValid,
          {| paymentProofs :=
               <[ proofId := {| zkProof := zkProof;
                                publicSignals := publicSignals;
                                ruleHash := ruleHash;
                                paymentAddress := paymentAddress;
                                amount := amount;
                                timestamp := block_timestamp tx;
                                verified := isValid |} ]> (paymentProofs st);
             userProofs :=
               <[ msg_sender tx := getUserProofs st (msg_sender tx) ++ [proofId] ]>
                 (userProofs st) |}).

End ZKPVerifier.

(** * [src/blockchain/onchain-zkp-verifier.ts]: the verifier *)
Module OnChainZKPVerifier.
Import Js.

(** [verifyProofLocally]. *)
Definition verifyProofLocally (proof : JsValue) (publicSignals : list string) : bool :=
  if negb (truthy proof) || negb (typeof_object proof) then false
  else if negb (length publicSignals =? 4)%nat then false
  else forallb (fun signal => String.eqb signal "1") publicSignals.

(** [safeBigInt] of [convertToOnChainProof]. *)
Definition safeBigInt (value : JsValue) : option Z :=
  match value with
  | JsBigInt n => Some n
  | JsString s => BigInt_of_string (remove_commas s)
  | JsNumber n => Some n
  | _ => if truthy value then BigInt value else Some 0
  end.

(** What [convertToOnChainProof] builds: [b] is a 2 by 2 array. *)
Record OnChainProof := {
  a : Z * Z;
  b : (Z * Z) * (Z * Z);
  c : Z * Z
}.

Definition pair_of (x y : option Z) : option (Z * Z) :=
  match x, y with
  | Some u, Some v => Some (u, v)
  | _, _ => None
  end.

(** [None] is a TypeError or SyntaxError thrown on the way. *)
Definition convertToOnChainProof (proof : JsValue) : option OnChainProof :=
  match get proof "pi_a", get proof "pi_b", get proof "pi_c" with
  | Some pi_a, Some pi_b, Some pi_c =>
      let a := pair_of (safeBigInt (opt_index pi_a 0)) (safeBigInt (opt_index pi_a 1)) in
      let b0 := pair_of (safeBigInt (opt_index (opt_index pi_b 0) 0))
                        (safeBigInt (opt_index (opt_index pi_b 0) 1)) in
      let b1 := pair_of (safeBigInt (opt_index (opt_index pi_b 1) 0))
                        (safeBigInt (opt_index (opt_index pi_b 1) 1)) in
      let c := pair_of (safeBigInt (opt_index pi_c 0)) (safeBigInt (opt_index pi_c 1)) in
      match a, b0, b1, c with
      | Some a, Some b0, Some b1, Some c => Some {| a := a; b := (b0, b1); c := c |}
      | _, _, _, _ => None
      end
  | _, _, _ => None
  end.

(** [publicSignals.map(s => BigInt(s))]. *)
Fixpoint signals_to_bigint (publicSignals : list string) : option (list Z) :=
  match publicSignals with
  | [] => Some []
  | s :: rest =>
      match BigInt_of_string s, signals_to_bigint rest with
      | Some v, Some vs => Some (v :: vs)
      | _, _ => None
      end
  end.

(** The four remote calls of [verifyProofOnChain]. *)
Inductive RemoteCall := SimulateContract | WriteContract | WaitForReceipt | ReadContract.

(** viem's ABI encoding of the arguments that are not plain [uint256]:
    [None] when the encoder throws.  [encode_b] is how the 2 by 2 array
    meets the [uint256[2]] the ABI declares for [b]. *)
Record Abi := {
  encode_bytes32 : string -> option Z;
  encode_address : string -> option Z;
  encode_b : (Z * Z) * (Z * Z) -> option (Z * Z)
}.

(** What the verifier gets from outside. [generateProofId] is
    [keccak256(toHex(JSON.stringify(...)))] with the clock inside; a remote
    call for which [reachable] is false throws. *)
Record Env := {
  contractAddress : option string;
  generateProofId : JsValue -> list string -> string -> option Z;
  abi : Abi;
  reachable : RemoteCall -> bool;
  tx : ZKPVerifier.Tx
}.

Definition is_uint256 (v : Z) : bool := (0 <=? v) && (v <? 2 ^ 256).

(** The arguments as the contract receives them. *)
Record CallArgs := {
  arg_proofId : Z;
  arg_zkProof : ZKPVerifier.Proof;
  arg_publicSignals : list Z;
  arg_ruleHash : Z;
  arg_paymentAddress : Z;
  arg_amount : Z
}.

Definition encode_pair (x : Z * Z) : option (Z * Z) :=
  if is_uint256 (fst x) && is_uint256 (snd x) then Some x else None.

Definition encode_args (abi : Abi) (proofId : Z) (onChainProof : OnChainProof)
    (signals : list Z) (ruleHash paymentAddress : string) (amount : Z)
  : option CallArgs :=
  match encode_pair (a onChainProof), encode_b abi (b onChainProof),
        encode_pair (c onChainProof),
        encode_bytes32 abi ruleHash, encode_address abi paymentAddress with
  | Some pa, Some pb, Some pc, Some rh, Some addr =>
      if is_uint256 proofId && forallb is_uint256 signals &&
         is_uint256 (amount * 1000000)
      then Some {| arg_proofId := proofId;
                   arg_zkProof := {| ZKPVerifier.a := pa; ZKPVerifier.b := pb;
                                     ZKPVerifier.c := pc |};
                   arg_publicSignals := signals;
                   arg_ruleHash := rh;
                   arg_paymentAddress := addr;
                   arg_amount := amount * 1000000 |}
      else None
  | _, _, _, _, _ => None
  end.

Definition call_contract (chain : ZKPVerifier.State) (tx : ZKPVerifier.Tx)
    (args : CallArgs) : option (bool * ZKPVerifier.State) :=
  ZKPVerifier.verifyAndAuthorizePayment chain tx
    (arg_proofId args) (arg_zkProof args) (arg_publicSignals args)
    (arg_ruleHash args) (arg_paymentAddress args) (arg_amount args).

(** What [verifyProofOnChain] returns: the bare boolean of the unconfigured
    case, the object of the on-chain path, or the object of the [catch]
    block. *)
Inductive Verification :=
| LocalOnly (verified : bool)
| OnChain (verified : bool) (proofId : Z)
| Fallback (verified : bool).

(** [isVerified] as [processPayment] reads it. *)
Definition authorized (v : Verification) : bool :=
  match v with
  | LocalOnly b | OnChain b _ | Fallback b => b
  end.

(** [onChain: true]. *)
Definition on_chain (v : Verification) : bool :=
  match v with
  | OnChain _ _ => true
  | _ => false
  end.

(** [!this.contractAddress]. *)
Definition unconfigured (env : Env) : bool :=
  match contractAddress env with
  | Some address => String.eqb address EmptyString
  | None => true
  end.

(** The [try] block after the configuration test: the result, or [None]
    when something threw, and the chain as the calls leave it.  The
    transaction [writeContract] sends runs the call the simulation ran. *)
Definition try_on_chain (env : Env) (chain : ZKPVerifier.State)
    (proof : JsValue) (publicSignals : list string)
    (ruleHash paymentAddress : string) (amount : Z)
  : option Verification * ZKPVerifier.State :=
  match generateProofId env proof publicSignals ruleHash with
  | None => (None, chain)
  | Some proofId =>
  match convertToOnChainProof proof with
  | None => (None, chain)
  | Some onChainProof =>
  match signals_to_bigint publicSignals with
  | None => (None, chain)
  | Some signals =>
  match encode_args (abi env) proofId onChainProof signals ruleHash paymentAddress amount with
  | None => (None, chain)
  | Some args =>
  if negb (reachable env SimulateContract) then (None, chain) else
  match call_contract chain (tx env) args with
  | None => (None, chain)
  | Some (_, chain') =>
  if negb (reachable env WriteContract) then (None, chain) else
  if negb (reachable env WaitForReceipt) then (None, chain') else
  if negb (reachable env ReadContract) then (None, chain') else
  (Some (OnChain (ZKPVerifier.isProofVerified chain' proofId) proofId), chain')
  end end end end end.

(** [verifyProofOnChain]. *)
Definition verifyProofOnChain (env : Env) (chain : ZKPVerifier.State)
    (proof : JsValue) (publicSignals : list string)
    (ruleHash paymentAddress : string) (amount : Z)
  : Verification * ZKPVerifier.State :=
  if unconfigured env
  then (LocalOnly (verifyProofLocally proof publicSignals), chain)
  else
    match try_on_chain env chain proof publicSignals ruleHash paymentAddress amount with
    | (Some result, chain') => (result, chain')
    | (None, chain') => (Fallback (verifyProofLocally proof publicSignals), chain')
    end.

End OnChainZKPVerifier.

(** * [src/core/payment-system.ts]: the pipeline *)
Module PaymentSystem.
Import Js Types.

(** The phases and statuses of [sendLog], the steps of
    [db.saveProcessingLog]. *)
Inductive Phase := commit | parse | plan | zkp | verify | payment.
Inductive LogStatus := active | completed | failed.
Inductive Step :=
| rule_committed | invoice_parsed | payment_planned | zkp_generated
| zkp_verified | payment_executed | error_step.

(** What a run does to its collaborators, in order; [GeneratePaymentProof]
    carries the [isValid] of the artifact, or [None] when the prover threw,
    [VerifyProofOnChain] the decision the verifier returned. *)
Inductive Event :=
| SendLog (phase : Phase) (status : LogStatus)
| SaveProcessingLog (step : Step)
| CommitRules
| ParseInvoice
| CreatePaymentPlan
| GeneratePaymentProof (isValid : option bool)
| VerifyProofOnChain (authorized : bool)
| ExecutePayment.

(** The messages of [interpretViolationSignals], by the rule they name. *)
Inductive Violation :=
| address_not_allowed | amount_over_cap | time_constraint_violated.

Inductive Status :=
| status_completed | status_payment_failed | status_rule_violation
| status_verification_failed | status_error.

(** The fields of the result object the claims are about; [violations]
    is only set by the rule-violation return. *)
Record ProcessResult := {
  success : bool;
  status : Status;
  violations : list Violation
}.

(** The collaborators of a run.  A log call for which [observer_ok] or
    [db_ok] is false throws; the parser and the planner return [None] when
    they throw; [commit_ok] is false when committing the hash on chain
    fails, which [commitRules] turns into a null [ruleHash]. *)
Record Env := {
  observer_ok : Phase -> LogStatus -> bool;
  db_ok : Step -> bool;
  toHex : string -> string;
  keccak256 : string -> string;
  commit_ok : bool;
  parseInvoicePDF : string -> option InvoiceData;
  parseInvoiceText : string -> option InvoiceData;
  dummyInvoice : InvoiceData;
  createPaymentPlan : InvoiceData -> UserRules -> option PaymentPlan;
  prover : Prover.Env;
  verifier : OnChainZKPVerifier.Env;
  chain : ZKPVerifier.State;
  executePayment : PaymentPlan -> bool
}.

(** A computation inside the [try] block: the events so far, and the value
    or [None] once something threw. *)
Definition M (A : Type) : Type := list Event * option A.

Definition ret {A : Type} (x : A) : M A := ([], Some x).

Definition throw {A : Type} : M A := ([], None).

Definition bind {A B : Type} (m : M A) (f : A -> M B) : M B :=
  match m with
  | (t, Some x) => let '(t', r) := f x in (t ++ t', r)
  | (t, None) => (t, None)
  end.

Notation "x <- m ;; k" := (bind m (fun x => k))
  (at level 100, m at level 50, right associativity).
Notation "m ;;; k" := (bind m (fun _ => k))
  (at level 100, right associativity).

(** A call that is recorded and then returns or throws. *)
Definition call {A : Type} (e : Event) (r : option A) : M A := ([e], r).

Definition guard (ok : bool) : option unit := if ok then Some tt else None.

Definition sendLog (env : Env) (phase : Phase) (status : LogStatus) : M unit :=
  call (SendLog phase status) (guard (observer_ok env phase status)).

Definition saveProcessingLog (env : Env) (step : Step) : M unit :=
  call (SaveProcessingLog step) (guard (db_ok env step)).

(** [ruleManager.commitRules]: the hash or null, and the rule object with
    its addresses sorted in place. *)
Definition commitRules (env : Env) (userRules : UserRules)
  : M (option string * UserRules) :=
  let '(ruleHash, rules') :=
    RuleCommitment.hashRules (toHex env) (keccak256 env) userRules in
  call CommitRules
       (Some (if commit_ok env then Some ruleHash else None, rules')).

Definition interpretViolationSignals (publicSignals : list string) : list Violation :=
  let at_index i := nth_error publicSignals i in
  let is_zero (s : option string) :=
    match s with
    | Some x => String.eqb x "0"
    | None => false
    end in
  (if is_zero (at_index 1%nat) then [address_not_allowed] else []) ++
  (if is_zero (at_index 2%nat) then [amount_over_cap] else []) ++
  (if is_zero (at_index 3%nat) then [time_constraint_violated] else []).

(** The body of the [try] block of [processPayment]. *)
Definition processPayment_try (env : Env) (input : PaymentInput) (userRules : UserRules)
  : M ProcessResult :=
  sendLog env commit active ;;;
  committed <- commitRules env userRules ;;
  let '(ruleHash, userRules) := committed in
  saveProcessingLog env rule_committed ;;;
  ruleHash <- (match ruleHash with Some h => ret h | None => throw end) ;;
  sendLog env commit completed ;;;
  sendLog env parse active ;;;
  invoiceData <-
    match input with
    | InputPdf path =>
        if String.eqb path EmptyString then ret (dummyInvoice env)
        else call ParseInvoice (parseInvoicePDF env path)
    | InputText content =>
        if String.eqb content EmptyString then ret (dummyInvoice env)
        else call ParseInvoice (parseInvoiceText env content)
    | InputDemo => ret (dummyInvoice env)
    end ;;
  saveProcessingLog env invoice_parsed ;;;
  sendLog env parse completed ;;;
  sendLog env plan active ;;;
  paymentPlan <- call CreatePaymentPlan (createPaymentPlan env invoiceData userRules) ;;
  saveProcessingLog env payment_planned ;;;
  sendLog env plan completed ;;;
  sendLog env zkp active ;;;
  zkpResult <-
    match Prover.generatePaymentProof (prover env) paymentPlan userRules with
    | Some r => call (GeneratePaymentProof (Some (Prover.isValid r))) (Some r)
    | None => call (GeneratePaymentProof None) None
    end ;;
  saveProcessingLog env zkp_generated ;;;
  sendLog env zkp completed ;;;
  if negb (Prover.isValid zkpResult) then
    let violations := interpretViolationSignals (Prover.publicSignals zkpResult) in
    sendLog env zkp failed ;;;
    ret {| success := false; status := status_rule_violation;
           violations := violations |}
  else
    sendLog env verify active ;;;
    let '(onChainVerification, _) :=
      OnChainZKPVerifier.verifyProofOnChain (verifier env) (chain env)
        (Prover.proof zkpResult) (Prover.publicSignals zkpResult)
        ruleHash (toAddress paymentPlan) (amount paymentPlan) in
    let isVerified := OnChainZKPVerifier.authorized onChainVerification in
    call (VerifyProofOnChain isVerified) (Some tt) ;;;
    if negb isVerified then
      ret {| success := false; status := status_verification_failed;
             violations := [] |}
    else
      saveProcessingLog env zkp_verified ;;;
      sendLog env verify completed ;;;
      sendLog env payment active ;;;
      paid <- call ExecutePayment (Some (executePayment env paymentPlan)) ;;
      saveProcessingLog env payment_executed ;;;
      sendLog env payment (if paid then completed else failed) ;;;
      ret {| success := paid;
             status := if paid then status_completed else status_payment_failed;
             violations := [] |}.

(** [processPayment]: the events of the run and what the promise settles
    to; [None] is a rejection, when the log write of the [catch] block
    throws as well. *)
Definition processPayment (env : Env) (input : PaymentInput) (userRules : UserRules)
  : list Event * option ProcessResult :=
  match processPayment_try env input userRules with
  | (t, Some result) => (t, Some result)
  | (t, None) =>
      (t ++ [SaveProcessingLog error_step],
       if db_ok env error_step
       then Some {| success := false; status := status_error; violations := [] |}
       else None)
  end.

End PaymentSystem.

(** * What the claims are stated with *)

(** A signal that is 0 or 1. *)
Module Bits.

Definition is_bit (b : Z) : Prop := b = 0 \/ b = 1.

(** The four public signals of an artifact that passes every check. *)
Definition four_ones : list string := ["1"; "1"; "1"; "1"]%string.

End Bits.

(** Strings of decimal digits. *)
Module Digits.
Import Js.

(** [s] is decimal digits throughout, and reading them from the left with
    [acc] in hand gives [v]. *)
Definition reads (s : string) (acc v : Z) : Prop :=
  exists ds, digits_prefix 10 s = (ds, EmptyString) /\
             fold_left (fun a d => a * 10 + d) ds acc = v.

(** A string that is empty or starts with a decimal digit. *)
Definition digit_headed (s : string) : Prop :=
  s = EmptyString \/ exists d rest, 0 <= d < 10 /\ s = String (digit_char d) rest.

End Digits.

(** The protocol of a pipeline run. *)
Module Protocol.
Import PaymentSystem.

(** Where a run stands, as far as the prover, the verifier and the
    executor are concerned. *)
Inductive Stage :=
| BeforeProof | ProverFailed | RuleViolated | Proved
| VerificationFailed | Authorized | Executed.

Definition step (s : Stage) (e : Event) : option Stage :=
  match e, s with
  | SendLog _ _, _ | SaveProcessingLog _, _ => Some s
  | CommitRules, BeforeProof | ParseInvoice, BeforeProof
  | CreatePaymentPlan, BeforeProof => Some BeforeProof
  | GeneratePaymentProof None, BeforeProof => Some ProverFailed
  | GeneratePaymentProof (Some false), BeforeProof => Some RuleViolated
  | GeneratePaymentProof (Some true), BeforeProof => Some Proved
  | VerifyProofOnChain false, Proved => Some VerificationFailed
  | VerifyProofOnChain true, Proved => Some Authorized
  | ExecutePayment, Authorized => Some Executed
  | _, _ => None
  end.

Fixpoint run (s : Stage) (t : list Event) : option Stage :=
  match t with
  | [] => Some s
  | e :: rest =>
      match step s e with
      | Some s' => run s' rest
      | None => None
      end
  end.

(** The stage a result stands for. *)
Definition result_fits (s : Stage) (r : option ProcessResult) : Prop :=
  match r with
  | Some result =>
      match status result with
      | status_rule_violation => s = RuleViolated /\ success result = false
      | status_verification_failed => s = VerificationFailed /\ success result = false
      | status_completed => s = Executed /\ success result = true
      | status_payment_failed => s = Executed /\ success result = false
      | status_error => success result = false
      end
  | None => True
  end.

Definition is_log (e : Event) : bool :=
  match e with
  | SendLog _ _ | SaveProcessingLog _ => true
  | _ => false
  end.

(** The three log calls between the prover's return and the
    rule-violation return. *)
Definition proof_stage_recorded (env : Env) : Prop :=
  db_ok env zkp_generated = true /\
  observer_ok env zkp completed = true /\
  observer_ok env zkp failed = true.

End Protocol.

(** What the verifier is held to. *)
Module VerifierSpec.
Import OnChainZKPVerifier.

(** The public outputs read as numbers are four ones. *)
Definition four_bits_all_one (publicSignals : list string) : Prop :=
  signals_to_bigint publicSignals = Some [1; 1; 1; 1].

End VerifierSpec.

(** * Concrete inputs and environments *)
Module Scenarios.
Import Js Types.

Section CircuitInputs.
Import Field Circuits.

(** The spec's example: destination on the list, 75 against a cap of 100,
    hour 14 in [9, 18]. *)
Definition example_input : PaymentRulesInput :=
  {| paymentAddress := 1001; paymentAmount := 75; paymentTimestamp := 14;
     allowedAddress1 := 1000; allowedAddress2 := 1001; allowedAddress3 := 1002;
     maxAmount := 100; minHour := 9; maxHour := 18 |}.

(** A quotient no integer division returns: half of [p + 7]. *)
Definition forged_quotient : Z := (p + 7) / 2.

End CircuitInputs.

Section ProverRuns.
Import Prover.
Open Scope string_scope.

(** A run without the circuit files: destination on the list, 6 against a
    cap of 10, hour 14 in [9, 18]. *)
Definition fallback_env : Env :=
  {| circuitFilesExist := false; currentHour := 14; fullProve := fun _ => None |}.

Definition demo_rules : UserRules :=
  {| allowedAddresses := ["0xF2431b618B5b02923922c525885DBfFcdb9DE853";
                          "0xE2F2E032B02584e81437bA8Df18F03d6771F9d23"];
     maxAmount := 10;
     allowedHours := (9, 18) |}.

Definition demo_plan : PaymentPlan :=
  {| toAddress := "0xF2431b618B5b02923922c525885DBfFcdb9DE853";
     amount := 6; timestamp := 1700000000; description := "invoice" |}.

Definition colliding_address : string := "0x1234567890abcdef1234567890abcdef151bd302".

Definition with_timestamp (plan : PaymentPlan) (ts : Z) : PaymentPlan :=
  {| toAddress := toAddress plan; amount := amount plan;
     timestamp := ts; description := description plan |}.

Definition rules_abc : UserRules :=
  {| allowedAddresses := ["0xa"; "0xb"; "0xc"]; maxAmount := 10; allowedHours := (9, 18) |}.

Definition rules_cab : UserRules :=
  {| allowedAddresses := ["0xc"; "0xa"; "0xb"]; maxAmount := 10; allowedHours := (9, 18) |}.

End ProverRuns.

Section VerifierRuns.
Import OnChainZKPVerifier.

(** A configured verifier whose remote calls all succeed, on an empty
    ledger, and an artifact of the proving path with all four bits set.
    Its encoder hands the first row of the 2 by 2 [b] to the contract;
    viem's own encoder refuses the array for the [uint256[2]] the ABI
    declares, and a verifier with that encoder never leaves the local
    check. *)
Definition configured_env : Env :=
  {| contractAddress := Some "0x5FbDB2315678afecb367f032d93F642f64180aa3"%string;
     generateProofId := fun _ _ _ => Some 77;
     abi := {| encode_bytes32 := fun _ => Some 1;
               encode_address := fun _ => Some 2;
               encode_b := fun m => Some (fst m) |};
     reachable := fun _ => true;
     tx := {| ZKPVerifier.msg_sender := 9; ZKPVerifier.block_timestamp := 1700000000 |} |}.

Definition empty_chain : ZKPVerifier.State :=
  {| ZKPVerifier.paymentProofs := ∅; ZKPVerifier.userProofs := ∅ |}.

Definition groth16_proof : JsValue :=
  JsObject
    [("pi_a", JsArray [JsString "11"; JsString "12"; JsString "1"]);
     ("pi_b", JsArray [JsArray [JsString "21"; JsString "22"];
                       JsArray [JsString "23"; JsString "24"];
                       JsArray [JsString "1"; JsString "0"]]);
     ("pi_c", JsArray [JsString "31"; JsString "32"; JsString "1"]);
     ("protocol", JsString "groth16");
     ("curve", JsString "bn128")]%string.

End VerifierRuns.

Section PipelineRuns.
Import PaymentSystem.

(** A proving oracle that returns the outputs the circuit computes, in
    the order circom lists the public signals, and a prover with the
    circuit files in place that calls it at hour 14. *)
Definition honest_fullProve (input : Circuits.PaymentRulesInput)
  : option (JsValue * list string) :=
  let o := Circuits.PaymentRules_w input in
  Some (groth16_proof,
        List.map Number_toString
          [Circuits.isValid o; Circuits.addressValid o;
           Circuits.amountValid o; Circuits.timeValid o]).

Definition circuit_prover : Prover.Env :=
  {| Prover.circuitFilesExist := true;
     Prover.currentHour := 14;
     Prover.fullProve := honest_fullProve |}.

(** An invoice of 15 to the first allowed destination, against the cap of
    10 of the demo rules; [db] tells which log writes succeed. *)
Definition over_cap_env (db : Step -> bool) : Env :=
  {| observer_ok := fun _ _ => true;
     db_ok := db;
     toHex := fun s => s;
     keccak256 := fun s => s;
     commit_ok := true;
     parseInvoicePDF := fun _ => None;
     parseInvoiceText := fun _ => None;
     dummyInvoice :=
       {| companyName := "Power company";
          paymentAddress := "0xF2431b618B5b02923922c525885DBfFcdb9DE853";
          invoiceAmount := 15;
          invoiceNumber := "INV-1" |};
     createPaymentPlan := fun invoice _ =>
       Some {| toAddress := paymentAddress invoice;
               amount := invoiceAmount invoice;
               timestamp := 1700000000;
               description := invoiceNumber invoice |};
     prover := circuit_prover;
     verifier := configured_env;
     chain := empty_chain;
     executePayment := fun _ => true |}.

Definition all_writes_succeed : Step -> bool := fun _ => true.

Definition proof_log_write_fails : Step -> bool :=
  fun step => match step with zkp_generated => false | _ => true end.

End PipelineRuns.

End Scenarios.

(** * [RuleCommitment.sol]: the rule-commitment contract

    [bytes32], [uint256] and [address] values are integers, a [string] is
    its bytes; a mapping entry that was never written reads as zero. *)
Module RuleCommitmentContract.

Record RuleData := {
  ruleHash : Z;
  timestamp : Z;
  description : string;
  isActive : bool
}.

Definition zero_rule : RuleData :=
  {| ruleHash := 0; timestamp := 0; description := EmptyString; isActive := false |}.

Record State := {
  userRules : gmap Z RuleData;
  ruleExists : gmap Z bool
}.

Inductive Log :=
| RuleCommitted (user ruleHash : Z) (description : string) (timestamp : Z)
| RuleRevoked (user ruleHash timestamp : Z).

(** [userRules[user]] and [ruleExists[ruleHash]]. *)
Definition userRules_at (st : State) (user : Z) : RuleData :=
  default zero_rule (userRules st !! user).

Definition ruleExists_at (st : State) (h : Z) : bool :=
  default false (ruleExists st !! h).

(** [commitRules]; [None] is a revert, the logs are the events emitted. *)
Definition commitRules (st : State) (tx : ZKPVerifier.Tx)
    (ruleHash_ : Z) (description_ : string) : option (list Log * State) :=
  if ruleHash_ =? 0 then None
  else if (String.length description_ =? 0)%nat then None
  else
    let sender := ZKPVerifier.msg_sender tx in
    let now := ZKPVerifier.block_timestamp tx in
    let old := ruleHash (userRules_at st sender) in
    let '(revoked, exists1) :=
      if negb (old =? 0)
      then ([RuleRevoked sender old now], <[ old := false ]> (ruleExists st))
      else ([], ruleExists st) in
    Some (revoked ++ [RuleCommitted sender ruleHash_ description_ now],
          {| userRules :=
               <[ sender := {| ruleHash := ruleHash_;
                               timestamp := now;
                               description := description_;
                               isActive := true |} ]> (userRules st);
             ruleExists := <[ ruleHash_ := true ]> exists1 |}).

Definition getUserRuleHash (st : State) (user : Z) : Z :=
  ruleHash (userRules_at st user).

Definition getRuleCommitment (st : State) (user : Z) : Z * Z * string :=
  let rule := userRules_at st user in
  (ruleHash rule, timestamp rule, description rule).

Definition verifyRuleHash (st : State) (ruleHash_ : Z) : bool :=
  ruleExists_at st ruleHash_.

Definition isRuleActive (st : State) (user : Z) : bool :=
  isActive (userRules_at st user) && negb (ruleHash (userRules_at st user) =? 0).

(** [revokeRules]. *)
Definition revokeRules (st : State) (tx : ZKPVerifier.Tx) : option (list Log * State) :=
  let sender := ZKPVerifier.msg_sender tx in
  let rule := userRules_at st sender in
  if negb (isActive rule) then None
  else
    let ruleHash_ := ruleHash rule in
    Some ([RuleRevoked sender ruleHash_ (ZKPVerifier.block_timestamp tx)],
          {| userRules :=
               <[ sender := {| ruleHash := ruleHash rule;
                               timestamp := timestamp rule;
                               description := description rule;
                               isActive := false |} ]> (userRules st);
             ruleExists := <[ ruleHash_ := false ]> (ruleExists st) |}).

End RuleCommitmentContract.

(** * [circuits/time_constraint.circom]: the modulo helper *)
Module TimeConstraintHelpers.
Import Field Circomlib.

(** [Mod(n)]:
    [signal quotient; quotient <-- dividend \ divisor;
     remainder <-- dividend % divisor;
     dividend === quotient * divisor + remainder;
     lt = LessThan(n)(remainder, divisor); lt.out === 1;
     geq = GreaterEqThan(n)(remainder, 0); geq.out === 1].
    The quotient is an inner signal. *)
Definition Mod_w (dividend divisor : Z) : Z := dividend mod divisor.

Definition Mod_sat (n : nat) (dividend divisor remainder : Z) : Prop :=
  exists quotient,
    is_signal quotient /\
    dividend mod p = (quotient * divisor + remainder) mod p /\
    LessThan_sat n remainder divisor 1 /\
    GreaterEqThan_sat n remainder 0 1.

End TimeConstraintHelpers.

(** * [src/zkp/verifier.ts]: reading the public signals *)
Module LocalZKPVerifier.

Record ProofAnalysis := {
  isValid : bool;
  addressValid : bool;
  amountValid : bool;
  timeValid : bool
}.

(** [publicSignals[i] === '1']; an index past the end reads [undefined]. *)
Definition is_one (publicSignals : list string) (i : nat) : bool :=
  match publicSignals !! i with
  | Some signal => String.eqb signal "1"
  | None => false
  end.

Definition analyzeProofResults (publicSignals : list string) : ProofAnalysis :=
  {| isValid := is_one publicSignals 0;
     addressValid := is_one publicSignals 1;
     amountValid := is_one publicSignals 2;
     timeValid := is_one publicSignals 3 |}.

End LocalZKPVerifier.

(** * [src/core/payment-system.ts]: the signals of a manual evaluation *)
Module ViolationSignals.
Import Js Types.

(** [generateViolationSignals], at the hour [new Date().getHours()]
    returns.  The amount is compared as [parseFloat] reads it, which for
    a number is the number itself, in plain or in exponent form. *)
Definition generateViolationSignals (currentHour : Z) (paymentPlan : PaymentPlan)
    (userRules : UserRules) : list string :=
  let signals := ["0"; "0"; "0"; "0"]%string in
  let signals :=
    if includes (allowedAddresses userRules) (toAddress paymentPlan)
    then <[ 1%nat := "1"%string ]> signals else signals in
  let signals :=
    if amount paymentPlan <=? maxAmount userRules
    then <[ 2%nat := "1"%string ]> signals else signals in
  let signals :=
    if (fst (allowedHours userRules) <=? currentHour) &&
       (currentHour <=? snd (allowedHours userRules))
    then <[ 3%nat := "1"%string ]> signals else signals in
  let is_one i := LocalZKPVerifier.is_one signals i in
  if is_one 1%nat && is_one 2%nat && is_one 3%nat
  then <[ 0%nat := "1"%string ]> signals else signals.

End ViolationSignals.

(** * [src/blockchain/usdc-payment.ts]: the payment executor *)
Module USDCPaymentExecutor.
Import Js Types.

Inductive ReceiptStatus := receipt_success | receipt_reverted.

Record Receipt := {
  receipt_status : ReceiptStatus;
  blockNumber : Z;
  gasUsed : Z
}.

(** The remote calls of a run, in the order they are made. *)
Inductive Call :=
| ReadBalanceOf
| ReadDecimals
| GetTransactionCount
| SimulateTransfer (to : string) (amountInWei : Z)
| WriteTransfer (to : string) (amountInWei : Z)
| WaitForTransactionReceipt (txHash : Z).


(** What the node and the token contract answer; [None] and [false] are
    calls that throw.  [balance_below balance decimals amount] is
    [parseFloat(formatUnits(balance, decimals)) < amount] in double
    precision. *)
Record Env := {
  balanceOf : option Z;
  decimals : option Z;
  balance_below : Z -> Z -> Z -> bool;
  getTransactionCount : bool;
  simulateContract : string -> Z -> bool;
  writeContract : string -> Z -> option Z;
  waitForTransactionReceipt : Z -> option Receipt
}.

Record PaymentDetails := {
  to : string;
  details_amount : Z;
  details_description : string
}.

(** The result object: [txHash] and [receipt] (block number, gas used and
    status) are present in the success return only. *)
Record PaymentResult := {
  success : bool;
  txHash : option Z;
  receipt : option Receipt;
  paymentDetails : PaymentDetails
}.

(** [getDecimals]: the token's answer, or 6 when the read throws. *)
Definition getDecimals (env : Env) : list Call * Z :=
  ([ReadDecimals], default 6 (decimals env)).

(** [getBalance], as far as [executePayment] uses it: the raw balance and
    the decimals it is formatted with; [None] is the rethrown error. *)
Definition getBalance (env : Env) : list Call * option (Z * Z) :=
  match balanceOf env with
  | None => ([ReadBalanceOf], None)
  | Some balance =>
      let '(calls, d) := getDecimals env in
      (ReadBalanceOf :: calls, Some (balance, d))
  end.

(** [Number.MAX_SAFE_INTEGER]: up to it an integer prints all its digits. *)
Definition MAX_SAFE_INTEGER : Z := 2 ^ 53 - 1.

(** [parseUnits(amount.toString(), decimals)] on an integer amount, read
    from the digits [Number_toString] prints.  From 10^21 on [toString]
    gives the exponent form, which [parseUnits] does not read: [None] is
    the error it throws. *)
Definition parseUnits (amount decimals_ : Z) : option Z :=
  if Z.abs amount <? 10 ^ 21 then Some (amount * 10 ^ decimals_) else None.

Definition details_of (paymentPlan : PaymentPlan) : PaymentDetails :=
  {| to := toAddress paymentPlan;
     details_amount := amount paymentPlan;
     details_description := description paymentPlan |}.

Definition failure (paymentPlan : PaymentPlan) : PaymentResult :=
  {| success := false; txHash := None; receipt := None;
     paymentDetails := details_of paymentPlan |}.

(** [executePayment]: the calls made and the result returned. *)
Definition executePayment (env : Env) (paymentPlan : PaymentPlan)
  : list Call * PaymentResult :=
  match getBalance env with
  | (calls, None) => (calls, failure paymentPlan)
  | (calls, Some (balance, d)) =>
      if balance_below env balance d (amount paymentPlan)
      then (calls, failure paymentPlan)
      else
        let '(calls', decimals_) := getDecimals env in
        let calls := calls ++ calls' in
        match parseUnits (amount paymentPlan) decimals_ with
        | None => (calls, failure paymentPlan)
        | Some amountInWei =>
        let calls := calls ++ [GetTransactionCount] in
        if negb (getTransactionCount env) then (calls, failure paymentPlan)
        else
          let calls := calls ++ [SimulateTransfer (toAddress paymentPlan) amountInWei] in
          if negb (simulateContract env (toAddress paymentPlan) amountInWei)
          then (calls, failure paymentPlan)
          else
            let calls := calls ++ [WriteTransfer (toAddress paymentPlan) amountInWei] in
            match writeContract env (toAddress paymentPlan) amountInWei with
            | None => (calls, failure paymentPlan)
            | Some hash =>
                let calls := calls ++ [WaitForTransactionReceipt hash] in
                match waitForTransactionReceipt env hash with
                | None => (calls, failure paymentPlan)
                | Some receipt_ =>
                    (calls,
                     {| success := true;
                        txHash := Some hash;
                        receipt := Some receipt_;
                        paymentDetails := details_of paymentPlan |})
                end
            end
        end
  end.

End USDCPaymentExecutor.

(** * [src/blockchain/rule-commitment.ts]: committing and reading back *)
Module RuleCommitmentManager.
Import Js Types.

Inductive RemoteCall :=
| SimulateContract | WriteContract | WaitForTransactionReceipt | ReadContract.

(** What the manager gets from outside: viem's [toHex], [keccak256] and
    ABI encoders ([None] when the encoder throws), the account's address,
    which remote calls go through, and the sender and block of the
    transaction it sends. *)
Record Env := {
  contractAddress : option string;
  toHex : string -> string;
  keccak256 : string -> string;
  encode_bytes32 : string -> option Z;
  encode_address : string -> option Z;
  account_address : string;
  reachable : RemoteCall -> bool;
  tx : ZKPVerifier.Tx
}.

(** The result object of [commitRules]: [ruleHash] is null in the result
    of the [catch] block, [local] is set when no contract is configured. *)
Record CommitResult := {
  success : bool;
  ruleHash : option string;
  local : bool
}.


(** [this.contractAddress] as a condition. *)
Definition configured (env : Env) : bool :=
  match contractAddress env with
  | Some address => negb (String.eqb address EmptyString)
  | None => false
  end.

Definition failed : CommitResult :=
  {| success := false; ruleHash := None; local := false |}.

(** [commitRules]: the result, the contract's storage as the call leaves
    it, and the rule object with its addresses sorted in place.  The
    transaction [writeContract] sends runs the call the simulation ran. *)
Definition commitRules (env : Env) (chain : RuleCommitmentContract.State)
    (userRules : UserRules) (description : string)
  : CommitResult * RuleCommitmentContract.State * UserRules :=
  let '(hash, rules') := RuleCommitment.hashRules (toHex env) (keccak256 env) userRules in
  if configured env then
    match encode_bytes32 env hash with
    | None => (failed, chain, rules')
    | Some h =>
        if negb (reachable env SimulateContract) then (failed, chain, rules')
        else
          match RuleCommitmentContract.commitRules chain (tx env) h description with
          | None => (failed, chain, rules')
          | Some (_, chain') =>
              if negb (reachable env WriteContract) then (failed, chain, rules')
              else if negb (reachable env WaitForTransactionReceipt)
                   then (failed, chain', rules')
                   else ({| success := true; ruleHash := Some hash; local := false |},
                         chain', rules')
          end
    end
  else ({| success := true; ruleHash := Some hash; local := true |}, chain, rules').

(** What [getRuleCommitment] returns; [None] is null. *)
Record Commitment := {
  commitment_ruleHash : Z;
  commitment_timestamp : Z;
  commitment_description : string;
  userAddress : string
}.

(** [getRuleCommitment]; [userAddress] is null or an address. *)
Definition getRuleCommitment (env : Env) (chain : RuleCommitmentContract.State)
    (userAddress_ : option string) : option Commitment :=
  let targetAddress :=
    match userAddress_ with
    | Some address => if String.eqb address EmptyString then account_address env else address
    | None => account_address env
    end in
  if negb (configured env) then None
  else
    match encode_address env targetAddress with
    | None => None
    | Some user =>
        if negb (reachable env ReadContract) then None
        else
          let '(h, time, text) := RuleCommitmentContract.getRuleCommitment chain user in
          Some {| commitment_ruleHash := h;
                  commitment_timestamp := time;
                  commitment_description := text;
                  userAddress := targetAddress |}
    end.

End RuleCommitmentManager.

(** * [src/ai/payment-planner.ts]: the planner's own rule check and risk
      score

    Confidence and risk score are IEEE 754 doubles, as in JavaScript. *)
Module PaymentPlanner.
Import Js Types.
Import Stdlib.Floats.PrimFloat Stdlib.Floats.SpecFloat Stdlib.Floats.FloatOps.

#[local] Set Warnings "-inexact-float".










Section Clock.

(** [new Date(ms).getHours()], the local hour of an instant. *)
Variable getHours : Z -> Z.

Definition paymentHour (paymentPlan : PaymentPlan) : Z :=
  getHours (timestamp paymentPlan * 1000).



End Clock.

End PaymentPlanner.

(** * [src/index.ts]: the log manager of the server's event stream *)
Module LogManager.
Import Js.

(** [sanitized[key] = value] on an object literal's own properties.  The
    list of an object is what [Object.entries] enumerates, in that order;
    a new key goes to the end, and assigning to [__proto__] creates no own
    property. *)
Fixpoint set_property (fields : list (string * JsValue)) (key : string)
    (value : JsValue) : list (string * JsValue) :=
  match fields with
  | [] => [(key, value)]
  | (k, v) :: rest =>
      if String.eqb key k then (k, value) :: rest
      else (k, v) :: set_property rest key value
  end.

Definition assign (fields : list (string * JsValue)) (key : string)
    (value : JsValue) : list (string * JsValue) :=
  if String.eqb key "__proto__" then fields else set_property fields key value.

(** [sanitizeForJSON]. *)
Fixpoint sanitizeForJSON (obj : JsValue) : JsValue :=
  match obj with
  | JsUndefined | JsNull => obj
  | JsBigInt n => JsString (Number_toString n)
  | JsBool _ | JsNumber _ | JsString _ => obj
  | JsArray items => JsArray (List.map sanitizeForJSON items)
  | JsObject fields =>
      JsObject
        (fold_left
           (fun sanitized entry =>
              match entry with
              | (key, value) => assign sanitized key (sanitizeForJSON value)
              end)
           fields [])
  end.

(** Whether a value holds a [bigint] at any depth. *)
Fixpoint has_bigint (v : JsValue) : bool :=
  match v with
  | JsBigInt _ => true
  | JsArray items => existsb has_bigint items
  | JsObject fields =>
      existsb (fun entry => match entry with (_, value) => has_bigint value end) fields
  | _ => false
  end.

(** The manager's map of clients, by process id, and what each response
    will do when it emits ['close']: delete the process ids its listeners
    were registered with, in the order of registration. *)
Record State := {
  clients : gmap string Z;
  on_close : gmap Z (list string)
}.

Definition addClient (st : State) (processId : string) (res : Z) : State :=
  {| clients := <[ processId := res ]> (clients st);
     on_close := <[ res := default [] (on_close st !! res) ++ [processId] ]>
                   (on_close st) |}.

(** A response emits ['close']. *)
Definition close (st : State) (res : Z) : State :=
  {| clients := fold_left (fun m processId => delete processId m)
                          (default [] (on_close st !! res)) (clients st);
     on_close := on_close st |}.

(** [removeClient]: the response that is ended, if any. *)
Definition removeClient (st : State) (processId : string) : option Z * State :=
  match clients st !! processId with
  | Some client =>
      (Some client,
       {| clients := delete processId (clients st); on_close := on_close st |})
  | None => (None, st)
  end.

(** The object [sendLog] serializes, and the one of its [catch] block;
    each reads the clock for its own time stamp. *)
Definition logData (phase status message timestamp : string) (details : JsValue)
  : JsValue :=
  JsObject [("phase", JsString phase); ("status", JsString status);
            ("message", JsString message);
            ("details", sanitizeForJSON details);
            ("timestamp", JsString timestamp)].

Definition fallbackData (phase status message timestamp : string) : JsValue :=
  JsObject [("phase", JsString phase); ("status", JsString status);
            ("message", JsString message); ("timestamp", JsString timestamp)].

(** [sendLog]: the objects written, each with the response it goes to;
    [None] when the write of the [catch] block throws as well.
    [write_ok] tells which writes go through. *)
Definition sendLog (write_ok : Z -> JsValue -> bool) (st : State)
    (processId phase status message : string) (details : JsValue)
    (timestamp timestamp' : string)
  : option (list (Z * JsValue)) :=
  match clients st !! processId with
  | Some client =>
      let data := logData phase status message timestamp details in
      if write_ok client data then Some [(client, data)]
      else
        let fallback := fallbackData phase status message timestamp' in
        if write_ok client fallback then Some [(client, fallback)] else None
  | None => Some []
  end.

End LogManager.
(** * Objects built by [sanitizeForJSON] *)
Module Sanitized.
Import Js.

(** An object as the loop of [sanitizeForJSON] builds it: distinct keys,
    none of them [__proto__], and values that satisfy [Q]. *)
Definition sanitized_object (Q : JsValue -> Prop)
    (fields : list (string * JsValue)) : Prop :=
  List.NoDup (List.map fst fields) /\
  ~ In "__proto__"%string (List.map fst fields) /\
  List.Forall (fun entry => Q (snd entry)) fields.

End Sanitized.

(** * Sequences of transactions

    A ledger is what a contract's storage has become after the
    transactions sent to it so far; a transaction that reverts leaves the
    storage as it was. *)
Module Ledger.

(** ** [RuleCommitment.sol] *)

Inductive RuleCall :=
| CommitRules (ruleHash : Z) (description : string)
| RevokeRules.

Definition rule_step (st : RuleCommitmentContract.State)
    (c : ZKPVerifier.Tx * RuleCall) : RuleCommitmentContract.State :=
  let result :=
    match snd c with
    | CommitRules h d => RuleCommitmentContract.commitRules st (fst c) h d
    | RevokeRules => RuleCommitmentContract.revokeRules st (fst c)
    end in
  match result with
  | Some (_, st') => st'
  | None => st
  end.

Definition rule_run (st : RuleCommitmentContract.State)
    (calls : list (ZKPVerifier.Tx * RuleCall)) : RuleCommitmentContract.State :=
  fold_left rule_step calls st.

Definition rules_deployed : RuleCommitmentContract.State :=
  {| RuleCommitmentContract.userRules := ∅; RuleCommitmentContract.ruleExists := ∅ |}.

(** What holds of the storage after any transactions since deployment:
    the zero hash is not marked, and a marked hash has an active owner. *)
Definition rules_consistent (st : RuleCommitmentContract.State) : Prop :=
  RuleCommitmentContract.ruleExists_at st 0 = false /\
  forall h, RuleCommitmentContract.ruleExists_at st h = true ->
    exists user, RuleCommitmentContract.getUserRuleHash st user = h /\
                 RuleCommitmentContract.isRuleActive st user = true.

(** ** [ZKPVerifier.sol] *)

Record VerifyCall := {
  call_tx : ZKPVerifier.Tx;
  call_proofId : Z;
  call_zkProof : ZKPVerifier.Proof;
  call_publicSignals : list Z;
  call_ruleHash : Z;
  call_paymentAddress : Z;
  call_amount : Z
}.

Definition verify_step (st : ZKPVerifier.State) (c : VerifyCall) : ZKPVerifier.State :=
  match ZKPVerifier.verifyAndAuthorizePayment st (call_tx c) (call_proofId c)
          (call_zkProof c) (call_publicSignals c) (call_ruleHash c)
          (call_paymentAddress c) (call_amount c) with
  | Some (_, st') => st'
  | None => st
  end.

Definition verify_run (st : ZKPVerifier.State) (calls : list VerifyCall)
  : ZKPVerifier.State :=
  fold_left verify_step calls st.

Definition verifier_deployed : ZKPVerifier.State :=
  {| ZKPVerifier.paymentProofs := ∅; ZKPVerifier.userProofs := ∅ |}.

(** The structure test of [_verifyGroth16Proof]: no component is the zero
    pair. *)
Definition nondegenerate (proof : ZKPVerifier.Proof) : Prop :=
  ZKPVerifier.a proof <> (0, 0) /\ ZKPVerifier.b proof <> (0, 0) /\
  ZKPVerifier.c proof <> (0, 0).

(** What holds of the storage after any transactions since deployment:
    a record is never filed under the zero id, a record marked verified
    passed both checks, and every id in a history has a record. *)
Definition verifier_recorded (st : ZKPVerifier.State) : Prop :=
  (forall proofId record,
     ZKPVerifier.paymentProofs st !! proofId = Some record ->
     proofId <> 0 /\
     (ZKPVerifier.verified record = true ->
      nondegenerate (ZKPVerifier.zkProof record) /\
      ZKPVerifier.publicSignals record = [1; 1; 1; 1])) /\
  (forall user proofId,
     In proofId (ZKPVerifier.getUserProofs st user) ->
     exists record, ZKPVerifier.paymentProofs st !! proofId = Some record).

End Ledger.

(** * Further inputs, and what the statements on them are written with *)
Module Examples.
Import Js Types.

Section CircuitInputs.
Import Field Circuits.

(** The input with another payment amount. *)
Definition with_amount (i : PaymentRulesInput) (amount : Z) : PaymentRulesInput :=
  {| paymentAddress := paymentAddress i; paymentAmount := amount;
     paymentTimestamp := paymentTimestamp i;
     allowedAddress1 := allowedAddress1 i; allowedAddress2 := allowedAddress2 i;
     allowedAddress3 := allowedAddress3 i; maxAmount := maxAmount i;
     minHour := minHour i; maxHour := maxHour i |}.

End CircuitInputs.

Section ProverRuns.
Import Prover.

(** The plan with another destination. *)
Definition to_address (plan : PaymentPlan) (address : string) : PaymentPlan :=
  {| toAddress := address; amount := amount plan;
     timestamp := timestamp plan; description := description plan |}.

(** The plan with another amount. *)
Definition with_amount_of (plan : PaymentPlan) (value : Z) : PaymentPlan :=
  {| toAddress := toAddress plan; amount := value;
     timestamp := timestamp plan; description := description plan |}.

(** A prover with the circuit files in place whose proving oracle returns
    what the circuit computes, and one without the circuit files, at a
    given hour of the clock. *)
Definition honest_prover (hour : Z) : Env :=
  {| circuitFilesExist := true; currentHour := hour;
     fullProve := Scenarios.honest_fullProve |}.

Definition manual_prover (hour : Z) : Env :=
  {| circuitFilesExist := false; currentHour := hour; fullProve := fun _ => None |}.

(** Amounts and hours that fit the comparators of the circuit. *)
Definition plan_fits (hour : Z) (plan : PaymentPlan) (rules : UserRules) : Prop :=
  0 <= amount plan < 2 ^ 64 /\ 0 <= maxAmount rules < 2 ^ 64 /\
  0 <= hour < 2 ^ 8 /\
  0 <= fst (allowedHours rules) < 2 ^ 8 /\ 0 <= snd (allowedHours rules) < 2 ^ 8.

(** The public signals snarkjs reports for an assignment: the outputs in
    the order of declaration, in decimal. *)
Definition signals_of_output (o : Circuits.PaymentRulesOutput) : list string :=
  List.map Number_toString
    [Circuits.isValid o; Circuits.addressValid o;
     Circuits.amountValid o; Circuits.timeValid o].

End ProverRuns.

Section Contracts.
Import Ledger.


Definition alice : ZKPVerifier.Tx :=
  {| ZKPVerifier.msg_sender := 8; ZKPVerifier.block_timestamp := 1700000000 |}.

Definition bob : ZKPVerifier.Tx :=
  {| ZKPVerifier.msg_sender := 9; ZKPVerifier.block_timestamp := 1700000060 |}.

(** Two users who committed the same hash. *)
Definition two_owners : RuleCommitmentContract.State :=
  rule_run rules_deployed
    [(alice, CommitRules 77 "Payment Rules Commitment");
     (bob, CommitRules 77 "Payment Rules Commitment")].

(** A proof none of whose components is the zero pair. *)
Definition sound_proof : ZKPVerifier.Proof :=
  {| ZKPVerifier.a := (11, 12); ZKPVerifier.b := (21, 22); ZKPVerifier.c := (31, 32) |}.

(** A call that passes, one that replays its id with other data, and one
    with a signal at 0 under another id. *)
Definition passing_call : VerifyCall :=
  {| call_tx := alice; call_proofId := 5; call_zkProof := sound_proof;
     call_publicSignals := [1; 1; 1; 1]; call_ruleHash := 77;
     call_paymentAddress := 2; call_amount := 6000000 |}.

Definition replayed_call : VerifyCall :=
  {| call_tx := bob; call_proofId := 5; call_zkProof := sound_proof;
     call_publicSignals := [1; 1; 1; 1]; call_ruleHash := 78;
     call_paymentAddress := 3; call_amount := 9000000 |}.

Definition failing_call : VerifyCall :=
  {| call_tx := bob; call_proofId := 6; call_zkProof := sound_proof;
     call_publicSignals := [1; 1; 0; 1]; call_ruleHash := 78;
     call_paymentAddress := 3; call_amount := 9000000 |}.

End Contracts.

Section VerifierRuns.
Import OnChainZKPVerifier Ledger.

(** A proof object as snarkjs prints it: coordinates in decimal, with the
    third, projective, entries. *)
Definition snarkjs_proof (a0 a1 b00 b01 b10 b11 c0 c1 : Z) : JsValue :=
  JsObject
    [("pi_a", JsArray [JsString (Number_toString a0); JsString (Number_toString a1);
                       JsString "1"]);
     ("pi_b", JsArray [JsArray [JsString (Number_toString b00);
                                JsString (Number_toString b01)];
                       JsArray [JsString (Number_toString b10);
                                JsString (Number_toString b11)];
                       JsArray [JsString "1"; JsString "0"]]);
     ("pi_c", JsArray [JsString (Number_toString c0); JsString (Number_toString c1);
                       JsString "1"]);
     ("protocol", JsString "groth16");
     ("curve", JsString "bn128")].

(** A verifier with a contract configured and every remote call going
    through, whose encoder refuses the 2 by 2 [b] for the [uint256[2]]
    that the ABI declares, as viem's does. *)
Definition deployed_verifier : Env :=
  {| contractAddress := contractAddress Scenarios.configured_env;
     generateProofId := generateProofId Scenarios.configured_env;
     abi := {| encode_bytes32 := encode_bytes32 (abi Scenarios.configured_env);
               encode_address := encode_address (abi Scenarios.configured_env);
               encode_b := fun _ => None |};
     reachable := fun _ => true;
     tx := tx Scenarios.configured_env |}.

(** The ledger after a call under the proof id of that verifier has been
    recorded as verified. *)
Definition ledger_with_77 : ZKPVerifier.State :=
  verify_run verifier_deployed
    [{| call_tx := alice; call_proofId := 77; call_zkProof := sound_proof;
        call_publicSignals := [1; 1; 1; 1]; call_ruleHash := 77;
        call_paymentAddress := 2; call_amount := 6000000 |}].

End VerifierRuns.

Section Managers.
Import RuleCommitmentManager.


End Managers.

Section Payments.
Import USDCPaymentExecutor.

(** A node on which every call goes through, with a balance of 10 units
    of a 6-decimal token, that mines the transfer as reverted. *)
Definition reverted_receipt : Receipt :=
  {| receipt_status := receipt_reverted; blockNumber := 100; gasUsed := 21000 |}.

Definition reverting_token : Env :=
  {| balanceOf := Some 10000000;
     decimals := Some 6;
     balance_below := fun balance d amount => balance <? amount * 10 ^ d;
     getTransactionCount := true;
     simulateContract := fun _ _ => true;
     writeContract := fun _ _ => Some 4660;
     waitForTransactionReceipt := fun _ => Some reverted_receipt |}.

End Payments.

Section PipelineRuns.
Import PaymentSystem.

(** A run without the circuit files on an invoice the demo rules allow:
    6 to the first allowed destination, at a given hour. *)
Definition manual_env (hour : Z) : Env :=
  {| observer_ok := fun _ _ => true;
     db_ok := fun _ => true;
     toHex := fun s => s;
     keccak256 := fun s => s;
     commit_ok := true;
     parseInvoicePDF := fun _ => None;
     parseInvoiceText := fun _ => None;
     dummyInvoice :=
       {| companyName := "Power company";
          paymentAddress := "0xF2431b618B5b02923922c525885DBfFcdb9DE853";
          invoiceAmount := 6;
          invoiceNumber := "INV-1" |};
     createPaymentPlan := fun invoice _ =>
       Some {| toAddress := paymentAddress invoice;
               amount := invoiceAmount invoice;
               timestamp := 1700000000;
               description := invoiceNumber invoice |};
     prover := manual_prover hour;
     verifier := deployed_verifier;
     chain := Scenarios.empty_chain;
     executePayment := fun _ => true |}.

(** The same run when committing the rules on chain fails. *)
Definition failing_commit_env : Env :=
  {| observer_ok := observer_ok (manual_env 14);
     db_ok := db_ok (manual_env 14);
     toHex := toHex (manual_env 14);
     keccak256 := keccak256 (manual_env 14);
     commit_ok := false;
     parseInvoicePDF := parseInvoicePDF (manual_env 14);
     parseInvoiceText := parseInvoiceText (manual_env 14);
     dummyInvoice := dummyInvoice (manual_env 14);
     createPaymentPlan := createPaymentPlan (manual_env 14);
     prover := prover (manual_env 14);
     verifier := verifier (manual_env 14);
     chain := chain (manual_env 14);
     executePayment := executePayment (manual_env 14) |}.

End PipelineRuns.

End Examples.
Module PrimalityFacts.
Import Primality.

(** Every integer above 1 has a prime divisor. *)
Lemma prime_divisor_exists (n : Z) :
  1 < n -> exists r, Z.prime r /\ (r | n).
Proof.
  intros Hn.
  assert (H : forall k, 0 <= k -> forall m, 1 < m <= k ->
            exists r, Z.prime r /\ (r | m)).
  { clear. intros k Hk. pattern k. apply natlike_ind; [ intros; lia | | exact Hk ].
    intros x Hx IH m Hm.
    destruct (prime_dec m) as [Hp | Hnp].
    - exists m. split; [ now apply prime_alt | apply Z.divide_refl ].
    - destruct (not_prime_divide m) as (d & Hd & Hdiv); [ lia | exact Hnp | ].
      destruct (IH d) as (r & Hr & Hrd); [ lia | ].
      exists r. split; [ exact Hr | now apply Z.divide_trans with d ]. }
  apply (H n); lia.
Qed.

(** A composite number has a prime divisor below its square root. *)
Lemma small_prime_divisor (n : Z) :
  1 < n -> ~ Z.prime n -> exists r, Z.prime r /\ (r | n) /\ r * r <= n.
Proof.
  intros Hn Hnp.
  destruct (not_prime_divide n) as (d & Hd & (c & Hc)); [ lia | | ].
  { intros H. apply Hnp. now apply prime_alt. }
  assert (Hc1 : 1 < c) by nia.
  destruct (Z_le_gt_dec d c) as [Hle | Hgt].
  - destruct (prime_divisor_exists d) as (r & Hr & Hrd); [ lia | ].
    exists r. split; [ exact Hr | ]. split.
    + apply Z.divide_trans with d; [ exact Hrd | ]. exists c. lia.
    + pose proof (Z.prime_ge_2 _ Hr).
      assert (r <= d) by (apply Z.divide_pos_le; [ lia | exact Hrd ]).
      nia.
  - destruct (prime_divisor_exists c) as (r & Hr & Hrc); [ lia | ].
    exists r. split; [ exact Hr | ]. split.
    + apply Z.divide_trans with c; [ exact Hrc | ]. exists d. lia.
    + pose proof (Z.prime_ge_2 _ Hr).
      assert (r <= c) by (apply Z.divide_pos_le; [ lia | exact Hrc ]).
      nia.
Qed.

Lemma trial_division_sound (n : Z) : trial_division n = true -> Z.prime n.
Proof.
  unfold trial_division. intros H.
  apply andb_true_iff in H. destruct H as [H1 H2].
  apply Z.ltb_lt in H1.
  destruct (prime_dec n) as [Hp | Hnp]; [ now apply prime_alt | exfalso ].
  destruct (small_prime_divisor n) as (r & Hr & Hrn & Hrr); [ lia | | ].
  { intros H. apply Hnp. now apply prime_alt. }
  pose proof (Z.prime_ge_2 _ Hr) as Hr2.
  rewrite forallb_forall in H2.
  assert (Hsq : r <= Z.sqrt n).
  { apply Z.sqrt_le_square; lia. }
  specialize (H2 (Z.to_nat r)).
  rewrite Z2Nat.id in H2 by lia.
  rewrite (Z.mod0_divide n r Hrn) in H2.
  discriminate H2.
  apply in_seq. lia.
Qed.

(** Exponents for which a power is 1 modulo r are closed under gcd. *)
Lemma pow_one_mul (r a y k : Z) :
  1 < r -> 0 <= y -> 0 <= k -> a ^ y mod r = 1 -> a ^ (y * k) mod r = 1.
Proof.
  intros Hr Hy Hk H.
  rewrite Z.pow_mul_r by lia.
  rewrite <- Z.mod_pow_l, H, Z.pow_1_l by lia.
  apply Z.mod_1_l; lia.
Qed.

Lemma pow_one_gcd (r a : Z) : 1 < r ->
  forall y, 0 <= y -> forall x, 0 <= x ->
  a ^ x mod r = 1 -> a ^ y mod r = 1 -> a ^ Z.gcd x y mod r = 1.
Proof.
  intros Hr y Hy. pattern y. apply Zlt_0_ind; [ clear y Hy | exact Hy ].
  intros y IH Hy x Hx Hax Hay.
  destruct (Z.eq_dec y 0) as [-> | Hy0].
  - rewrite Z.gcd_0_r, Z.abs_eq by lia. exact Hax.
  - assert (Hm : 0 <= x mod y < y) by (apply Z.mod_pos_bound; lia).
    rewrite Z.gcd_comm, <- Z.gcd_mod_r.
    apply IH; try lia; try exact Hay.
    rewrite (Z.div_mod x y) in Hax at 1 by lia.
    rewrite Z.pow_add_r in Hax by (try lia; apply Z.mul_nonneg_nonneg; try lia; apply Z.div_pos; lia).
    rewrite <- Z.mul_mod_idemp_l in Hax by lia.
    rewrite pow_one_mul in Hax; try lia; try assumption.
    + rewrite Z.mul_1_l in Hax. exact Hax.
    + apply Z.div_pos; lia.
Qed.

(** Pocklington's criterion, one prime divisor r of n at a time: the part f
    of n - 1 whose prime factors all have a witness divides r - 1. *)
Lemma pocklington_divisor (n f r : Z) :
  1 < n -> 0 < f -> (f | n - 1) ->
  (forall q, Z.prime q -> (q | f) ->
     exists a, a ^ (n - 1) mod n = 1 /\
               Z.gcd (a ^ ((n - 1) / q) mod n - 1) n = 1) ->
  Z.prime r -> (r | n) -> (f | r - 1).
Proof.
  intros Hn Hf Hfn Hw Hr Hrn.
  pose proof (Z.prime_ge_2 _ Hr) as Hr2.
  set (d := Z.gcd (n - 1) (r - 1)).
  assert (Hd1 : (d | n - 1)) by apply Z.gcd_divide_l.
  assert (Hd2 : (d | r - 1)) by apply Z.gcd_divide_r.
  assert (Hdpos : 0 < d).
  { assert (0 <= d) by apply Z.gcd_nonneg.
    assert (d <> 0); [ | lia ].
    intros E. apply Z.gcd_eq_0_l in E. lia. }
  destruct Hd1 as (c & Hc).
  assert (Hcpos : 0 < c) by nia.
  (* no prime factor of f divides c *)
  assert (Hcop : Z.gcd f c = 1).
  { assert (Hg0 : 0 <= Z.gcd f c) by apply Z.gcd_nonneg.
    destruct (Z.eq_dec (Z.gcd f c) 1) as [E | NE]; [ exact E | exfalso ].
    assert (Hg1 : 1 < Z.gcd f c).
    { assert (Z.gcd f c <> 0); [ | lia ].
      intros E. apply Z.gcd_eq_0_l in E. lia. }
    destruct (prime_divisor_exists _ Hg1) as (q & Hq & Hqg).
    pose proof (Z.prime_ge_2 _ Hq) as Hq2.
    assert (Hqf : (q | f)).
    { apply Z.divide_trans with (Z.gcd f c); [ exact Hqg | apply Z.gcd_divide_l ]. }
    assert (Hqc : (q | c)).
    { apply Z.divide_trans with (Z.gcd f c); [ exact Hqg | apply Z.gcd_divide_r ]. }
    destruct (Hw q Hq Hqf) as (a & Ha1 & Ha2).
    assert (Har : a ^ (n - 1) mod r = 1).
    { rewrite <- (Z.mod_mod_divide _ n r Hrn), Ha1. apply Z.mod_1_l; lia. }
    assert (Hanz : a mod r <> 0).
    { intros E. rewrite <- Z.mod_pow_l, E, Z.pow_0_l, Z.mod_0_l in Har; lia. }
    assert (Hfl : a ^ (r - 1) mod r = 1) by (apply ZmodInv.Z.fermat_nz; assumption).
    assert (Had : a ^ d mod r = 1).
    { unfold d. apply pow_one_gcd; try lia; assumption. }
    destruct Hqc as (t & Ht).
    assert (Htpos : 0 < t) by nia.
    assert (Hdiv : (n - 1) / q = d * t).
    { rewrite Hc, Ht. replace (t * q * d) with (d * t * q) by ring.
      apply Z.div_mul; lia. }
    assert (Hone : a ^ ((n - 1) / q) mod r = 1).
    { rewrite Hdiv. apply pow_one_mul; try lia; assumption. }
    assert (Hrdiv : (r | a ^ ((n - 1) / q) mod n - 1)).
    { apply Z.mod_divide; [ lia | ].
      rewrite <- Zminus_mod_idemp_l, (Z.mod_mod_divide _ n r Hrn), Hone.
      reflexivity. }
    assert (Hr1 : (r | 1)).
    { rewrite <- Ha2. apply Z.gcd_greatest; assumption. }
    apply Z.divide_1_r_nonneg in Hr1; lia. }
  apply Z.divide_trans with d; [ | exact Hd2 ].
  apply Z.gauss with c; [ | exact Hcop ].
  rewrite <- Hc. exact Hfn.
Qed.

(** Pocklington's criterion. *)
Theorem pocklington (n f : Z) :
  1 < n -> 0 < f -> (f | n - 1) -> n <= f * f ->
  (forall q, Z.prime q -> (q | f) ->
     exists a, a ^ (n - 1) mod n = 1 /\
               Z.gcd (a ^ ((n - 1) / q) mod n - 1) n = 1) ->
  Z.prime n.
Proof.
  intros Hn Hf Hfn Hsq Hw.
  destruct (prime_dec n) as [Hp | Hnp]; [ now apply prime_alt | exfalso ].
  destruct (small_prime_divisor n) as (r & Hr & Hrn & Hrr); [ lia | | ].
  { intros H. apply Hnp. now apply prime_alt. }
  pose proof (Z.prime_ge_2 _ Hr) as Hr2.
  assert (Hfr : (f | r - 1)) by (apply (pocklington_divisor n f r); assumption).
  apply Z.divide_pos_le in Hfr; [ | lia ].
  nia.
Qed.

Lemma pow_mod_big_spec (a : BigZ.bigZ) (m : positive) (n : BigZ.bigZ) :
  BigZ.BigZ.to_Z n <> 0 ->
  BigZ.BigZ.to_Z (pow_mod_big a m n)
  = (BigZ.BigZ.to_Z a ^ Zpos m) mod BigZ.BigZ.to_Z n.
Proof.
  intros Hn. induction m as [ m IH | m IH | ]; simpl pow_mod_big.
  - rewrite BigZ.BigZ.spec_modulo, !BigZ.BigZ.spec_mul, IH.
    replace (Z.pos m~1) with (Z.pos m + Z.pos m + 1) by lia.
    rewrite !Z.pow_add_r, Z.pow_1_r by lia.
    rewrite <- (Z.mul_mod_idemp_l (_ mod _ * _)) by exact Hn.
    rewrite <- Z.mul_mod by exact Hn.
    rewrite Z.mul_mod_idemp_l by exact Hn. reflexivity.
  - rewrite BigZ.BigZ.spec_modulo, !BigZ.BigZ.spec_mul, IH.
    replace (Z.pos m~0) with (Z.pos m + Z.pos m) by lia.
    rewrite Z.pow_add_r by lia. symmetry. apply Z.mul_mod. exact Hn.
  - rewrite BigZ.BigZ.spec_modulo, Z.pow_1_r. reflexivity.
Qed.

Lemma pow_mod_correct (a e n : Z) :
  n <> 0 -> 0 <= e -> pow_mod a e n = a ^ e mod n.
Proof.
  intros Hn He. destruct e as [ | m | m ]; [ reflexivity | | lia ].
  unfold pow_mod. rewrite pow_mod_big_spec; rewrite !BigZ.BigZ.spec_of_Z; auto.
Qed.

Lemma cert_part_prime_divisor (c : list (Z * Z * Z)) (q : Z) :
  Forall (fun x => Z.prime (fst (fst x))) c ->
  Forall (fun x => 0 < snd (fst x)) c ->
  Z.prime q -> (q | cert_part c) -> exists e a, In (q, e, a) c.
Proof.
  intros Hp He Hq. induction c as [ | [[q' e'] a'] c IH ]; simpl.
  - intros H. apply Z.divide_1_r_nonneg in H; pose proof (Z.prime_ge_2 _ Hq); lia.
  - intros H.
    apply Forall_cons_iff in Hp. destruct Hp as [Hq' Hp].
    apply Forall_cons_iff in He. destruct He as [He' He]. simpl in *.
    apply Z.divide_prime_mul in H; [ | exact Hq ].
    destruct H as [H | H].
    + apply Z.divide_prime_pp in H; try assumption; try lia.
      subst q'. exists e', a'. now left.
    + destruct (IH Hp He H) as (e & a & Hin). exists e, a. now right.
Qed.

Lemma cert_part_pos (c : list (Z * Z * Z)) :
  Forall (fun x => Z.prime (fst (fst x))) c ->
  Forall (fun x => 0 < snd (fst x)) c -> 0 < cert_part c.
Proof.
  induction 1 as [ | [[q e] a] c Hq _ IH ]; simpl; [ lia | ].
  intros He. inversion He; subst. simpl in *.
  pose proof (Z.prime_ge_2 _ Hq).
  apply Z.mul_pos_pos; [ apply Z.pow_pos_nonneg; lia | now apply IH ].
Qed.

Theorem pocklington_check_sound (n : Z) (c : list (Z * Z * Z)) :
  Forall (fun x => Z.prime (fst (fst x))) c ->
  pocklington_check n c = true -> Z.prime n.
Proof.
  intros Hp H. unfold pocklington_check in H.
  repeat (apply andb_true_iff in H; destruct H as [H ?]).
  rename H into Hn, H0 into Hall, H1 into Hsq, H2 into Hdiv.
  apply Z.ltb_lt in Hn. apply Z.leb_le in Hsq. apply Z.eqb_eq in Hdiv.
  rewrite forallb_forall in Hall.
  assert (He : Forall (fun x => 0 < snd (fst x)) c).
  { apply List.Forall_forall. intros [[q e] a] Hin. specialize (Hall _ Hin).
    unfold cert_entry_ok in Hall.
    repeat (apply andb_true_iff in Hall; destruct Hall as [Hall ?]).
    simpl. now apply Z.ltb_lt. }
  pose proof (cert_part_pos c Hp He) as Hf.
  apply (pocklington n (cert_part c)); try assumption.
  - apply Z.mod_divide; [ lia | exact Hdiv ].
  - intros q Hq Hqf.
    destruct (cert_part_prime_divisor c q Hp He Hq Hqf) as (e & a & Hin).
    specialize (Hall _ Hin). unfold cert_entry_ok in Hall.
    repeat (apply andb_true_iff in Hall; destruct Hall as [Hall ?]).
    pose proof (Z.prime_ge_2 _ Hq).
    assert (0 <= (n - 1) / q) by (apply Z.div_pos; lia).
    exists a. rewrite !pow_mod_correct in * by lia.
    split; now apply Z.eqb_eq.
Qed.

(** Certificates for the primes on the way to the BN254 scalar field order. *)
Ltac by_trial := apply trial_division_sound; vm_compute; reflexivity.
Ltac by_cert c :=
  apply (pocklington_check_sound _ c);
  [ repeat (apply List.Forall_cons; [ simpl; assumption | ]); apply List.Forall_nil
  | vm_compute; reflexivity ].

Lemma prime_5 : Z.prime 5. Proof. by_trial. Qed.
Lemma prime_7 : Z.prime 7. Proof. by_trial. Qed.
Lemma prime_11 : Z.prime 11. Proof. by_trial. Qed.
Lemma prime_13 : Z.prime 13. Proof. by_trial. Qed.
Lemma prime_29 : Z.prime 29. Proof. by_trial. Qed.
Lemma prime_107 : Z.prime 107. Proof. by_trial. Qed.
Lemma prime_661 : Z.prime 661. Proof. by_trial. Qed.
Lemma prime_983 : Z.prime 983. Proof. by_trial. Qed.
Lemma prime_3691 : Z.prime 3691. Proof. by_trial. Qed.
Lemma prime_11003 : Z.prime 11003. Proof. by_trial. Qed.
Lemma prime_237073 : Z.prime 237073. Proof. by_trial. Qed.

Lemma prime_405928799 : Z.prime 405928799.
Proof.
  pose proof Z.prime_2. pose proof prime_11. pose proof prime_3691.
  by_cert [(2, 1, 11); (11, 1, 2); (3691, 1, 2)].
Qed.

Lemma prime_12048837557 : Z.prime 12048837557.
Proof.
  pose proof Z.prime_2. pose proof prime_7. pose proof prime_661.
  by_cert [(2, 2, 2); (7, 2, 2); (661, 1, 2)].
Qed.

Lemma prime_5156902474397 : Z.prime 5156902474397.
Proof.
  pose proof Z.prime_2. pose proof prime_107. pose proof prime_12048837557.
  by_cert [(2, 2, 2); (107, 1, 2); (12048837557, 1, 2)].
Qed.

Lemma prime_1670836401704629 : Z.prime 1670836401704629.
Proof.
  pose proof Z.prime_2. pose proof Z.prime_3. pose proof prime_5156902474397.
  by_cert [(2, 2, 2); (3, 4, 2); (5156902474397, 1, 2)].
Qed.

Theorem bn254_r_prime : Z.prime bn254_r.
Proof.
  pose proof Z.prime_2. pose proof Z.prime_3. pose proof prime_13.
  pose proof prime_29. pose proof prime_983. pose proof prime_11003.
  pose proof prime_237073. pose proof prime_405928799.
  pose proof prime_1670836401704629.
  by_cert [(2, 28, 5); (3, 2, 3); (13, 1, 5); (29, 1, 2); (983, 1, 2);
           (11003, 1, 2); (237073, 1, 2); (405928799, 1, 2);
           (1670836401704629, 1, 2)].
Qed.

End PrimalityFacts.

Module FieldFacts.
Import Field.

Lemma p_prime : Z.prime p.
Proof. exact PrimalityFacts.bn254_r_prime. Qed.

Lemma p_big : 2 ^ 253 < p.
Proof. reflexivity. Qed.

Lemma p_pos : 0 < p.
Proof. reflexivity. Qed.

Lemma p_nz : p <> 0.
Proof. pose proof p_pos. lia. Qed.

Lemma is_signal_mod (x : Z) : is_signal (x mod p).
Proof. apply Z.mod_pos_bound, p_pos. Qed.

Lemma signal_mod_id (x : Z) : is_signal x -> x mod p = x.
Proof. intros H. apply Z.mod_small. exact H. Qed.

(** The field has no zero divisors. *)
Lemma fmul_zero (a b : Z) :
  is_signal a -> is_signal b -> (a * b) mod p = 0 -> a = 0 \/ b = 0.
Proof.
  intros Ha Hb H.
  apply Z.mod_divide in H; [ | exact p_nz ].
  apply Z.divide_prime_mul in H; [ | exact p_prime ].
  destruct H as [H | H]; [ left | right ];
    apply Z.mod0_divide in H; rewrite signal_mod_id in H; assumption.
Qed.

Lemma finv_correct (a : Z) : is_signal a -> a <> 0 -> (a * finv a) mod p = 1.
Proof.
  intros Ha Hnz. unfold finv. rewrite Z.mul_comm.
  apply Z.invmod_prime; [ exact p_prime | ].
  rewrite signal_mod_id; assumption.
Qed.

End FieldFacts.

(** * What the circomlib templates enforce and compute *)
Module CircomlibFacts.
Import Field FieldFacts Circomlib Bits Protocol VerifierSpec Scenarios.

Lemma one_signal : is_signal 1.
Proof. unfold is_signal. pose proof p_big. lia. Qed.

Lemma zero_signal : is_signal 0.
Proof. unfold is_signal. pose proof p_pos. lia. Qed.

Lemma is_bit_signal (b : Z) : is_bit b -> is_signal b.
Proof. intros [-> | ->]; [ apply zero_signal | apply one_signal ]. Qed.

Lemma b2z_bit (b : bool) : is_bit (Z.b2z b).
Proof. destruct b; [ right | left ]; reflexivity. Qed.

(** ** Gates *)

Lemma AND_w_sat (a b : Z) : AND_sat a b (AND_w a b).
Proof. reflexivity. Qed.

Lemma OR_w_sat (a b : Z) : OR_sat a b (OR_w a b).
Proof. reflexivity. Qed.

Lemma AND_sound (x y : bool) (out : Z) :
  AND_sat (Z.b2z x) (Z.b2z y) out -> out = Z.b2z (x && y).
Proof. intros ->. destruct x, y; reflexivity. Qed.

Lemma OR_sound (x y : bool) (out : Z) :
  OR_sat (Z.b2z x) (Z.b2z y) out -> out = Z.b2z (x || y).
Proof. intros ->. destruct x, y; reflexivity. Qed.

(** ** IsZero and IsEqual *)

Lemma IsZero_sound (i out : Z) :
  is_signal i -> IsZero_sat i out -> out = Z.b2z (i =? 0).
Proof.
  intros Hi (inv & Hinv & Hout & Hmul).
  destruct (Z.eqb_spec i 0) as [-> | Hnz]; simpl.
  - rewrite Hout. reflexivity.
  - assert (Ho : is_signal out) by (rewrite Hout; apply is_signal_mod).
    destruct (fmul_zero i out Hi Ho Hmul) as [E | E]; [ contradiction | exact E ].
Qed.

Lemma IsZero_w_sat (i : Z) : is_signal i -> IsZero_sat i (IsZero_w i).
Proof.
  intros Hi. exists (IsZero_inv i). unfold IsZero_w, IsZero_inv.
  destruct (Z.eqb_spec i 0) as [-> | Hnz].
  - split; [ apply zero_signal | split; reflexivity ].
  - split; [ | split; [ reflexivity | ] ].
    + unfold finv. rewrite <- Z.mod_invmod. apply is_signal_mod.
    + replace (- i * finv i + 1) with (1 - i * finv i) by ring.
      rewrite <- Zminus_mod_idemp_r, finv_correct by assumption.
      replace ((1 - 1) mod p) with 0 by reflexivity.
      rewrite Z.mul_0_r. reflexivity.
Qed.

Lemma IsEqual_sound (a b out : Z) :
  is_signal a -> is_signal b -> IsEqual_sat a b out -> out = Z.b2z (a =? b).
Proof.
  intros Ha Hb H. unfold IsEqual_sat in H.
  apply IsZero_sound in H; [ | apply is_signal_mod ].
  rewrite H. f_equal. unfold fsub, is_signal in *.
  destruct (Z.eqb_spec a b) as [-> | Hne].
  - rewrite Z.sub_diag. reflexivity.
  - apply Z.eqb_neq. intros E.
    destruct (Z_le_gt_dec a b).
    + rewrite Z.mod_small in E by lia. lia.
    + rewrite <- (Z.mod_add _ 1), Z.mod_small in E by lia. lia.
Qed.

Lemma IsEqual_w_sat (a b : Z) : IsEqual_sat a b (IsEqual_w a b).
Proof. apply IsZero_w_sat, is_signal_mod. Qed.

(** ** Num2Bits *)

Lemma bit_constraint (b : Z) :
  is_signal b -> (b * (b - 1)) mod p = 0 -> is_bit b.
Proof.
  intros Hb H. destruct (Z.eq_dec b 0) as [-> | Hnz]; [ now left | right ].
  assert (Hb1 : is_signal (b - 1)) by (unfold is_signal in *; lia).
  destruct (fmul_zero b (b - 1) Hb Hb1 H); lia.
Qed.

Lemma lc1_app (l1 l2 : list Z) :
  lc1 (l1 ++ l2) = lc1 l1 + 2 ^ Z.of_nat (length l1) * lc1 l2.
Proof.
  induction l1 as [ | b l1 IH ]; simpl lc1; simpl length.
  - simpl. lia.
  - rewrite IH, Nat2Z.inj_succ, Z.pow_succ_r by lia. ring.
Qed.

Lemma lc1_bound (l : list Z) :
  List.Forall is_bit l -> 0 <= lc1 l < 2 ^ Z.of_nat (length l).
Proof.
  induction 1 as [ | b l Hb _ IH ]; simpl lc1; simpl length.
  - simpl. lia.
  - rewrite Nat2Z.inj_succ, Z.pow_succ_r by lia.
    destruct Hb as [-> | ->]; lia.
Qed.

Lemma Num2Bits_sound (n : nat) (i : Z) (out : list Z) :
  (n <= 253)%nat -> is_signal i -> Num2Bits_sat n i out ->
  List.Forall is_bit out /\ lc1 out = i.
Proof.
  intros Hn Hi (Hlen & Hbits & Hlc).
  assert (Hb : List.Forall is_bit out).
  { eapply List.Forall_impl; [ | exact Hbits ].
    intros b [H1 H2]. now apply bit_constraint. }
  split; [ exact Hb | ].
  pose proof (lc1_bound out Hb) as Hrange. rewrite Hlen in Hrange.
  assert (2 ^ Z.of_nat n <= 2 ^ 253) by (apply Z.pow_le_mono_r; lia).
  pose proof p_big.
  rewrite (signal_mod_id i Hi) in Hlc.
  rewrite Z.mod_small in Hlc by lia. exact Hlc.
Qed.

Lemma Num2Bits_w_cons (n : nat) (i : Z) :
  0 <= i -> Num2Bits_w (S n) i = i mod 2 :: Num2Bits_w n (i / 2).
Proof.
  intros Hi. unfold Num2Bits_w. rewrite <- cons_seq. simpl map. f_equal.
  - rewrite Z.shiftr_0_r. apply (Z.land_ones i 1). lia.
  - rewrite <- seq_shift, map_map. apply map_ext. intros k.
    rewrite Nat2Z.inj_succ, <- Z.add_1_l.
    rewrite <- Z.shiftr_shiftr by lia.
    rewrite Z.shiftr_div_pow2 with (n := 1) by lia. reflexivity.
Qed.

Lemma Num2Bits_w_bits (n : nat) (i : Z) :
  0 <= i -> List.Forall is_bit (Num2Bits_w n i).
Proof.
  revert i. induction n as [ | n IH ]; intros i Hi.
  - constructor.
  - rewrite Num2Bits_w_cons by exact Hi. constructor.
    + pose proof (Z.mod_pos_bound i 2). unfold is_bit. lia.
    + apply IH. apply Z.div_pos; lia.
Qed.

Lemma Num2Bits_w_lc1 (n : nat) (i : Z) :
  0 <= i -> lc1 (Num2Bits_w n i) = i mod 2 ^ Z.of_nat n.
Proof.
  revert i. induction n as [ | n IH ]; intros i Hi.
  - simpl. now rewrite Z.mod_1_r.
  - rewrite Num2Bits_w_cons by exact Hi. simpl lc1.
    rewrite IH by (apply Z.div_pos; lia).
    rewrite Nat2Z.inj_succ, Z.pow_succ_r by lia.
    rewrite Z.rem_mul_r by lia. ring.
Qed.

Lemma Num2Bits_w_length (n : nat) (i : Z) : length (Num2Bits_w n i) = n.
Proof. unfold Num2Bits_w. now rewrite length_map, length_seq. Qed.

Lemma Num2Bits_w_sat (n : nat) (i : Z) :
  0 <= i < 2 ^ Z.of_nat n -> Num2Bits_sat n i (Num2Bits_w n i).
Proof.
  intros Hi. split; [ apply Num2Bits_w_length | split ].
  - eapply List.Forall_impl; [ | apply Num2Bits_w_bits; lia ].
    intros b Hb. split; [ now apply is_bit_signal | ].
    destruct Hb as [-> | ->]; reflexivity.
  - rewrite Num2Bits_w_lc1 by lia.
    rewrite (Z.mod_small i (2 ^ Z.of_nat n)) by lia. reflexivity.
Qed.

(** ** Comparators *)

(** The top bit of an (n+1)-bit decomposition. *)
Lemma top_bit (n : nat) (bits : list Z) (v : Z) :
  length bits = S n -> List.Forall is_bit bits -> lc1 bits = v ->
  nth n bits 0 = Z.b2z (2 ^ Z.of_nat n <=? v).
Proof.
  intros Hlen Hb Hv.
  destruct (exists_last (l := bits)) as (lo & hi & E).
  { intros ->. discriminate Hlen. }
  subst bits. rewrite length_app in Hlen. simpl in Hlen.
  assert (Hlo : length lo = n) by lia.
  apply Forall_app in Hb. destruct Hb as [Hblo Hbhi].
  rewrite app_nth2, Hlo, Nat.sub_diag by lia. simpl nth.
  rewrite lc1_app, Hlo in Hv. simpl lc1 in Hv.
  pose proof (lc1_bound lo Hblo) as Hrange. rewrite Hlo in Hrange.
  apply Forall_inv in Hbhi.
  destruct Hbhi as [-> | ->]; destruct (Z.leb_spec (2 ^ Z.of_nat n) v); simpl; lia.
Qed.

Lemma shiftl_1 (n : nat) : Z.shiftl 1 (Z.of_nat n) = 2 ^ Z.of_nat n.
Proof. rewrite Z.shiftl_1_l. reflexivity. Qed.

Lemma LessThan_sound (n : nat) (a b out : Z) :
  (n <= 252)%nat -> 0 <= a < 2 ^ Z.of_nat n -> 0 <= b <= 2 ^ Z.of_nat n ->
  LessThan_sat n a b out -> out = Z.b2z (a <? b).
Proof.
  intros Hn Ha Hb (bits & Hsat & Hout).
  rewrite shiftl_1 in Hsat.
  assert (Hpow : 2 ^ Z.of_nat n <= 2 ^ 252) by (apply Z.pow_le_mono_r; lia).
  pose proof p_big as Hp.
  assert (Hv : 0 <= a + 2 ^ Z.of_nat n - b < p) by lia.
  rewrite (Z.mod_small _ _ Hv) in Hsat.
  pose proof Hsat as (Hlen & _ & _).
  apply Num2Bits_sound in Hsat; [ | lia | exact Hv ].
  destruct Hsat as [Hbits Hlc].
  rewrite (top_bit n bits _ Hlen Hbits Hlc) in Hout.
  rewrite Hout.
  destruct (Z.leb_spec (2 ^ Z.of_nat n) (a + 2 ^ Z.of_nat n - b));
    destruct (Z.ltb_spec a b); try lia; reflexivity.
Qed.

Lemma LessThan_w_sat (n : nat) (a b : Z) :
  (n <= 252)%nat -> 0 <= a < 2 ^ Z.of_nat n -> 0 <= b <= 2 ^ Z.of_nat n ->
  LessThan_sat n a b (LessThan_w n a b).
Proof.
  intros Hn Ha Hb. unfold LessThan_sat, LessThan_w.
  eexists. split; [ | reflexivity ].
  rewrite shiftl_1.
  assert (Hpow : 2 ^ Z.of_nat n <= 2 ^ 252) by (apply Z.pow_le_mono_r; lia).
  pose proof p_big as Hp.
  rewrite Z.mod_small by lia.
  apply Num2Bits_w_sat. rewrite Nat2Z.inj_succ, Z.pow_succ_r by lia. lia.
Qed.

(** What [lt.out === 1] enforces, when only the first input is known to
    fit the width. *)
Lemma LessThan_sat_one (n : nat) (a b : Z) :
  (n <= 252)%nat -> 0 <= a < 2 ^ Z.of_nat n -> is_signal b ->
  LessThan_sat n a b 1 -> a < b <= a + 2 ^ Z.of_nat n.
Proof.
  intros Hn Ha Hb (bits & Hsat & Hout).
  rewrite shiftl_1 in Hsat.
  assert (Hpow : 2 ^ Z.of_nat n <= 2 ^ 252) by (apply Z.pow_le_mono_r; lia).
  pose proof p_big as Hp. unfold is_signal in Hb.
  pose proof (is_signal_mod (a + 2 ^ Z.of_nat n - b)) as Hv.
  pose proof Hsat as (Hlen & _ & _).
  apply Num2Bits_sound in Hsat; [ | lia | exact Hv ].
  destruct Hsat as [Hbits Hlc].
  rewrite (top_bit n bits _ Hlen Hbits Hlc) in Hout.
  destruct (Z.leb_spec (2 ^ Z.of_nat n)
                       ((a + 2 ^ Z.of_nat n - b) mod p)) as [Hge | Hlt];
    [ discriminate Hout | clear Hout ].
  destruct (Z_le_gt_dec 0 (a + 2 ^ Z.of_nat n - b)) as [Hpos | Hneg].
  - rewrite Z.mod_small in Hlt by lia. lia.
  - rewrite <- (Z.mod_add _ 1), Z.mod_small in Hlt by lia. lia.
Qed.

Lemma GreaterEqThan_zero_sat_one (n : nat) (r : Z) :
  (n <= 252)%nat -> is_signal r ->
  GreaterEqThan_sat n r 0 1 -> 0 <= r < 2 ^ Z.of_nat n.
Proof.
  intros Hn Hr H. unfold GreaterEqThan_sat in H.
  assert (Hpow : 0 < 2 ^ Z.of_nat n) by (apply Z.pow_pos_nonneg; lia).
  apply LessThan_sat_one in H; [ | exact Hn | lia | apply is_signal_mod ].
  unfold fadd, is_signal in *.
  destruct (Z.eq_dec (r + 1) p) as [E | NE].
  - rewrite E, Z.mod_same in H by lia. lia.
  - rewrite Z.mod_small in H by lia. lia.
Qed.

Lemma LessEqThan_sound (n : nat) (a b out : Z) :
  (n <= 252)%nat -> 0 <= a < 2 ^ Z.of_nat n -> 0 <= b < 2 ^ Z.of_nat n ->
  LessEqThan_sat n a b out -> out = Z.b2z (a <=? b).
Proof.
  intros Hn Ha Hb H. unfold LessEqThan_sat, fadd in H.
  assert (Hpow : 2 ^ Z.of_nat n <= 2 ^ 252) by (apply Z.pow_le_mono_r; lia).
  pose proof p_big as Hp.
  rewrite Z.mod_small in H by lia.
  apply LessThan_sound in H; try lia.
  rewrite H. destruct (Z.ltb_spec a (b + 1)); destruct (Z.leb_spec a b); try lia; reflexivity.
Qed.

Lemma LessEqThan_w_sat (n : nat) (a b : Z) :
  (n <= 252)%nat -> 0 <= a < 2 ^ Z.of_nat n -> 0 <= b < 2 ^ Z.of_nat n ->
  LessEqThan_sat n a b (LessEqThan_w n a b).
Proof.
  intros Hn Ha Hb. unfold LessEqThan_sat, LessEqThan_w, fadd.
  assert (Hpow : 2 ^ Z.of_nat n <= 2 ^ 252) by (apply Z.pow_le_mono_r; lia).
  pose proof p_big as Hp.
  rewrite Z.mod_small by lia.
  apply LessThan_w_sat; lia.
Qed.

Lemma GreaterEqThan_sound (n : nat) (a b out : Z) :
  (n <= 252)%nat -> 0 <= a < 2 ^ Z.of_nat n -> 0 <= b < 2 ^ Z.of_nat n ->
  GreaterEqThan_sat n a b out -> out = Z.b2z (b <=? a).
Proof.
  intros Hn Ha Hb H. unfold GreaterEqThan_sat, fadd in H.
  assert (Hpow : 2 ^ Z.of_nat n <= 2 ^ 252) by (apply Z.pow_le_mono_r; lia).
  pose proof p_big as Hp.
  rewrite Z.mod_small in H by lia.
  apply LessThan_sound in H; try lia.
  rewrite H. destruct (Z.ltb_spec b (a + 1)); destruct (Z.leb_spec b a); try lia; reflexivity.
Qed.

Lemma GreaterEqThan_w_sat (n : nat) (a b : Z) :
  (n <= 252)%nat -> 0 <= a < 2 ^ Z.of_nat n -> 0 <= b < 2 ^ Z.of_nat n ->
  GreaterEqThan_sat n a b (GreaterEqThan_w n a b).
Proof.
  intros Hn Ha Hb. unfold GreaterEqThan_sat, GreaterEqThan_w, fadd.
  assert (Hpow : 2 ^ Z.of_nat n <= 2 ^ 252) by (apply Z.pow_le_mono_r; lia).
  pose proof p_big as Hp.
  rewrite Z.mod_small by lia.
  apply LessThan_w_sat; lia.
Qed.

End CircomlibFacts.

(** * JavaScript built-ins *)
Module JsFacts.
Import Js Digits.

(** ** [parseInt(n.toString())] is [n] on integers *)

Lemma digit_value_digit_char (d : Z) :
  0 <= d < 10 -> digit_value (digit_char d) = Some d.
Proof.
  intros Hd.
  assert (H : d = 0 \/ d = 1 \/ d = 2 \/ d = 3 \/ d = 4 \/ d = 5 \/ d = 6 \/
              d = 7 \/ d = 8 \/ d = 9) by lia.
  repeat (destruct H as [-> | H]; [ reflexivity | ]). subst d. reflexivity.
Qed.

Lemma digit_char_plain (d : Z) :
  0 <= d < 10 ->
  is_whitespace (digit_char d) = false /\
  is_char (digit_char d) [45%N] = false /\
  is_char (digit_char d) [43%N] = false /\
  is_char (digit_char d) [120%N; 88%N] = false.
Proof.
  intros Hd.
  assert (H : d = 0 \/ d = 1 \/ d = 2 \/ d = 3 \/ d = 4 \/ d = 5 \/ d = 6 \/
              d = 7 \/ d = 8 \/ d = 9) by lia.
  repeat (destruct H as [-> | H]; [ repeat split | ]). subst d. repeat split.
Qed.

Lemma reads_cons (d : Z) (s : string) (acc v : Z) :
  0 <= d < 10 -> reads s (acc * 10 + d) v -> reads (String (digit_char d) s) acc v.
Proof.
  intros Hd (ds & Hp & Hv). exists (d :: ds). simpl.
  rewrite digit_value_digit_char by exact Hd.
  destruct (Z.ltb_spec d 10) as [_ | Hge]; [ | lia ].
  rewrite Hp. split; [ reflexivity | exact Hv ].
Qed.

Lemma decimal_digits_reads (fuel : nat) :
  forall (n : Z) (tail : string) (v : Z),
    0 <= n < 2 ^ Z.of_nat fuel -> reads tail n v ->
    reads (decimal_digits fuel n tail) 0 v.
Proof.
  induction fuel as [ | fuel IH ]; intros n tail v Hn Htail.
  - simpl in *. assert (n = 0) by lia. subst n. exact Htail.
  - simpl decimal_digits. rewrite Nat2Z.inj_succ, Z.pow_succ_r in Hn by lia.
    destruct (Z.ltb_spec n 10) as [Hlt | Hge].
    + apply reads_cons; [ lia | exact Htail ].
    + apply IH.
      * split; [ apply Z.div_pos; lia | ].
        apply Z.div_lt_upper_bound; lia.
      * pose proof (Z.mod_pos_bound n 10 ltac:(lia)).
        apply reads_cons; [ lia | ].
        replace (n / 10 * 10 + n mod 10) with n; [ exact Htail | ].
        rewrite (Z.div_mod n 10) at 1 by lia. ring.
Qed.

Lemma decimal_digits_head (fuel : nat) :
  forall (n : Z) (tail : string),
    0 <= n -> digit_headed tail ->
    exists d rest, 0 <= d < 10 /\
      decimal_digits (S fuel) n tail = String (digit_char d) rest /\
      digit_headed rest.
Proof.
  induction fuel as [ | fuel IH ]; intros n tail Hn Htail; simpl decimal_digits.
  - destruct (Z.ltb_spec n 10) as [Hlt | Hge].
    + exists n, tail. auto.
    + pose proof (Z.mod_pos_bound n 10 ltac:(lia)).
      exists (n mod 10), tail. auto.
  - destruct (Z.ltb_spec n 10) as [Hlt | Hge].
    + exists n, tail. auto.
    + pose proof (Z.mod_pos_bound n 10 ltac:(lia)).
      apply (IH (n / 10)); [ apply Z.div_pos; lia | ].
      right. exists (n mod 10), tail. auto.
Qed.

Lemma log2_fuel (n : Z) : 0 <= n -> 0 <= n < 2 ^ Z.of_nat (S (Z.to_nat (Z.log2 n))).
Proof.
  intros Hn. split; [ exact Hn | ].
  rewrite Nat2Z.inj_succ, Z2Nat.id by apply Z.log2_nonneg.
  destruct (Z.eq_dec n 0) as [-> | Hnz]; [ reflexivity | ].
  apply Z.log2_spec. lia.
Qed.

(** [parseInt] on a string of decimal digits that starts with one. *)
Lemma parseInt_digits (d : Z) (rest : string) (v : Z) :
  0 <= d < 10 -> digit_headed rest -> reads (String (digit_char d) rest) 0 v ->
  parseInt (String (digit_char d) rest) = Some v /\
  parseInt (String "-"%char (String (digit_char d) rest)) = Some (- v).
Proof.
  intros Hd Hrest (ds & Hp & Hv).
  destruct (digit_char_plain d Hd) as (Hw & Hminus & Hplus & _).
  assert (Hradix :
    match String (digit_char d) rest with
    | String c0 (String c1 r) =>
        if is_char c0 [48%N] && is_char c1 [120%N; 88%N]
        then (16, r) else (10, String (digit_char d) rest)
    | _ => (10, String (digit_char d) rest)
    end = (10, String (digit_char d) rest)).
  { destruct Hrest as [-> | (d' & r & Hd' & ->)]; [ reflexivity | ].
    destruct (digit_char_plain d' Hd') as (_ & _ & _ & Hx).
    rewrite Hx, andb_false_r. reflexivity. }
  assert (Hds : ds <> []).
  { intros ->. simpl in Hp. rewrite digit_value_digit_char in Hp by exact Hd.
    destruct (Z.ltb_spec d 10); [ | lia ].
    destruct (digits_prefix 10 rest). discriminate Hp. }
  split.
  - unfold parseInt. simpl trim_start. rewrite Hw, Hminus, Hplus.
    rewrite Hradix, Hp.
    destruct ds as [ | d0 ds ]; [ congruence | ].
    unfold digits_value. now rewrite Hv.
  - unfold parseInt. simpl trim_start.
    change (is_whitespace "-") with false. cbv iota.
    change (is_char "-" [45%N]) with true. cbv iota.
    rewrite Hradix, Hp.
    destruct ds as [ | d0 ds ]; [ congruence | ].
    unfold digits_value. now rewrite Hv.
Qed.

Lemma reads_nil (n : Z) : reads EmptyString n n.
Proof. exists []. split; reflexivity. Qed.

Theorem parseInt_Number_toString (n : Z) : parseInt (Number_toString n) = Some n.
Proof.
  unfold Number_toString.
  destruct (Z.ltb_spec n 0) as [Hneg | Hpos].
  - assert (Hm : 0 <= - n) by lia.
    destruct (decimal_digits_head (Z.to_nat (Z.log2 (- n))) (- n) EmptyString Hm)
      as (d & rest & Hd & E & Hrest); [ now left | ].
    pose proof (decimal_digits_reads _ (- n) EmptyString (- n)
                  (log2_fuel _ Hm) (reads_nil _)) as Hr.
    rewrite E in *.
    destruct (parseInt_digits d rest (- n) Hd Hrest Hr) as [_ H].
    rewrite H. f_equal. lia.
  - destruct (decimal_digits_head (Z.to_nat (Z.log2 n)) n EmptyString Hpos)
      as (d & rest & Hd & E & Hrest); [ now left | ].
    pose proof (decimal_digits_reads _ n EmptyString n
                  (log2_fuel _ Hpos) (reads_nil _)) as Hr.
    rewrite E in *.
    now destruct (parseInt_digits d rest n Hd Hrest Hr) as [H _].
Qed.

End JsFacts.

(** * The rule-validation circuit *)
Module CircuitsFacts.
Import Field FieldFacts Circomlib CircomlibFacts Circuits Bits Protocol VerifierSpec Scenarios.

Lemma AddressWhitelistCheck_sound (t a1 a2 a3 out : Z) :
  is_signal t -> is_signal a1 -> is_signal a2 -> is_signal a3 ->
  AddressWhitelistCheck_sat t a1 a2 a3 out ->
  out = Z.b2z ((t =? a1) || (t =? a2) || (t =? a3)).
Proof.
  intros Ht H1 H2 H3 (eq1 & eq2 & eq3 & or1 & E1 & E2 & E3 & O1 & O2).
  apply IsEqual_sound in E1, E2, E3; try assumption. subst eq1 eq2 eq3.
  apply OR_sound in O1. subst or1.
  apply OR_sound in O2. exact O2.
Qed.

Lemma AddressWhitelistCheck_w_sat (t a1 a2 a3 : Z) :
  AddressWhitelistCheck_sat t a1 a2 a3 (AddressWhitelistCheck_w t a1 a2 a3).
Proof.
  unfold AddressWhitelistCheck_sat, AddressWhitelistCheck_w.
  do 4 eexists. repeat split; try apply IsEqual_w_sat; apply OR_w_sat.
Qed.

Lemma TimeConstraintCheck_sound (ts lo hi out : Z) :
  0 <= ts < 2 ^ 8 -> 0 <= lo < 2 ^ 8 -> 0 <= hi < 2 ^ 8 ->
  TimeConstraintCheck_sat ts lo hi out ->
  out = Z.b2z ((lo <=? ts) && (ts <=? hi)).
Proof.
  intros Hts Hlo Hhi (geq & leq & G & L & A).
  apply GreaterEqThan_sound in G; [ | lia | exact Hts | exact Hlo ].
  apply LessEqThan_sound in L; [ | lia | exact Hts | exact Hhi ].
  subst geq leq. apply AND_sound in A. exact A.
Qed.

Lemma TimeConstraintCheck_w_sat (ts lo hi : Z) :
  0 <= ts < 2 ^ 8 -> 0 <= lo < 2 ^ 8 -> 0 <= hi < 2 ^ 8 ->
  TimeConstraintCheck_sat ts lo hi (TimeConstraintCheck_w ts lo hi).
Proof.
  intros Hts Hlo Hhi. unfold TimeConstraintCheck_sat, TimeConstraintCheck_w.
  do 2 eexists. split; [ | split; [ | apply AND_w_sat ] ].
  - apply GreaterEqThan_w_sat; [ lia | exact Hts | exact Hlo ].
  - apply LessEqThan_w_sat; [ lia | exact Hts | exact Hhi ].
Qed.

Lemma PaymentRules_w_sat (i : PaymentRulesInput) :
  in_widths i -> PaymentRules_sat i (PaymentRules_w i).
Proof.
  intros (_ & _ & _ & _ & Ham & Hmax & Hts & Hlo & Hhi).
  unfold PaymentRules_sat, PaymentRules_w. simpl.
  do 5 eexists.
  split; [ apply AddressWhitelistCheck_w_sat | ].
  split; [ apply LessEqThan_w_sat; [ lia | exact Ham | exact Hmax ] | ].
  split; [ apply TimeConstraintCheck_w_sat; assumption | ].
  repeat split; apply AND_w_sat.
Qed.

Lemma PaymentRules_sound (i : PaymentRulesInput) (o : PaymentRulesOutput) :
  in_widths i -> PaymentRules_sat i o ->
  addressValid o = Z.b2z (address_ok i) /\
  amountValid o = Z.b2z (amount_ok i) /\
  timeValid o = Z.b2z (time_ok i) /\
  isValid o = Z.b2z (address_ok i && amount_ok i && time_ok i).
Proof.
  intros (Hpa & Ha1 & Ha2 & Ha3 & Ham & Hmax & Hts & Hlo & Hhi).
  intros (ac & mc & tc & ag & fa & Hac & Hmc & Htc & Hag & Hfa & Eo & Ea & Em & Et).
  apply AddressWhitelistCheck_sound in Hac; try assumption.
  apply LessEqThan_sound in Hmc; [ | lia | exact Ham | exact Hmax ].
  apply TimeConstraintCheck_sound in Htc; try assumption.
  subst ac mc tc.
  apply AND_sound in Hag. subst ag.
  apply AND_sound in Hfa. subst fa.
  rewrite Eo, Ea, Em, Et. unfold address_ok, amount_ok, time_ok.
  repeat split; reflexivity.
Qed.

(** C1.  For every input within the comparator widths the constraint system
    of [PaymentRules] is satisfied by the values the circuit computes, and
    in every satisfying assignment the outputs are the reference booleans:
    [addressValid] tells whether the payment address is one of the three
    allowed addresses, [amountValid] whether [paymentAmount <= maxAmount],
    [timeValid] whether [minHour <= paymentTimestamp <= maxHour], and
    [isValid] is the conjunction of the three. *)
Theorem PaymentRules_outputs_are_reference (i : PaymentRulesInput) :
  in_widths i ->
  PaymentRules_sat i (PaymentRules_w i) /\
  forall o : PaymentRulesOutput, PaymentRules_sat i o ->
    addressValid o = Z.b2z (address_ok i) /\
    amountValid o = Z.b2z (amount_ok i) /\
    timeValid o = Z.b2z (time_ok i) /\
    isValid o = Z.b2z (address_ok i && amount_ok i && time_ok i).
Proof.
  intros Hw. split.
  - apply PaymentRules_w_sat. exact Hw.
  - intros o Ho. apply PaymentRules_sound; assumption.
Qed.

Lemma example_input_in_widths : in_widths example_input.
Proof. unfold in_widths, is_signal. simpl. repeat split; (discriminate || reflexivity). Defined.

Lemma PaymentRules_outputs_are_reference_witness :
  in_widths example_input /\
  PaymentRules_sat example_input (PaymentRules_w example_input) /\
  forall o : PaymentRulesOutput, PaymentRules_sat example_input o ->
    addressValid o = 1 /\ amountValid o = 1 /\ timeValid o = 1 /\ isValid o = 1.
Proof.
  split; [ exact example_input_in_widths | ].
  exact (PaymentRules_outputs_are_reference example_input example_input_in_widths).
Defined.

(** ** The integer-division helper *)

(** What the template computes satisfies its constraints and is the integer
    quotient and remainder. *)
Lemma IntegerDivision_w_sat (n : nat) (dividend divisor : Z) :
  (n <= 252)%nat -> is_signal dividend -> 0 < divisor < 2 ^ Z.of_nat n ->
  let '(quotient, remainder) := IntegerDivision_w dividend divisor in
  IntegerDivision_sat n dividend divisor quotient remainder /\
  dividend = quotient * divisor + remainder /\ 0 <= remainder < divisor.
Proof.
  intros Hn Hd Hdiv. unfold IntegerDivision_w.
  pose proof (Z.mod_pos_bound dividend divisor ltac:(lia)) as Hr.
  pose proof (Z.div_mod dividend divisor ltac:(lia)) as Hdm.
  assert (E : dividend = dividend / divisor * divisor + dividend mod divisor) by lia.
  split; [ | split; [ exact E | exact Hr ] ].
  split; [ now rewrite <- E | split ].
  - pose proof (LessThan_w_sat n (dividend mod divisor) divisor Hn ltac:(lia) ltac:(lia)) as Hs.
    pose proof (LessThan_sound n (dividend mod divisor) divisor _ Hn ltac:(lia) ltac:(lia) Hs) as Ho.
    rewrite Ho in Hs.
    replace (dividend mod divisor <? divisor) with true in Hs
      by (symmetry; apply Z.ltb_lt; lia).
    exact Hs.
  - pose proof (GreaterEqThan_w_sat n (dividend mod divisor) 0 Hn ltac:(lia) ltac:(lia)) as Hs.
    pose proof (GreaterEqThan_sound n (dividend mod divisor) 0 _ Hn ltac:(lia) ltac:(lia) Hs) as Ho.
    rewrite Ho in Hs.
    replace (0 <=? dividend mod divisor) with true in Hs
      by (symmetry; apply Z.leb_le; lia).
    exact Hs.
Qed.

(** The range of the remainder is enforced: in every satisfying assignment
    [0 <= remainder < divisor]. *)
Lemma IntegerDivision_enforces_remainder (n : nat)
    (dividend divisor quotient remainder : Z) :
  (n <= 252)%nat -> is_signal divisor -> is_signal remainder ->
  IntegerDivision_sat n dividend divisor quotient remainder ->
  0 <= remainder < divisor.
Proof.
  intros Hn Hd Hr (_ & Hlt & Hgeq).
  apply GreaterEqThan_zero_sat_one in Hgeq; [ | exact Hn | exact Hr ].
  apply LessThan_sat_one in Hlt; [ lia | exact Hn | exact Hgeq | exact Hd ].
Qed.

(** C9.  [IntegerDivision(8)] with dividend 7 and divisor 2: the constraint
    system accepts the pair (forged_quotient, 0), although
    [forged_quotient * 2 + 0] is [p + 7], not 7, and the division the
    template computes is (3, 1).  The product is only constrained modulo
    [p], and no constraint bounds the quotient. *)
Theorem IntegerDivision_accepts_forged_quotient :
  is_signal forged_quotient /\
  IntegerDivision_sat 8 7 2 forged_quotient 0 /\
  forged_quotient * 2 + 0 <> 7 /\
  IntegerDivision_w 7 2 = (3, 1).
Proof.
  split; [ unfold is_signal; split; [ discriminate | reflexivity ] | ].
  split; [ | split; [ discriminate | reflexivity ] ].
  split; [ reflexivity | split ].
  - pose proof (LessThan_w_sat 8 0 2 ltac:(lia) ltac:(lia) ltac:(lia)) as Hs.
    exact Hs.
  - pose proof (GreaterEqThan_w_sat 8 0 0 ltac:(lia) ltac:(lia) ltac:(lia)) as Hs.
    exact Hs.
Qed.

End CircuitsFacts.

(** * The prover *)
Module ProverFacts.
Import Js Types Prover Bits Protocol VerifierSpec Scenarios.
Open Scope string_scope.

(** ** The direct-evaluation fallback *)

Lemma plan_amount_spec (plan : PaymentPlan) : plan_amount plan = Some (amount plan).
Proof. apply JsFacts.parseInt_Number_toString. Qed.

(** The manual validation is the conjunction of the three checks in the
    clear. *)
Lemma validateRulesManually_spec (hour : Z) (plan : PaymentPlan) (rules : UserRules) :
  validateRulesManually hour plan rules
  = includes (allowedAddresses rules) (toAddress plan)
    && (amount plan <=? maxAmount rules)%Z
    && ((fst (allowedHours rules) <=? hour)%Z && (hour <=? snd (allowedHours rules))%Z).
Proof. unfold validateRulesManually. rewrite plan_amount_spec. reflexivity. Qed.

(** Without the circuit files the prover always returns, and what it
    returns is the sentinel with a single public signal. *)
Lemma fallback_artifact (env : Env) (plan : PaymentPlan) (rules : UserRules) :
  circuitFilesExist env = false ->
  generatePaymentProof env plan rules
  = Some {| proof := mock_proof (validateRulesManually (currentHour env) plan rules);
            publicSignals :=
              [signal_of_bool (validateRulesManually (currentHour env) plan rules)];
            isValid := validateRulesManually (currentHour env) plan rules |}.
Proof. intros H. unfold generatePaymentProof. rewrite H. reflexivity. Qed.

(** C6.  The fallback on the demo run: all three checks pass, and the
    artifact carries the one signal ["1"], not the four signals
    ["1"; "1"; "1"; "1"] of [isValid, addressValid, amountValid,
    timeValid]. *)
Theorem fallback_returns_one_signal :
  generatePaymentProof fallback_env demo_plan demo_rules
  = Some {| proof := mock_proof true; publicSignals := ["1"]; isValid := true |} /\
  option_map (fun r => length (publicSignals r))
             (generatePaymentProof fallback_env demo_plan demo_rules) = Some 1%nat.
Proof. split; reflexivity. Qed.

(** ** The proving path *)

(** With the circuit files in place and an oracle that returns what the
    circuit computes, the prover's verdict on inputs within the widths is
    the conjunction of the three reference checks on the circuit input. *)
Lemma honest_prover_verdict (hour : Z) (plan : PaymentPlan) (rules : UserRules)
    (input : Circuits.PaymentRulesInput) :
  circuit_input hour plan rules = Some input ->
  Circuits.in_widths input ->
  option_map isValid
    (generatePaymentProof
       {| circuitFilesExist := true; currentHour := hour;
          fullProve := honest_fullProve |} plan rules)
  = Some (Circuits.address_ok input && Circuits.amount_ok input
          && Circuits.time_ok input).
Proof.
  intros Hin Hw.
  pose proof (CircuitsFacts.PaymentRules_w_sat input Hw) as Hsat.
  destruct (CircuitsFacts.PaymentRules_sound input _ Hw Hsat) as (_ & _ & _ & Hv).
  unfold generatePaymentProof.
  cbn [circuitFilesExist currentHour fullProve negb].
  rewrite Hin. unfold honest_fullProve.
  cbn [option_map isValid List.map]. rewrite Hv.
  destruct (Circuits.address_ok input && Circuits.amount_ok input
            && Circuits.time_ok input); reflexivity.
Qed.

(** ** The identifier mapping *)

(** C7.  Two different 42-character addresses, the first of them the
    first destination of the demo rules, are mapped to the same number. *)
Theorem addressToNumber_collision :
  String.length "0xF2431b618B5b02923922c525885DBfFcdb9DE853" = 42%nat /\
  String.length colliding_address = 42%nat /\
  toLowerCase "0xF2431b618B5b02923922c525885DBfFcdb9DE853" <> toLowerCase colliding_address /\
  addressToNumber "0xF2431b618B5b02923922c525885DBfFcdb9DE853" = 1307316042 /\
  addressToNumber colliding_address = 1307316042.
Proof.
  split; [ reflexivity | ]. split; [ reflexivity | ].
  split; [ discriminate | ]. split; reflexivity.
Qed.

(** What the collision buys: a payment to the colliding address is not on
    the list of the demo rules, and yet the circuit input built for it has
    the payment address equal to the first allowed address. *)
Lemma collision_passes_whitelist :
  includes (allowedAddresses demo_rules) colliding_address = false /\
  option_map Circuits.address_ok
    (circuit_input 14
       {| toAddress := colliding_address; amount := 6;
          timestamp := 1700000000; description := "invoice" |}
       demo_rules) = Some true.
Proof. split; reflexivity. Qed.

(** The mapped number is below 2 ^ 31 + 1 whatever the address: 160 bits of
    address cannot be told apart by it. *)
Lemma ToInt32_range (z : Z) : - 2 ^ 31 <= ToInt32 z < 2 ^ 31.
Proof.
  unfold ToInt32. pose proof (Z.mod_pos_bound z (2 ^ 32) ltac:(lia)).
  destruct (Z.ltb_spec (z mod 2 ^ 32) (2 ^ 31)); lia.
Qed.

Lemma rolling_hash_range (s : string) (h : Z) :
  - 2 ^ 31 <= h < 2 ^ 31 -> - 2 ^ 31 <= rolling_hash h s < 2 ^ 31.
Proof.
  revert h. induction s as [ | c s IH ]; intros h Hh; simpl.
  - exact Hh.
  - apply IH. unfold band. apply ToInt32_range.
Qed.

Lemma addressToNumber_range (addr : string) : 0 <= addressToNumber addr <= 2 ^ 31.
Proof.
  unfold addressToNumber.
  destruct (_ || _); [ lia | ].
  pose proof (rolling_hash_range (toLowerCase addr) 0 ltac:(lia)). lia.
Qed.

(** ** The hour of the time check *)

(** C10.  Two payment plans that differ only in their [timestamp] field get
    the same result from [generatePaymentProof] under the same clock,
    circuit files and rules, on the proving path and on the manual one:
    the hour of the time check is the clock's. *)
Theorem generatePaymentProof_ignores_timestamp
    (env : Env) (plan : PaymentPlan) (rules : UserRules) (ts1 ts2 : Z) :
  generatePaymentProof env (with_timestamp plan ts1) rules
  = generatePaymentProof env (with_timestamp plan ts2) rules /\
  validateRulesManually (currentHour env) (with_timestamp plan ts1) rules
  = validateRulesManually (currentHour env) (with_timestamp plan ts2) rules.
Proof. split; reflexivity. Qed.

(** The clock does decide: the demo run passes at 14 and fails at 20. *)
Lemma clock_decides_time_check :
  validateRulesManually 14 demo_plan demo_rules = true /\
  validateRulesManually 20 demo_plan demo_rules = false.
Proof. split; reflexivity. Qed.

End ProverFacts.

(** * The rule commitment *)
Module RuleCommitmentFacts.
Import Js Types RuleCommitment Bits Protocol VerifierSpec Scenarios.

(** ** The order of [sort] *)

Lemma ascii_compare_lt_trans (a b c : ascii) :
  Ascii.compare a b = Lt -> Ascii.compare b c = Lt -> Ascii.compare a c = Lt.
Proof.
  unfold Ascii.compare. rewrite !N.compare_lt_iff. lia.
Qed.

Lemma string_compare_lt_trans (s1 : string) :
  forall s2 s3 : string,
    String.compare s1 s2 = Lt -> String.compare s2 s3 = Lt ->
    String.compare s1 s3 = Lt.
Proof.
  induction s1 as [ | c1 s1 IH ]; intros [ | c2 s2 ] [ | c3 s3 ]; simpl;
    try discriminate; try reflexivity.
  destruct (Ascii.compare c1 c2) eqn:E12; try discriminate;
    destruct (Ascii.compare c2 c3) eqn:E23; try discriminate; intros H12 H23.
  - apply Ascii.compare_eq_iff in E12, E23. subst c2 c3.
    assert (E : Ascii.compare c1 c1 = Eq).
    { unfold Ascii.compare. apply N.compare_refl. }
    rewrite E. now apply IH with s2.
  - apply Ascii.compare_eq_iff in E12. subst c2. now rewrite E23.
  - apply Ascii.compare_eq_iff in E23. subst c3. now rewrite E12.
  - now rewrite (ascii_compare_lt_trans c1 c2 c3).
Qed.

Lemma leb_cases (s1 s2 : string) :
  String.leb s1 s2 = true <-> String.compare s1 s2 = Lt \/ s1 = s2.
Proof.
  unfold String.leb. split.
  - destruct (String.compare s1 s2) eqn:E; try discriminate; intros _.
    + right. now apply String.compare_eq_iff.
    + now left.
  - intros [-> | ->]; [ reflexivity | ].
    assert (E : String.compare s2 s2 = Eq).
    { induction s2 as [ | c s IH ]; simpl; [ reflexivity | ].
      unfold Ascii.compare. now rewrite N.compare_refl. }
    now rewrite E.
Qed.

Lemma leb_trans (s1 s2 s3 : string) :
  String.leb s1 s2 = true -> String.leb s2 s3 = true -> String.leb s1 s3 = true.
Proof.
  rewrite !leb_cases. intros [H12 | ->] [H23 | ->]; auto.
  left. now apply string_compare_lt_trans with s2.
Qed.

Lemma leb_false_flip (s1 s2 : string) :
  String.leb s1 s2 = false -> String.leb s2 s1 = true.
Proof.
  intros H. destruct (String.leb_total s1 s2) as [E | E]; [ congruence | exact E ].
Qed.

(** ** Sorting forgets the order of presentation *)

Lemma insert_sorted_comm (x y : string) (l : list string) :
  insert_sorted x (insert_sorted y l) = insert_sorted y (insert_sorted x l).
Proof.
  induction l as [ | z l IH ]; simpl.
  - destruct (String.leb x y) eqn:Exy, (String.leb y x) eqn:Eyx; try reflexivity.
    + now rewrite (String.leb_antisym x y Exy Eyx).
    + apply leb_false_flip in Exy. congruence.
  - destruct (String.leb y z) eqn:Eyz, (String.leb x z) eqn:Exz; simpl;
      rewrite ?Eyz, ?Exz.
    + destruct (String.leb x y) eqn:Exy, (String.leb y x) eqn:Eyx; try reflexivity.
      * now rewrite (String.leb_antisym x y Exy Eyx).
      * apply leb_false_flip in Exy. congruence.
    + destruct (String.leb x y) eqn:Exy.
      * pose proof (leb_trans x y z Exy Eyz). congruence.
      * reflexivity.
    + destruct (String.leb y x) eqn:Eyx.
      * pose proof (leb_trans y x z Eyx Exz). congruence.
      * reflexivity.
    + now rewrite IH.
Qed.

Lemma sort_permutation (l1 l2 : list string) :
  Permutation l1 l2 -> sort l1 = sort l2.
Proof.
  induction 1 as [ | x l1 l2 _ IH | x y l | l1 l2 l3 _ IH1 _ IH2 ]; simpl.
  - reflexivity.
  - now rewrite IH.
  - apply insert_sorted_comm.
  - now rewrite IH1.
Qed.

Lemma insert_sorted_permutation (x : string) (l : list string) :
  Permutation (insert_sorted x l) (x :: l).
Proof.
  induction l as [ | y l IH ]; simpl; [ reflexivity | ].
  destruct (String.leb x y); [ reflexivity | ].
  rewrite IH. apply perm_swap.
Qed.

Lemma sort_is_permutation (l : list string) : Permutation (sort l) l.
Proof.
  induction l as [ | x l IH ]; simpl; [ reflexivity | ].
  rewrite insert_sorted_permutation. now constructor.
Qed.

Lemma sort_idempotent (l : list string) : sort (sort l) = sort l.
Proof. apply sort_permutation, sort_is_permutation. Qed.

(** The result of [sort] is in ascending order. *)
Lemma insert_sorted_sorted (x : string) (l : list string) :
  Sorted (fun a b => String.leb a b = true) l ->
  Sorted (fun a b => String.leb a b = true) (insert_sorted x l).
Proof.
  induction 1 as [ | y l Hs IH Hd ]; simpl.
  - repeat constructor.
  - destruct (String.leb x y) eqn:E.
    + constructor; [ now constructor | now constructor ].
    + constructor; [ exact IH | ].
      destruct Hd as [ | z l Hyz ]; simpl.
      * constructor. now apply leb_false_flip.
      * destruct (String.leb x z); constructor;
          [ now apply leb_false_flip | exact Hyz ].
Qed.

Lemma sort_sorted (l : list string) :
  Sorted (fun a b => String.leb a b = true) (sort l).
Proof.
  induction l as [ | x l IH ]; simpl; [ constructor | ].
  now apply insert_sorted_sorted.
Qed.

Section Hash.

Variable toHex : string -> string.
Variable keccak256 : string -> string.

(** C8.  The commitment is the same when [hashRules] is called again on
    the rule object a first call has left behind, and the same for two rule
    sets whose destinations are permutations of each other and whose cap
    and hours agree. *)
Theorem hashRules_deterministic_order_independent (rules1 rules2 : UserRules) :
  Permutation (allowedAddresses rules1) (allowedAddresses rules2) ->
  maxAmount rules1 = maxAmount rules2 ->
  allowedHours rules1 = allowedHours rules2 ->
  fst (hashRules toHex keccak256 rules1) = fst (hashRules toHex keccak256 rules2) /\
  fst (hashRules toHex keccak256 (snd (hashRules toHex keccak256 rules1)))
  = fst (hashRules toHex keccak256 rules1).
Proof.
  intros Hp Hm Hh. unfold hashRules. simpl.
  rewrite sort_idempotent, (sort_permutation _ _ Hp), Hm, Hh.
  split; reflexivity.
Qed.

(** [verifyRuleChange] reports no change for rules checked against their
    own commitment, in whatever order the destinations are presented. *)
Lemma verifyRuleChange_same (rules1 rules2 : UserRules) :
  Permutation (allowedAddresses rules1) (allowedAddresses rules2) ->
  maxAmount rules1 = maxAmount rules2 ->
  allowedHours rules1 = allowedHours rules2 ->
  fst (verifyRuleChange toHex keccak256 rules2
         (fst (hashRules toHex keccak256 rules1))) = false.
Proof.
  intros Hp Hm Hh. unfold verifyRuleChange, hashRules. simpl.
  rewrite (sort_permutation _ _ Hp), Hm, Hh, String.eqb_refl. reflexivity.
Qed.

End Hash.

Lemma rules_abc_cab_permutation :
  Permutation (allowedAddresses rules_abc) (allowedAddresses rules_cab).
Proof.
  simpl. apply Permutation_sym.
  apply (Permutation_cons_app ["0xa"; "0xb"] [] "0xc"). reflexivity.
Defined.

Lemma hashRules_deterministic_order_independent_witness :
  Permutation (allowedAddresses rules_abc) (allowedAddresses rules_cab) /\
  fst (hashRules (fun s => s) (fun s => s) rules_abc)
  = fst (hashRules (fun s => s) (fun s => s) rules_cab) /\
  fst (hashRules (fun s => s) (fun s => s)
         (snd (hashRules (fun s => s) (fun s => s) rules_abc)))
  = fst (hashRules (fun s => s) (fun s => s) rules_abc).
Proof.
  split; [ exact rules_abc_cab_permutation | ].
  exact (hashRules_deterministic_order_independent (fun s => s) (fun s => s)
           rules_abc rules_cab rules_abc_cab_permutation eq_refl eq_refl).
Defined.

End RuleCommitmentFacts.

(** * The verifier *)
Module VerifierFacts.
Import Js OnChainZKPVerifier Bits Protocol VerifierSpec Scenarios.

(** ** The contract *)

Lemma verifyPublicSignals_true (signals : list Z) (ruleHash paymentAddress amount : Z) :
  ZKPVerifier._verifyPublicSignals signals ruleHash paymentAddress amount = true ->
  signals = [1; 1; 1; 1].
Proof.
  unfold ZKPVerifier._verifyPublicSignals.
  destruct signals as [ | s0 [ | s1 [ | s2 [ | s3 [ | s4 rest ] ] ] ] ];
    simpl; try discriminate.
  rewrite !andb_true_iff, !Z.eqb_eq. intros [[[-> ->] ->] ->]. reflexivity.
Qed.

Lemma contract_true_only_if_all_ones
    (st st' : ZKPVerifier.State) (tx : ZKPVerifier.Tx) (proofId : Z)
    (zkProof : ZKPVerifier.Proof) (signals : list Z)
    (ruleHash paymentAddress amount : Z) :
  ZKPVerifier.verifyAndAuthorizePayment st tx proofId zkProof signals
    ruleHash paymentAddress amount = Some (true, st') ->
  signals = [1; 1; 1; 1].
Proof.
  unfold ZKPVerifier.verifyAndAuthorizePayment.
  destruct (proofId =? 0); [ discriminate | ].
  destruct (ZKPVerifier.isProofVerified st proofId); [ discriminate | ].
  intros H. injection H as H _.
  apply andb_true_iff in H. destruct H as [_ H].
  now apply verifyPublicSignals_true in H.
Qed.

(** After a call that did not revert the stored flag is the returned one. *)
Lemma contract_stores_result
    (st st' : ZKPVerifier.State) (tx : ZKPVerifier.Tx) (proofId : Z)
    (zkProof : ZKPVerifier.Proof) (signals : list Z)
    (ruleHash paymentAddress amount : Z) (result : bool) :
  ZKPVerifier.verifyAndAuthorizePayment st tx proofId zkProof signals
    ruleHash paymentAddress amount = Some (result, st') ->
  ZKPVerifier.isProofVerified st' proofId = result.
Proof.
  unfold ZKPVerifier.verifyAndAuthorizePayment.
  destruct (proofId =? 0); [ discriminate | ].
  destruct (ZKPVerifier.isProofVerified st proofId); [ discriminate | ].
  intros H. injection H as <- <-.
  unfold ZKPVerifier.isProofVerified. simpl.
  rewrite lookup_insert_eq. reflexivity.
Qed.

(** A proof whose [a] is zero is refused by the contract. *)
Lemma contract_refuses_zero_a
    (st st' : ZKPVerifier.State) (tx : ZKPVerifier.Tx) (proofId : Z)
    (zkProof : ZKPVerifier.Proof) (signals : list Z)
    (ruleHash paymentAddress amount : Z) (result : bool) :
  ZKPVerifier.a zkProof = (0, 0) ->
  ZKPVerifier.verifyAndAuthorizePayment st tx proofId zkProof signals
    ruleHash paymentAddress amount = Some (result, st') ->
  result = false.
Proof.
  intros Ha. unfold ZKPVerifier.verifyAndAuthorizePayment.
  destruct (proofId =? 0); [ discriminate | ].
  destruct (ZKPVerifier.isProofVerified st proofId); [ discriminate | ].
  intros H. injection H as <- _.
  unfold ZKPVerifier._verifyGroth16Proof. rewrite Ha. reflexivity.
Qed.

(** ** The local structural check *)

Lemma forallb_ones (l : list string) :
  length l = 4%nat -> forallb (fun signal => String.eqb signal "1"%string) l = true ->
  l = four_ones.
Proof.
  destruct l as [ | s0 [ | s1 [ | s2 [ | s3 [ | s4 rest ] ] ] ] ];
    simpl; try discriminate.
  intros _. rewrite !andb_true_iff, !String.eqb_eq.
  intros (-> & -> & -> & -> & _). reflexivity.
Qed.

Lemma verifyProofLocally_iff (proof : JsValue) (publicSignals : list string) :
  verifyProofLocally proof publicSignals = true <->
  truthy proof = true /\ typeof_object proof = true /\ publicSignals = four_ones.
Proof.
  unfold verifyProofLocally. split.
  - destruct (truthy proof), (typeof_object proof); simpl; try discriminate.
    destruct (Nat.eqb_spec (length publicSignals) 4) as [Hlen | Hlen];
      simpl; try discriminate.
    intros H. repeat split. now apply forallb_ones.
  - intros (-> & -> & ->). reflexivity.
Qed.

(** ** The try block *)

Lemma encode_args_signals (abi : Abi) (proofId : Z) (p : OnChainProof)
    (signals : list Z) (ruleHash paymentAddress : string) (amount : Z)
    (args : CallArgs) :
  encode_args abi proofId p signals ruleHash paymentAddress amount = Some args ->
  arg_publicSignals args = signals /\ arg_proofId args = proofId /\
  ZKPVerifier.a (arg_zkProof args) = a p.
Proof.
  unfold encode_args, encode_pair.
  destruct (is_uint256 (fst (a p)) && is_uint256 (snd (a p))); [ | discriminate ].
  destruct (encode_b abi (b p)); [ | discriminate ].
  destruct (is_uint256 (fst (c p)) && is_uint256 (snd (c p))); [ | discriminate ].
  destruct (encode_bytes32 abi ruleHash); [ | discriminate ].
  destruct (encode_address abi paymentAddress); [ | discriminate ].
  destruct (_ && _); [ | discriminate ].
  intros H. injection H as <-. auto.
Qed.

(** What an on-chain result rests on: the contract ran on the converted
    proof and the converted signals, and returned the reported flag. *)
Lemma try_on_chain_inv (env : Env) (chain chain' : ZKPVerifier.State)
    (proof : JsValue) (publicSignals : list string)
    (ruleHash paymentAddress : string) (amount : Z) (result : Verification) :
  try_on_chain env chain proof publicSignals ruleHash paymentAddress amount
  = (Some result, chain') ->
  exists proofId onChainProof signals args,
    convertToOnChainProof proof = Some onChainProof /\
    signals_to_bigint publicSignals = Some signals /\
    arg_publicSignals args = signals /\
    ZKPVerifier.a (arg_zkProof args) = a onChainProof /\
    call_contract chain (tx env) args = Some (authorized result, chain') /\
    result = OnChain (authorized result) proofId.
Proof.
  unfold try_on_chain.
  destruct (generateProofId env proof publicSignals ruleHash) as [ proofId | ];
    [ | discriminate ].
  destruct (convertToOnChainProof proof) as [ onChainProof | ]; [ | discriminate ].
  destruct (signals_to_bigint publicSignals) as [ signals | ]; [ | discriminate ].
  destruct (encode_args _ _ _ _ _ _ _) as [ args | ] eqn:Eargs; [ | discriminate ].
  destruct (reachable env SimulateContract); [ | discriminate ]. simpl.
  destruct (call_contract chain (tx env) args) as [ [flag st] | ] eqn:Ecall;
    [ | discriminate ].
  destruct (reachable env WriteContract); [ | discriminate ]. simpl.
  destruct (reachable env WaitForReceipt); [ | discriminate ]. simpl.
  destruct (reachable env ReadContract); [ | discriminate ]. simpl.
  intros H. injection H as <- <-.
  apply encode_args_signals in Eargs. destruct Eargs as (Hs & Hid & Ha).
  pose proof Ecall as Hstore. unfold call_contract in Hstore.
  apply contract_stores_result in Hstore.
  rewrite Hid in Hstore. simpl. rewrite Hstore.
  exists proofId, onChainProof, signals, args. repeat split; auto.
Qed.

(** ** Authorization needs the all-pass pattern *)

Lemma signals_to_bigint_inv (publicSignals : list string) (signals : list Z) :
  signals_to_bigint publicSignals = Some signals ->
  List.Forall2 (fun s v => BigInt_of_string s = Some v) publicSignals signals.
Proof.
  revert signals. induction publicSignals as [ | s rest IH ]; intros signals; simpl.
  - intros H. injection H as <-. constructor.
  - destruct (BigInt_of_string s) as [ v | ] eqn:Ev; [ | discriminate ].
    destruct (signals_to_bigint rest) as [ vs | ]; [ | discriminate ].
    intros H. injection H as <-. constructor; [ exact Ev | now apply IH ].
Qed.

Lemma four_bits_all_one_shape (publicSignals : list string) :
  four_bits_all_one publicSignals ->
  length publicSignals = 4%nat /\ ~ In "0"%string publicSignals.
Proof.
  intros H. apply signals_to_bigint_inv in H.
  split.
  - apply List.Forall2_length in H. exact H.
  - intros Hin.
    assert (Hv : exists v, In v [1; 1; 1; 1] /\ BigInt_of_string "0" = Some v).
    { clear -H Hin. induction H as [ | s v ss vs Hsv _ IH ]; [ destruct Hin | ].
      destruct Hin as [-> | Hin].
      - exists v. split; [ now left | exact Hsv ].
      - destruct (IH Hin) as (w & Hw & E). exists w. split; [ now right | exact E ]. }
    destruct Hv as (v & Hv & E). vm_compute in E. injection E as <-.
    simpl in Hv. intuition discriminate.
Qed.

Lemma verifyProofOnChain_authorized (env : Env) (chain : ZKPVerifier.State)
    (proof : JsValue) (publicSignals : list string)
    (ruleHash paymentAddress : string) (amount : Z) :
  authorized (fst (verifyProofOnChain env chain proof publicSignals
                     ruleHash paymentAddress amount)) = true ->
  four_bits_all_one publicSignals.
Proof.
  unfold verifyProofOnChain.
  assert (Hlocal : verifyProofLocally proof publicSignals = true ->
                   four_bits_all_one publicSignals).
  { intros H. apply verifyProofLocally_iff in H. destruct H as (_ & _ & ->).
    reflexivity. }
  destruct (unconfigured env); [ exact Hlocal | ].
  destruct (try_on_chain _ _ _ _ _ _ _) as [ [ result | ] chain' ] eqn:E;
    [ | exact Hlocal ].
  simpl. intros Hauth.
  apply try_on_chain_inv in E.
  destruct E as (proofId & onChainProof & signals & args & _ & Hs & Hargs & _ & Hcall & _).
  rewrite Hauth in Hcall. unfold call_contract in Hcall.
  apply contract_true_only_if_all_ones in Hcall.
  unfold four_bits_all_one. rewrite Hs, <- Hargs, Hcall. reflexivity.
Qed.

(** C2.  The verifier authorizes only artifacts whose public outputs are
    exactly four bits all equal to 1: the local structural check accepts
    only the four signals "1", the contract returns true only on the four
    values 1, and whatever the mode [verifyProofOnChain] ends in, an
    authorized artifact has four signals that all read 1; an artifact with
    a signal "0" or with a signal vector not of length 4 is refused. *)
Theorem authorized_only_if_four_ones (env : Env) (chain : ZKPVerifier.State)
    (proof : JsValue) (publicSignals : list string)
    (ruleHash paymentAddress : string) (amount : Z) :
  (verifyProofLocally proof publicSignals = true -> publicSignals = four_ones) /\
  (forall (st st' : ZKPVerifier.State) (tx : ZKPVerifier.Tx) (proofId : Z)
          (zkProof : ZKPVerifier.Proof) (signals : list Z) (rh pa am : Z),
     ZKPVerifier.verifyAndAuthorizePayment st tx proofId zkProof signals rh pa am
     = Some (true, st') ->
     signals = [1; 1; 1; 1]) /\
  (authorized (fst (verifyProofOnChain env chain proof publicSignals
                      ruleHash paymentAddress amount)) = true ->
   four_bits_all_one publicSignals) /\
  (length publicSignals <> 4%nat \/ In "0"%string publicSignals ->
   authorized (fst (verifyProofOnChain env chain proof publicSignals
                      ruleHash paymentAddress amount)) = false).
Proof.
  split; [ | split; [ | split ] ].
  - intros H. now apply verifyProofLocally_iff in H.
  - intros st st' tx proofId zkProof signals rh pa am.
    apply contract_true_only_if_all_ones.
  - apply verifyProofOnChain_authorized.
  - intros Hbad.
    destruct (authorized _) eqn:E; [ exfalso | reflexivity ].
    apply verifyProofOnChain_authorized, four_bits_all_one_shape in E.
    destruct E as [Hlen Hzero]. destruct Hbad; contradiction.
Qed.

Lemma authorized_only_if_four_ones_witness :
  authorized (fst (verifyProofOnChain configured_env empty_chain groth16_proof
                     four_ones "0xrules" "0xdest" 6)) = true /\
  on_chain (fst (verifyProofOnChain configured_env empty_chain groth16_proof
                     four_ones "0xrules" "0xdest" 6)) = true /\
  four_bits_all_one four_ones.
Proof.
  split; [ vm_compute; reflexivity | ]. split; [ vm_compute; reflexivity | ].
  refine (proj1 (proj2 (proj2
            (authorized_only_if_four_ones configured_env empty_chain groth16_proof
               four_ones "0xrules" "0xdest" 6))) _).
  vm_compute. reflexivity.
Defined.

(** ** The sentinel of the direct-evaluation fallback *)

Lemma convert_mock_proof (validated : bool) :
  convertToOnChainProof (Prover.mock_proof validated)
  = Some {| a := (0, 0); b := ((0, 0), (0, 0)); c := (0, 0) |}.
Proof. reflexivity. Qed.

(** With the sentinel as proof the on-chain path never reports success,
    whatever the signals: the converted proof is all zero. *)
Lemma sentinel_refused_on_chain (env : Env) (chain : ZKPVerifier.State)
    (validated : bool) (publicSignals : list string)
    (ruleHash paymentAddress : string) (amount : Z) :
  on_chain (fst (verifyProofOnChain env chain (Prover.mock_proof validated)
                   publicSignals ruleHash paymentAddress amount)) = true ->
  authorized (fst (verifyProofOnChain env chain (Prover.mock_proof validated)
                     publicSignals ruleHash paymentAddress amount)) = false.
Proof.
  unfold verifyProofOnChain.
  destruct (unconfigured env); [ discriminate | ].
  destruct (try_on_chain _ _ _ _ _ _ _) as [ [ result | ] chain' ] eqn:E;
    [ | discriminate ].
  simpl. intros _.
  apply try_on_chain_inv in E.
  destruct E as (proofId & onChainProof & signals & args & Hc & _ & _ & Ha & Hcall & _).
  rewrite convert_mock_proof in Hc. injection Hc as <-. simpl in Ha.
  unfold call_contract in Hcall.
  now apply (contract_refuses_zero_a _ _ _ _ _ _ _ _ _ _ Ha) in Hcall.
Qed.

(** C5.  An artifact the prover returns without the circuit files never
    comes out of the verifier authorized in on-chain mode, whatever the
    verifier's configuration, the ledger, the rule commitment, the
    destination and the amount. *)
Theorem fallback_artifact_never_verifies_on_chain
    (penv : Prover.Env) (plan : Types.PaymentPlan) (rules : Types.UserRules)
    (artifact : Prover.ProofResult)
    (env : Env) (chain : ZKPVerifier.State)
    (ruleHash paymentAddress : string) (amount : Z) :
  Prover.circuitFilesExist penv = false ->
  Prover.generatePaymentProof penv plan rules = Some artifact ->
  ~ (authorized (fst (verifyProofOnChain env chain (Prover.proof artifact)
                        (Prover.publicSignals artifact)
                        ruleHash paymentAddress amount)) = true /\
     on_chain (fst (verifyProofOnChain env chain (Prover.proof artifact)
                      (Prover.publicSignals artifact)
                      ruleHash paymentAddress amount)) = true).
Proof.
  intros Hfiles Hgen.
  rewrite (ProverFacts.fallback_artifact penv plan rules Hfiles) in Hgen.
  injection Hgen as <-. simpl.
  intros [Hauth Hmode].
  apply sentinel_refused_on_chain in Hmode. congruence.
Qed.

Lemma fallback_artifact_never_verifies_on_chain_witness :
  Prover.circuitFilesExist fallback_env = false /\
  Prover.generatePaymentProof fallback_env demo_plan
    demo_rules
  = Some {| Prover.proof := Prover.mock_proof true;
            Prover.publicSignals := ["1"%string];
            Prover.isValid := true |} /\
  ~ (authorized (fst (verifyProofOnChain configured_env empty_chain
                        (Prover.mock_proof true) ["1"%string]
                        "0xrules" "0xdest" 6)) = true /\
     on_chain (fst (verifyProofOnChain configured_env empty_chain
                      (Prover.mock_proof true) ["1"%string]
                      "0xrules" "0xdest" 6)) = true).
Proof.
  split; [ reflexivity | ]. split; [ reflexivity | ].
  exact (fallback_artifact_never_verifies_on_chain
           fallback_env demo_plan demo_rules
           {| Prover.proof := Prover.mock_proof true;
              Prover.publicSignals := ["1"%string];
              Prover.isValid := true |}
           configured_env empty_chain "0xrules" "0xdest" 6 eq_refl eq_refl).
Defined.

(** ** What the local structural check looks at *)

(** C4.  The local check accepts the sentinel of the direct-evaluation
    fallback, the object marked [mock: true] that has none of the fields
    of a proof, when it comes with four signals "1"; the claim has it
    refused.  The check looks at no field of the proof, where the
    contract refuses the same sentinel once converted
    ([sentinel_refused_on_chain]). *)
Theorem local_check_accepts_sentinel :
  Js.get (Prover.mock_proof true) "mock" = Some (JsBool true) /\
  verifyProofLocally (Prover.mock_proof true) four_ones = true.
Proof. split; reflexivity. Qed.

End VerifierFacts.

(** * The pipeline *)
Module PaymentSystemFacts.
Import Js Types PaymentSystem Bits Protocol VerifierSpec Scenarios.

(** ** The protocol the runs follow *)

Lemma Stage_eq_BeforeProof (s : Stage) : s = BeforeProof \/ s <> BeforeProof.
Proof. destruct s; (now left) || (right; discriminate). Qed.

Lemma run_app (s : Stage) (t1 t2 : list Event) :
  run s (t1 ++ t2) = match run s t1 with Some s' => run s' t2 | None => None end.
Proof.
  revert s. induction t1 as [ | e t1 IH ]; intros s; simpl; [ reflexivity | ].
  destruct (step s e); [ apply IH | reflexivity ].
Qed.

(** ** Running the try block *)

Lemma bind_inv {A B : Type} (m : M A) (f : A -> M B) (t : list Event) (r : option B) :
  bind m f = (t, r) ->
  (snd m = None /\ t = fst m /\ r = None) \/
  (exists x t2, snd m = Some x /\ f x = (t2, r) /\ t = fst m ++ t2).
Proof.
  unfold bind. destruct m as [t1 [x | ]].
  - destruct (f x) as [t2 r2] eqn:E. intros H. injection H as <- <-.
    right. exists x, t2. auto.
  - intros H. injection H as <- <-. left. auto.
Qed.

#[local] Arguments bind : simpl never.
#[local] Arguments sendLog : simpl never.
#[local] Arguments saveProcessingLog : simpl never.
#[local] Arguments call : simpl never.

Lemma fst_sendLog env p s : fst (sendLog env p s) = [SendLog p s].
Proof. reflexivity. Qed.
Lemma fst_saveProcessingLog env s : fst (saveProcessingLog env s) = [SaveProcessingLog s].
Proof. reflexivity. Qed.
Lemma fst_call {A : Type} e (r : option A) : fst (call e r) = [e].
Proof. reflexivity. Qed.
Lemma snd_sendLog env p s : snd (sendLog env p s) = guard (observer_ok env p s).
Proof. reflexivity. Qed.
Lemma snd_saveProcessingLog env s : snd (saveProcessingLog env s) = guard (db_ok env s).
Proof. reflexivity. Qed.
Lemma snd_call {A : Type} e (r : option A) : snd (call e r) = r.
Proof. reflexivity. Qed.

Lemma guard_some (b : bool) (x : unit) : guard b = Some x -> b = true.
Proof. destruct b; [ reflexivity | discriminate ]. Qed.

Lemma guard_none (b : bool) : guard b = None -> b = false.
Proof. destruct b; [ discriminate | reflexivity ]. Qed.

Lemma fst_ret {A : Type} (x : A) : fst (ret x) = [].
Proof. reflexivity. Qed.
Lemma snd_ret {A : Type} (x : A) : snd (ret x) = Some x.
Proof. reflexivity. Qed.
Lemma fst_throw {A : Type} : fst (@throw A) = [].
Proof. reflexivity. Qed.
Lemma snd_throw {A : Type} : snd (@throw A) = None.
Proof. reflexivity. Qed.

Ltac simpl_io H :=
  rewrite ?fst_sendLog, ?fst_saveProcessingLog, ?fst_call, ?fst_ret, ?fst_throw,
          ?snd_sendLog, ?snd_saveProcessingLog, ?snd_call, ?snd_ret, ?snd_throw in H.

(** One step of the run recorded in [H]; [leaf] closes the goals of the
    runs that end there. *)
Ltac exec H leaf :=
  lazymatch type of H with
  | bind (match ?o with Some _ => _ | None => _ end) _ = _ =>
      let E := fresh "E" in destruct o eqn:E; exec H leaf
  | bind (match ?i with InputPdf _ => _ | InputText _ => _ | InputDemo => _ end) _ = _ =>
      destruct i; exec H leaf
  | bind (if ?b then _ else _) _ = _ =>
      let E := fresh "E" in destruct b eqn:E; exec H leaf
  | bind (let '(_, _) := ?p in _) _ = _ =>
      let E := fresh "E" in destruct p eqn:E; exec H leaf
  | bind (commitRules _ _) _ = _ => unfold commitRules in H; exec H leaf
  | bind _ _ = _ =>
      let Hm := fresh "Hm" in
      let Ht := fresh "Ht" in
      let Hr := fresh "Hr" in
      let x := fresh "x" in
      let t2 := fresh "t" in
      apply bind_inv in H;
      destruct H as [(Hm & Ht & Hr) | (x & t2 & Hm & H & Ht)];
      [ simpl_io Hm; simpl_io Ht; simplify_eq; leaf
      | simpl_io Hm; simpl_io Ht; cbv beta in H; simplify_eq; exec H leaf ]
  | (if negb ?b then _ else _) = _ =>
      let E := fresh "E" in destruct b eqn:E; simpl negb in H; cbv iota in H; exec H leaf
  | (if ?b then _ else _) = _ =>
      let E := fresh "E" in destruct b eqn:E; exec H leaf
  | (let '(_, _) := ?p in _) = _ =>
      let E := fresh "E" in destruct p eqn:E; exec H leaf
  | match ?o with Some _ => _ | None => _ end = _ =>
      let E := fresh "E" in destruct o eqn:E; exec H leaf
  | match ?i with InputPdf _ => _ | InputText _ => _ | InputDemo => _ end = _ =>
      destruct i; exec H leaf
  | ret _ = _ =>
      unfold ret in H; injection H as ? ?; subst; leaf
  | throw = _ =>
      unfold throw in H; injection H as ? ?; subst; leaf
  | call _ _ = _ =>
      unfold call in H; injection H as ? ?; subst; leaf
  | commitRules _ _ = _ => unfold commitRules in H; exec H leaf
  | _ => idtac
  end.

Ltac known_flags :=
  repeat match goal with
         | E : ?b = true |- context [?b] => rewrite E
         | E : ?b = false |- context [?b] => rewrite E
         end.

Ltac fits :=
  known_flags;
  repeat match goal with
         | |- context [Prover.isValid ?r] => destruct (Prover.isValid r)
         end;
  (eexists; split;
   [ reflexivity
   | simpl;
     repeat match goal with
            | |- context [if ?b then _ else _] => destruct b
            end;
     simpl; auto ]).

(** Every run of the try block follows the protocol, and its result
    stands for the stage the run has reached. *)
Lemma try_follows_protocol (env : Env) (input : PaymentInput) (userRules : UserRules)
    (t : list Event) (r : option ProcessResult) :
  processPayment_try env input userRules = (t, r) ->
  exists s, run BeforeProof t = Some s /\ result_fits s r.
Proof.
  intros H. unfold processPayment_try in H. cbv zeta in H.
  exec H fits.
Qed.

Lemma processPayment_follows_protocol (env : Env) (input : PaymentInput)
    (userRules : UserRules) :
  exists s,
    run BeforeProof (fst (processPayment env input userRules)) = Some s /\
    result_fits s (snd (processPayment env input userRules)).
Proof.
  unfold processPayment.
  destruct (processPayment_try env input userRules) as [t [result | ]] eqn:E;
    apply try_follows_protocol in E; destruct E as (s & Hrun & Hfit).
  - exists s. auto.
  - exists s. simpl. split.
    + rewrite run_app, Hrun. reflexivity.
    + destruct (db_ok env error_step); simpl; auto.
Qed.

(** ** What the protocol rules out *)

Lemma run_RuleViolated (t : list Event) (s : Stage) :
  run RuleViolated t = Some s ->
  s = RuleViolated /\ forall e, In e t -> is_log e = true.
Proof.
  induction t as [ | e t IH ]; simpl.
  - intros H. injection H as <-. split; [ reflexivity | intros e [] ].
  - destruct e as [ | | | | | [ [ | ] | ] | [ | ] | ]; simpl; try discriminate;
      intros H; destruct (IH H) as [-> Hall];
      (split; [ reflexivity | intros e [<- | Hin]; [ reflexivity | now apply Hall ] ]).
Qed.

Lemma run_no_second_proof (t : list Event) (s s' : Stage) (v : option bool) :
  s <> BeforeProof -> run s t = Some s' -> ~ In (GeneratePaymentProof v) t.
Proof.
  revert s. induction t as [ | e t IH ]; intros s Hs; simpl; [ tauto | ].
  destruct (step s e) as [ s1 | ] eqn:E; [ | discriminate ].
  intros Hrun [-> | Hin].
  - destruct s, v as [ [ | ] | ]; simpl in E; congruence.
  - apply (IH s1); [ | exact Hrun | exact Hin ].
    destruct e, s; simpl in E; try congruence;
      repeat match goal with
             | b : bool |- _ => destruct b
             | o : option bool |- _ => destruct o
             end; simpl in E; congruence.
Qed.

Lemma failed_proof_ends_run (t : list Event) (s : Stage) :
  run BeforeProof t = Some s -> In (GeneratePaymentProof (Some false)) t ->
  s = RuleViolated /\
  forall e, In e t ->
    e <> ExecutePayment /\ forall b, e <> VerifyProofOnChain b.
Proof.
  induction t as [ | e t IH ]; simpl; [ tauto | ].
  destruct (step BeforeProof e) as [ s1 | ] eqn:E; [ | discriminate ].
  intros Hrun Hin.
  assert (Hlog : forall e', is_log e' = true ->
                   e' <> ExecutePayment /\ forall b, e' <> VerifyProofOnChain b).
  { intros [] He'; simpl in He'; try discriminate; split; intros; discriminate. }
  assert (He : e <> ExecutePayment /\ forall b, e <> VerifyProofOnChain b).
  { destruct e as [ | | | | | [ [ | ] | ] | [ | ] | ]; simpl in E;
      try discriminate; split; intros; discriminate. }
  destruct (Stage_eq_BeforeProof s1) as [-> | Hne].
  - destruct Hin as [-> | Hin]; [ discriminate E | ].
    destruct (IH Hrun Hin) as [-> Hall].
    split; [ reflexivity | intros e' [<- | Hin']; [ exact He | now apply Hall ] ].
  - destruct Hin as [-> | Hin].
    + simpl in E. injection E as <-.
      apply run_RuleViolated in Hrun. destruct Hrun as [-> Hall].
      split; [ reflexivity | ].
      intros e' [<- | Hin']; [ exact He | apply Hlog, Hall, Hin' ].
    + exfalso. now apply (run_no_second_proof t s1 s (Some false) Hne Hrun).
Qed.

Lemma executor_needs_authorization (t1 t2 : list Event) (s s' : Stage) :
  run s (t1 ++ ExecutePayment :: t2) = Some s' ->
  s = Authorized \/ In (VerifyProofOnChain true) t1.
Proof.
  revert s. induction t1 as [ | e t1 IH ]; intros s; simpl.
  - destruct s; simpl; try discriminate. now left.
  - destruct (step s e) as [ s1 | ] eqn:E; [ | discriminate ].
    intros Hrun. destruct (IH s1 Hrun) as [-> | Hin]; [ | now right; right ].
    destruct e, s; simpl in E; try discriminate; try (now left);
      repeat match goal with
             | b : bool |- _ => destruct b
             | o : option bool |- _ => destruct o
             end; simpl in E; try discriminate.
    right. now left.
Qed.

(** ** The result of a run whose proof fails the rules *)

Ltac violation_leaf Hin :=
  first
    [ exfalso;
      repeat match goal with
             | Hm : guard _ = None |- _ => apply guard_none in Hm
             end;
      congruence
    | exfalso; simpl in Hin;
      repeat match goal with
             | E : ?b = true |- _ => rewrite E in Hin
             end;
      intuition congruence
    | eexists; reflexivity ].

Lemma try_rule_violation (env : Env) (input : PaymentInput) (userRules : UserRules)
    (t : list Event) (r : option ProcessResult) :
  processPayment_try env input userRules = (t, r) ->
  In (GeneratePaymentProof (Some false)) t ->
  db_ok env zkp_generated = true ->
  observer_ok env zkp completed = true ->
  observer_ok env zkp failed = true ->
  exists v, r = Some {| success := false; status := status_rule_violation;
                        violations := v |}.
Proof.
  intros H Hin Hdb Hdone Hfailed. unfold processPayment_try in H. cbv zeta in H.
  exec H ltac:(violation_leaf Hin).
Qed.

Ltac unrecorded_leaf Hin Hnot :=
  first
    [ reflexivity
    | exfalso; simpl in Hin;
      repeat match goal with
             | E : ?b = true |- _ => rewrite E in Hin
             end;
      intuition congruence
    | exfalso; apply Hnot;
      repeat match goal with
             | Hm : guard _ = Some _ |- _ => apply guard_some in Hm
             end;
      repeat split; assumption ].

(** When one of the three log calls of the proof stage fails, the try
    block of a run whose proof fails the rules throws. *)
Lemma try_unrecorded_violation (env : Env) (input : PaymentInput) (userRules : UserRules)
    (t : list Event) (r : option ProcessResult) :
  processPayment_try env input userRules = (t, r) ->
  In (GeneratePaymentProof (Some false)) t ->
  ~ proof_stage_recorded env ->
  r = None.
Proof.
  intros H Hin Hnot. unfold processPayment_try in H. cbv zeta in H.
  exec H ltac:(unrecorded_leaf Hin Hnot).
Qed.

(** C3, as the code has it.  When the generated proof's overall-valid bit
    is 0 the run never invokes the verifier or the payment executor; it
    ends with the rule-violation result when the three log calls of the
    proof stage succeed, and otherwise with the error result of the
    catch-all handler or, when that handler's own log write fails too, with
    a rejection.  In every run the payment executor is invoked only after
    the verifier has returned authorized = true. *)
Theorem rule_violation_short_circuit (env : Env) (input : PaymentInput)
    (userRules : UserRules) :
  (In (GeneratePaymentProof (Some false)) (fst (processPayment env input userRules)) ->
   (forall e, In e (fst (processPayment env input userRules)) ->
      e <> ExecutePayment /\ forall b, e <> VerifyProofOnChain b) /\
   (proof_stage_recorded env ->
    exists v, snd (processPayment env input userRules)
              = Some {| success := false; status := status_rule_violation;
                        violations := v |}) /\
   (~ proof_stage_recorded env ->
    snd (processPayment env input userRules)
    = if db_ok env error_step
      then Some {| success := false; status := status_error; violations := [] |}
      else None)) /\
  (forall t1 t2, fst (processPayment env input userRules) = t1 ++ ExecutePayment :: t2 ->
     In (VerifyProofOnChain true) t1).
Proof.
  destruct (processPayment_follows_protocol env input userRules) as (s & Hrun & Hfit).
  split.
  - intros Hin.
    destruct (failed_proof_ends_run _ _ Hrun Hin) as [-> Hall].
    split; [ exact Hall | split ].
    + intros (Hdb & Hdone & Hfailed). unfold processPayment in *.
      destruct (processPayment_try env input userRules) as [t [result | ]] eqn:E.
      * simpl in Hin. simpl.
        destruct (try_rule_violation _ _ _ _ _ E Hin Hdb Hdone Hfailed) as (v & Hv).
        exists v. exact Hv.
      * exfalso. simpl in Hin. apply in_app_or in Hin.
        destruct Hin as [Hin | [Hin | []]]; [ | discriminate Hin ].
        destruct (try_rule_violation _ _ _ _ _ E Hin Hdb Hdone Hfailed) as (v & Hv).
        discriminate Hv.
    + intros Hnot. unfold processPayment in *.
      destruct (processPayment_try env input userRules) as [t [result | ]] eqn:E;
        [ | reflexivity ].
      simpl in Hin.
      pose proof (try_unrecorded_violation _ _ _ _ _ E Hin Hnot) as Hr.
      discriminate Hr.
  - intros t1 t2 E. rewrite E in Hrun.
    apply executor_needs_authorization in Hrun.
    destruct Hrun as [Hs | Hin]; [ discriminate Hs | exact Hin ].
Qed.

(** ** Two runs over the cap *)

Ltac in_list := vm_compute; repeat ((left; reflexivity) || right).

Lemma rule_violation_short_circuit_witness :
  In (GeneratePaymentProof (Some false))
     (fst (processPayment (over_cap_env all_writes_succeed) InputDemo
             demo_rules)) /\
  snd (processPayment (over_cap_env all_writes_succeed) InputDemo
         demo_rules)
  = Some {| success := false; status := status_rule_violation;
            violations := [amount_over_cap] |} /\
  (forall e, In e (fst (processPayment (over_cap_env all_writes_succeed) InputDemo
                          demo_rules)) ->
     e <> ExecutePayment /\ forall b, e <> VerifyProofOnChain b).
Proof.
  assert (Hin : In (GeneratePaymentProof (Some false))
                   (fst (processPayment (over_cap_env all_writes_succeed) InputDemo
                           demo_rules))) by in_list.
  split; [ exact Hin | ]. split; [ vm_compute; reflexivity | ].
  exact (proj1 (proj1 (rule_violation_short_circuit
                         (over_cap_env all_writes_succeed) InputDemo
                         demo_rules) Hin)).
Defined.

(** The same run when the log write after proof generation fails: the
    proof's overall-valid bit is 0, and the run ends with the error result,
    not with the rule violation. *)
Lemma failed_log_write_hides_rule_violation :
  In (GeneratePaymentProof (Some false))
     (fst (processPayment (over_cap_env proof_log_write_fails) InputDemo
             demo_rules)) /\
  snd (processPayment (over_cap_env proof_log_write_fails) InputDemo
         demo_rules)
  = Some {| success := false; status := status_error; violations := [] |}.
Proof. split; [ in_list | vm_compute; reflexivity ]. Qed.

End PaymentSystemFacts.

(** * The rule-commitment contract *)
Module RuleCommitmentContractFacts.
Import RuleCommitmentContract Ledger Examples.

Lemma userRules_at_insert (st : gmap Z RuleData) (rx : gmap Z bool)
    (u v : Z) (r : RuleData) :
  userRules_at {| userRules := <[ u := r ]> st; ruleExists := rx |} v
  = if decide (u = v) then r else default zero_rule (st !! v).
Proof.
  unfold userRules_at. simpl. destruct (decide (u = v)) as [-> | Hne].
  - now rewrite lookup_insert_eq.
  - now rewrite lookup_insert_ne.
Qed.

Lemma ruleExists_at_insert (ur : gmap Z RuleData) (rx : gmap Z bool)
    (h k : Z) (flag : bool) :
  ruleExists_at {| userRules := ur; ruleExists := <[ h := flag ]> rx |} k
  = if decide (h = k) then flag else default false (rx !! k).
Proof.
  unfold ruleExists_at. simpl. destruct (decide (h = k)) as [-> | Hne].
  - now rewrite lookup_insert_eq.
  - now rewrite lookup_insert_ne.
Qed.

(** What a commit that did not revert leaves behind. *)
Lemma commitRules_inv (st st' : State) (tx : ZKPVerifier.Tx) (h : Z) (d : string)
    (logs : list Log) :
  commitRules st tx h d = Some (logs, st') ->
  h <> 0 /\ d <> EmptyString /\
  (forall u, userRules_at st' u
             = if decide (ZKPVerifier.msg_sender tx = u)
               then {| ruleHash := h; timestamp := ZKPVerifier.block_timestamp tx;
                       description := d; isActive := true |}
               else userRules_at st u) /\
  (forall k, ruleExists_at st' k
             = if decide (h = k) then true
               else if decide (getUserRuleHash st (ZKPVerifier.msg_sender tx) = k)
                    then (k =? 0) && ruleExists_at st k
                    else ruleExists_at st k).
Proof.
  unfold commitRules.
  destruct (Z.eqb_spec h 0) as [ | Hh ]; [ discriminate | ].
  destruct d as [ | c d ]; [ discriminate | ]. simpl Nat.eqb. cbv iota.
  unfold getUserRuleHash.
  destruct (Z.eqb_spec (ruleHash (userRules_at st (ZKPVerifier.msg_sender tx))) 0)
    as [Hold | Hold]; simpl negb; cbv iota;
    intros H; injection H as <- <-;
    (split; [ exact Hh | split; [ discriminate | split ] ]).
  - intros u. apply userRules_at_insert.
  - intros k. rewrite ruleExists_at_insert.
    destruct (decide (h = k)); [ reflexivity | ].
    destruct (decide _) as [E | _]; [ | reflexivity ].
    rewrite <- E, Hold. reflexivity.
  - intros u. apply userRules_at_insert.
  - intros k. rewrite ruleExists_at_insert.
    destruct (decide (h = k)); [ reflexivity | ].
    unfold ruleExists_at at 1.
    destruct (decide _) as [E | Hne].
    + rewrite E, lookup_insert_eq. simpl.
      destruct (Z.eqb_spec k 0); [ congruence | reflexivity ].
    + rewrite lookup_insert_ne by exact Hne. reflexivity.
Qed.

Lemma revokeRules_inv (st st' : State) (tx : ZKPVerifier.Tx) (logs : list Log) :
  revokeRules st tx = Some (logs, st') ->
  isActive (userRules_at st (ZKPVerifier.msg_sender tx)) = true /\
  logs = [RuleRevoked (ZKPVerifier.msg_sender tx)
            (getUserRuleHash st (ZKPVerifier.msg_sender tx))
            (ZKPVerifier.block_timestamp tx)] /\
  (forall u, userRules_at st' u
             = if decide (ZKPVerifier.msg_sender tx = u)
               then {| ruleHash := ruleHash (userRules_at st u);
                       timestamp := timestamp (userRules_at st u);
                       description := description (userRules_at st u);
                       isActive := false |}
               else userRules_at st u) /\
  (forall k, ruleExists_at st' k
             = if decide (getUserRuleHash st (ZKPVerifier.msg_sender tx) = k)
               then false else ruleExists_at st k).
Proof.
  unfold revokeRules, getUserRuleHash.
  destruct (isActive (userRules_at st (ZKPVerifier.msg_sender tx))) eqn:Ha;
    [ | discriminate ].
  simpl negb. cbv iota. intros H. injection H as <- <-.
  split; [ reflexivity | split; [ reflexivity | split ] ].
  - intros u. rewrite userRules_at_insert.
    destruct (decide _) as [<- | ]; reflexivity.
  - intros k. apply ruleExists_at_insert.
Qed.

Lemma commitRules_succeeds (st : State) (tx : ZKPVerifier.Tx) (h : Z) (d : string) :
  h <> 0 -> d <> EmptyString ->
  exists logs st', commitRules st tx h d = Some (logs, st').
Proof.
  intros Hh Hd. unfold commitRules.
  destruct (Z.eqb_spec h 0); [ contradiction | ].
  destruct d; [ contradiction | ]. simpl.
  destruct (negb _); eauto.
Qed.

(** X1.  A commit of a non-zero hash with a non-empty description does
    not revert; after it the sender's entry reads back the committed hash,
    block time and description, the hash is reported as existing and the
    sender as active, a [RuleCommitted] event closes the log, and the
    entries of all other users are as before. *)
Theorem commitRules_round_trip (st : State) (tx : ZKPVerifier.Tx) (h : Z) (d : string) :
  h <> 0 -> d <> EmptyString ->
  exists logs st',
    commitRules st tx h d = Some (logs, st') /\
    getUserRuleHash st' (ZKPVerifier.msg_sender tx) = h /\
    getRuleCommitment st' (ZKPVerifier.msg_sender tx)
    = (h, ZKPVerifier.block_timestamp tx, d) /\
    verifyRuleHash st' h = true /\
    isRuleActive st' (ZKPVerifier.msg_sender tx) = true /\
    last logs
    = Some (RuleCommitted (ZKPVerifier.msg_sender tx) h d
              (ZKPVerifier.block_timestamp tx)) /\
    forall u, u <> ZKPVerifier.msg_sender tx ->
      getRuleCommitment st' u = getRuleCommitment st u /\
      isRuleActive st' u = isRuleActive st u.
Proof.
  intros Hh Hd.
  destruct (commitRules_succeeds st tx h d Hh Hd) as (logs & st' & E).
  exists logs, st'. split; [ exact E | ].
  pose proof (commitRules_inv _ _ _ _ _ _ E) as (_ & _ & Hu & Hx).
  unfold getUserRuleHash, getRuleCommitment, verifyRuleHash, isRuleActive.
  rewrite !Hu, Hx. rewrite !decide_True by reflexivity. simpl.
  destruct (Z.eqb_spec h 0); [ contradiction | ].
  repeat split.
  - unfold commitRules in E.
    destruct (h =? 0); [ discriminate | ].
    destruct (_ =? _)%nat; [ discriminate | ].
    destruct (negb _); injection E as <- _; reflexivity.
  - rewrite Hu, decide_False by congruence. reflexivity.
  - rewrite Hu, decide_False by congruence. reflexivity.
Qed.

Lemma commitRules_round_trip_witness :
  exists logs st',
    commitRules rules_deployed alice 77 "Payment Rules Commitment"
    = Some (logs, st') /\
    getUserRuleHash st' 8 = 77 /\
    verifyRuleHash st' 77 = true /\
    isRuleActive st' 8 = true.
Proof.
  destruct (commitRules_round_trip rules_deployed alice
              77 "Payment Rules Commitment" ltac:(discriminate) ltac:(discriminate))
    as (logs & st' & E & Hh & _ & Hx & Ha & _).
  exists logs, st'. auto.
Defined.

(** X2.  A revocation that did not revert switches the sender to inactive
    and the hash to not existing, but leaves the hash readable in the
    sender's entry; a second revocation by the same sender reverts. *)
Theorem revokeRules_keeps_hash (st st' : State) (tx tx' : ZKPVerifier.Tx)
    (logs : list Log) :
  revokeRules st tx = Some (logs, st') ->
  ZKPVerifier.msg_sender tx' = ZKPVerifier.msg_sender tx ->
  isRuleActive st' (ZKPVerifier.msg_sender tx) = false /\
  getUserRuleHash st' (ZKPVerifier.msg_sender tx)
  = getUserRuleHash st (ZKPVerifier.msg_sender tx) /\
  verifyRuleHash st' (getUserRuleHash st (ZKPVerifier.msg_sender tx)) = false /\
  revokeRules st' tx' = None.
Proof.
  intros E Hs.
  pose proof (revokeRules_inv _ _ _ _ E) as (_ & _ & Hu & Hx).
  unfold isRuleActive, getUserRuleHash, verifyRuleHash, revokeRules in *.
  rewrite Hs, !Hu, Hx. rewrite !decide_True by reflexivity. simpl.
  repeat split.
Qed.

Lemma revokeRules_keeps_hash_witness :
  revokeRules two_owners bob
  = Some ([RuleRevoked 9 77 1700000060], rule_step two_owners (bob, RevokeRules)) /\
  isRuleActive (rule_step two_owners (bob, RevokeRules)) 9 = false /\
  getUserRuleHash (rule_step two_owners (bob, RevokeRules)) 9 = 77 /\
  verifyRuleHash (rule_step two_owners (bob, RevokeRules)) 77 = false /\
  revokeRules (rule_step two_owners (bob, RevokeRules)) bob = None.
Proof.
  split; [ reflexivity | ].
  exact (revokeRules_keeps_hash two_owners _ bob bob _ eq_refl eq_refl).
Defined.

(** ** Ledgers *)

Lemma consistent_deployed : rules_consistent rules_deployed.
Proof. split; [ reflexivity | intros h H; discriminate H ]. Qed.

Lemma consistent_step (st : State) (c : ZKPVerifier.Tx * RuleCall) :
  rules_consistent st -> rules_consistent (rule_step st c).
Proof.
  intros [Hzero Hown]. destruct c as [tx [ h d | ]]; unfold rule_step; simpl.
  - destruct (commitRules st tx h d) as [ [logs st'] | ] eqn:E; [ | now split ].
    pose proof (commitRules_inv _ _ _ _ _ _ E) as (Hh & _ & Hu & Hx).
    split.
    + rewrite Hx. rewrite decide_False by exact Hh.
      destruct (decide _); [ | exact Hzero ]. rewrite Hzero. reflexivity.
    + intros k Hk. rewrite Hx in Hk.
      unfold getUserRuleHash, isRuleActive. 
      destruct (decide (h = k)) as [<- | Hne].
      * exists (ZKPVerifier.msg_sender tx). rewrite !Hu, !decide_True by reflexivity.
        simpl. destruct (Z.eqb_spec h 0); [ contradiction | auto ].
      * destruct (decide (getUserRuleHash st (ZKPVerifier.msg_sender tx) = k))
          as [Eold | Hold].
        -- apply andb_true_iff in Hk. destruct Hk as [Hk0 Hk].
           apply Z.eqb_eq in Hk0. subst k. congruence.
        -- destruct (Hown k Hk) as (u & Hu1 & Hu2).
           exists u. rewrite !Hu.
           destruct (decide (ZKPVerifier.msg_sender tx = u)) as [<- | ];
             [ contradiction | ].
           split; assumption.
  - destruct (revokeRules st tx) as [ [logs st'] | ] eqn:E; [ | now split ].
    pose proof (revokeRules_inv _ _ _ _ E) as (_ & _ & Hu & Hx).
    split.
    + rewrite Hx. destruct (decide _); [ reflexivity | exact Hzero ].
    + intros k Hk. rewrite Hx in Hk.
      destruct (decide _) as [ | Hne]; [ discriminate | ].
      destruct (Hown k Hk) as (u & Hu1 & Hu2).
      exists u. unfold getUserRuleHash, isRuleActive. rewrite !Hu.
      destruct (decide (ZKPVerifier.msg_sender tx = u)) as [<- | ];
        [ contradiction | ].
      split; assumption.
Qed.

Lemma consistent_run (st : State) (calls : list (ZKPVerifier.Tx * RuleCall)) :
  rules_consistent st -> rules_consistent (rule_run st calls).
Proof.
  revert st. induction calls as [ | c calls IH ]; intros st H; simpl.
  - exact H.
  - apply IH, consistent_step, H.
Qed.

(** X3.  After any sequence of commits and revocations since deployment,
    by whatever senders and whether they revert or not, a hash that is
    reported as existing is not zero and is the hash of a user who is
    reported as active. *)
Theorem existing_hash_has_active_owner
    (calls : list (ZKPVerifier.Tx * RuleCall)) (h : Z) :
  verifyRuleHash (rule_run rules_deployed calls) h = true ->
  h <> 0 /\
  exists user,
    getUserRuleHash (rule_run rules_deployed calls) user = h /\
    isRuleActive (rule_run rules_deployed calls) user = true.
Proof.
  pose proof (consistent_run _ calls consistent_deployed) as [Hzero Hown].
  intros H. split; [ | exact (Hown h H) ].
  intros ->. unfold verifyRuleHash in H. congruence.
Qed.

Lemma existing_hash_has_active_owner_witness :
  77 <> 0 /\
  exists user,
    getUserRuleHash
      (rule_run rules_deployed [(alice, CommitRules 77 "rules")]) user = 77 /\
    isRuleActive
      (rule_run rules_deployed [(alice, CommitRules 77 "rules")]) user = true.
Proof.
  exact (existing_hash_has_active_owner [(alice, CommitRules 77 "rules")] 77 eq_refl).
Defined.

(** X4.  The converse fails by design of the bookkeeping: when two users
    hold the same hash and one of them revokes it or commits another one,
    the hash is reported as not existing while the other user is still
    active with it. *)
Theorem shared_hash_is_dropped (st st' : State) (tx : ZKPVerifier.Tx)
    (other h : Z) (call : RuleCall) :
  isRuleActive st other = true ->
  getUserRuleHash st other = h ->
  getUserRuleHash st (ZKPVerifier.msg_sender tx) = h ->
  other <> ZKPVerifier.msg_sender tx ->
  match call with
  | CommitRules h' d => h' <> h /\ h' <> 0 /\ d <> EmptyString
  | RevokeRules => isRuleActive st (ZKPVerifier.msg_sender tx) = true
  end ->
  rule_step st (tx, call) = st' ->
  verifyRuleHash st' h = false /\
  isRuleActive st' other = true /\
  getUserRuleHash st' other = h.
Proof.
  intros Hact Hoh Hsh Hne Hcall <-. unfold rule_step. simpl.
  assert (Hnz : h <> 0).
  { unfold isRuleActive, getUserRuleHash in *.
    apply andb_true_iff in Hact. destruct Hact as [_ Hact].
    destruct (Z.eqb_spec (ruleHash (userRules_at st other)) 0);
      [ discriminate | congruence ]. }
  destruct call as [ h' d | ].
  - destruct Hcall as (Hh' & Hh'0 & Hd).
    destruct (commitRules_succeeds st tx h' d Hh'0 Hd) as (logs & st1 & E).
    rewrite E.
    pose proof (commitRules_inv _ _ _ _ _ _ E) as (_ & _ & Hu & Hx).
    unfold verifyRuleHash, isRuleActive, getUserRuleHash in *.
    rewrite Hx, !Hu.
    rewrite decide_False by exact Hh'.
    rewrite decide_True by exact Hsh.
    rewrite decide_False by congruence.
    destruct (Z.eqb_spec h 0); [ contradiction | ]. auto.
  - unfold isRuleActive in Hcall. apply andb_true_iff in Hcall.
    destruct Hcall as [Hcall _].
    unfold revokeRules. rewrite Hcall. simpl negb. cbv iota.
    unfold verifyRuleHash, isRuleActive, getUserRuleHash in *.
    rewrite ruleExists_at_insert, !userRules_at_insert.
    rewrite decide_True by exact Hsh.
    rewrite decide_False by congruence.
    fold (userRules_at st other). auto.
Qed.

Lemma shared_hash_is_dropped_witness :
  verifyRuleHash (rule_step two_owners (bob, RevokeRules)) 77 = false /\
  isRuleActive (rule_step two_owners (bob, RevokeRules)) 8 = true /\
  getUserRuleHash (rule_step two_owners (bob, RevokeRules)) 8 = 77.
Proof.
  exact (shared_hash_is_dropped two_owners _ bob 8 77 RevokeRules
           eq_refl eq_refl eq_refl ltac:(discriminate) eq_refl eq_refl).
Defined.

End RuleCommitmentContractFacts.

(** * The verifier contract over sequences of transactions *)
Module ZKPVerifierLedgerFacts.
Import ZKPVerifier Ledger Examples.

Lemma verifyGroth16Proof_true (proof : Proof) (signals : list Z) :
  _verifyGroth16Proof proof signals = true <->
  nondegenerate proof /\ length signals = 4%nat.
Proof.
  unfold _verifyGroth16Proof, nondegenerate.
  destruct (a proof) as [a0 a1], (b proof) as [b0 b1], (c proof) as [c0 c1]. simpl.
  destruct (Z.eqb_spec a0 0), (Z.eqb_spec a1 0), (Z.eqb_spec b0 0), (Z.eqb_spec b1 0),
           (Z.eqb_spec c0 0), (Z.eqb_spec c1 0), (Nat.eqb_spec (length signals) 4);
    simpl; split; try discriminate; try reflexivity;
    try (intros [(? & ? & ?) ?]; congruence);
    intros _; (split; [ repeat split; congruence | assumption ]).
Qed.

Lemma verifyPublicSignals_iff (signals : list Z) (ruleHash paymentAddress amount : Z) :
  _verifyPublicSignals signals ruleHash paymentAddress amount = true <->
  signals = [1; 1; 1; 1].
Proof.
  split; [ | intros ->; reflexivity ].
  unfold _verifyPublicSignals.
  destruct signals as [ | s0 [ | s1 [ | s2 [ | s3 [ | s4 rest ] ] ] ] ];
    simpl; try discriminate.
  rewrite !andb_true_iff, !Z.eqb_eq. intros [[[-> ->] ->] ->]. reflexivity.
Qed.

Lemma returns_true_iff (st : State) (tx : Tx) (proofId : Z)
    (zkProof : Proof) (signals : list Z) (ruleHash paymentAddress amount : Z) :
  (exists st', verifyAndAuthorizePayment st tx proofId zkProof signals
                 ruleHash paymentAddress amount = Some (true, st')) <->
  proofId <> 0 /\ isProofVerified st proofId = false /\
  nondegenerate zkProof /\ signals = [1; 1; 1; 1].
Proof.
  unfold verifyAndAuthorizePayment.
  destruct (Z.eqb_spec proofId 0) as [Hid | Hid].
  { split; [ intros (st' & H); discriminate H | intros (H & _); contradiction ]. }
  destruct (isProofVerified st proofId).
  { split; [ intros (st' & H); discriminate H | intros (_ & H & _); discriminate H ]. }
  split.
  - intros (st' & H). injection H as H _.
    apply andb_true_iff in H. destruct H as [Hp Hs].
    apply verifyGroth16Proof_true in Hp. apply verifyPublicSignals_iff in Hs.
    destruct Hp as [Hp _].
    split; [ exact Hid | split; [ reflexivity | split; [ exact Hp | exact Hs ] ] ].
  - intros (_ & _ & Hp & ->). eexists. f_equal. f_equal.
    apply andb_true_iff. split.
    + apply verifyGroth16Proof_true. split; [ exact Hp | reflexivity ].
    + reflexivity.
Qed.

(** X5.  The contract's verdict in full: a call returns true exactly when
    the proof id is not zero and not yet recorded as verified, no
    component of the proof is the zero pair, and the public signals are
    the four values 1.  The rule hash, the payment address, the amount,
    the sender and the block play no part in it. *)
Theorem verdict_of_the_contract (st : State) (tx tx' : Tx) (proofId : Z)
    (zkProof : Proof) (signals : list Z)
    (ruleHash paymentAddress amount ruleHash' paymentAddress' amount' : Z) :
  ((exists st', verifyAndAuthorizePayment st tx proofId zkProof signals
                  ruleHash paymentAddress amount = Some (true, st')) <->
   proofId <> 0 /\ isProofVerified st proofId = false /\
   nondegenerate zkProof /\ signals = [1; 1; 1; 1]) /\
  option_map fst (verifyAndAuthorizePayment st tx proofId zkProof signals
                    ruleHash paymentAddress amount)
  = option_map fst (verifyAndAuthorizePayment st tx' proofId zkProof signals
                      ruleHash' paymentAddress' amount').
Proof.
  split; [ apply returns_true_iff | ].
  unfold verifyAndAuthorizePayment.
  destruct (proofId =? 0); [ reflexivity | ].
  destruct (isProofVerified st proofId); reflexivity.
Qed.

Lemma step_lookup (st : State) (c : VerifyCall) (proofId : Z) :
  isProofVerified st proofId = true ->
  paymentProofs (verify_step st c) !! proofId = paymentProofs st !! proofId.
Proof.
  intros Hv. unfold verify_step, verifyAndAuthorizePayment.
  destruct (call_proofId c =? 0); [ reflexivity | ].
  destruct (isProofVerified st (call_proofId c)) eqn:E; [ reflexivity | ].
  simpl. apply lookup_insert_ne. intros Heq. rewrite Heq in E. congruence.
Qed.

(** X6.  A proof id recorded as verified stays so: whatever transactions
    follow, the record stored under it is not touched, and every later
    call with that id reverts. *)
Theorem verified_record_is_permanent (st : State) (calls : list VerifyCall)
    (proofId : Z) :
  isProofVerified st proofId = true ->
  paymentProofs (verify_run st calls) !! proofId = paymentProofs st !! proofId /\
  isProofVerified (verify_run st calls) proofId = true /\
  forall tx zkProof signals ruleHash paymentAddress amount,
    verifyAndAuthorizePayment (verify_run st calls) tx proofId zkProof signals
      ruleHash paymentAddress amount = None.
Proof.
  intros Hv.
  assert (H : paymentProofs (verify_run st calls) !! proofId
              = paymentProofs st !! proofId).
  { revert st Hv. induction calls as [ | c calls IH ]; intros st Hv; simpl.
    - reflexivity.
    - rewrite IH.
      + apply step_lookup, Hv.
      + unfold isProofVerified in *. rewrite step_lookup; exact Hv. }
  assert (Hv' : isProofVerified (verify_run st calls) proofId = true).
  { unfold isProofVerified in *. rewrite H. exact Hv. }
  split; [ exact H | split; [ exact Hv' | ] ].
  intros. unfold verifyAndAuthorizePayment. rewrite Hv'.
  destruct (proofId =? 0); reflexivity.
Qed.

Lemma verified_record_is_permanent_witness :
  isProofVerified (verify_run verifier_deployed [passing_call]) 5 = true /\
  paymentProofs (verify_run (verify_run verifier_deployed [passing_call])
                   [replayed_call; failing_call]) !! 5
  = paymentProofs (verify_run verifier_deployed [passing_call]) !! 5 /\
  isProofVerified (verify_run (verify_run verifier_deployed [passing_call])
                     [replayed_call; failing_call]) 5 = true.
Proof.
  split; [ reflexivity | ].
  destruct (verified_record_is_permanent
              (verify_run verifier_deployed [passing_call])
              [replayed_call; failing_call] 5 eq_refl) as (H1 & H2 & _).
  split; [ exact H1 | exact H2 ].
Defined.

Lemma recorded_step (st : State) (c : VerifyCall) :
  verifier_recorded st -> verifier_recorded (verify_step st c).
Proof.
  intros [Hrec Hhist]. unfold verify_step.
  destruct (verifyAndAuthorizePayment _ _ _ _ _ _ _ _) as [ [flag st'] | ] eqn:E;
    [ | now split ].
  unfold verifyAndAuthorizePayment in E.
  destruct (Z.eqb_spec (call_proofId c) 0) as [ | Hid ]; [ discriminate | ].
  destruct (isProofVerified st (call_proofId c)); [ discriminate | ].
  injection E as <- <-. split.
  - intros proofId pp. simpl.
    destruct (decide (call_proofId c = proofId)) as [<- | Hne].
    + rewrite lookup_insert_eq. intros H. injection H as <-. simpl.
      split; [ exact Hid | ]. intros H.
      apply andb_true_iff in H. destruct H as [Hp Hs].
      apply verifyGroth16Proof_true in Hp. apply verifyPublicSignals_iff in Hs.
      tauto.
    + rewrite lookup_insert_ne by exact Hne. apply Hrec.
  - intros user proofId. unfold getUserProofs. simpl.
    destruct (decide (msg_sender (call_tx c) = user)) as [<- | Hne].
    + rewrite lookup_insert_eq. simpl. intros Hin.
      apply in_app_or in Hin. destruct Hin as [Hin | [<- | []]].
      * destruct (decide (call_proofId c = proofId)) as [<- | Hne'].
        -- rewrite lookup_insert_eq. eauto.
        -- rewrite lookup_insert_ne by exact Hne'. apply (Hhist _ _ Hin).
      * rewrite lookup_insert_eq. eauto.
    + rewrite lookup_insert_ne by exact Hne. intros Hin.
      destruct (decide (call_proofId c = proofId)) as [<- | Hne'].
      * rewrite lookup_insert_eq. eauto.
      * rewrite lookup_insert_ne by exact Hne'. apply (Hhist _ _ Hin).
Qed.

Lemma recorded_run (st : State) (calls : list VerifyCall) :
  verifier_recorded st -> verifier_recorded (verify_run st calls).
Proof.
  revert st. induction calls as [ | c calls IH ]; intros st H; simpl.
  - exact H.
  - apply IH, recorded_step, H.
Qed.

(** X7.  After any sequence of calls since deployment, every proof id
    that reads as verified is not zero and is stored with a proof none of
    whose components is the zero pair and with the four signals 1, and
    every id in a user's history has a record. *)
Theorem verified_ids_passed_the_checks (calls : list VerifyCall) (proofId : Z) :
  (isProofVerified (verify_run verifier_deployed calls) proofId = true ->
   exists record,
     paymentProofs (verify_run verifier_deployed calls) !! proofId = Some record /\
     proofId <> 0 /\ nondegenerate (zkProof record) /\
     publicSignals record = [1; 1; 1; 1]) /\
  (forall user, In proofId (getUserProofs (verify_run verifier_deployed calls) user) ->
     exists record,
       paymentProofs (verify_run verifier_deployed calls) !! proofId = Some record).
Proof.
  assert (H0 : verifier_recorded verifier_deployed).
  { split.
    - intros id pp H. discriminate H.
    - intros user id H. destruct H. }
  pose proof (recorded_run _ calls H0) as [Hrec Hhist].
  split.
  - unfold isProofVerified.
    destruct (paymentProofs (verify_run verifier_deployed calls) !! proofId)
      as [ record | ] eqn:E; [ | discriminate ].
    intros Hv. exists record. destruct (Hrec _ _ E) as [Hid Hok].
    split; [ reflexivity | split; [ exact Hid | exact (Hok Hv) ] ].
  - intros user Hin. exact (Hhist user proofId Hin).
Qed.

Lemma verified_ids_passed_the_checks_witness :
  isProofVerified (verify_run verifier_deployed [passing_call; failing_call]) 5 = true /\
  isProofVerified (verify_run verifier_deployed [passing_call; failing_call]) 6 = false /\
  getUserProofs (verify_run verifier_deployed [passing_call; failing_call]) 9 = [6] /\
  exists record,
    paymentProofs (verify_run verifier_deployed [passing_call; failing_call]) !! 5
    = Some record /\
    5 <> 0 /\ nondegenerate (zkProof record) /\ publicSignals record = [1; 1; 1; 1].
Proof.
  split; [ reflexivity | ]. split; [ reflexivity | ]. split; [ reflexivity | ].
  exact (proj1 (verified_ids_passed_the_checks [passing_call; failing_call] 5) eq_refl).
Defined.

(** X8.  An attempt that fails does not use up its proof id: the id can
    be submitted again, a call with an acceptable proof then returns true
    and replaces what was recorded, rule hash, payment address and amount
    included, and the sender's history lists the id once per attempt. *)
Theorem failed_attempt_can_be_repeated (st st1 : State) (tx : Tx) (proofId : Z)
    (zkProof zkProof' : Proof) (signals : list Z)
    (ruleHash paymentAddress amount ruleHash' paymentAddress' amount' : Z) :
  verifyAndAuthorizePayment st tx proofId zkProof signals
    ruleHash paymentAddress amount = Some (false, st1) ->
  nondegenerate zkProof' ->
  exists st2,
    verifyAndAuthorizePayment st1 tx proofId zkProof' [1; 1; 1; 1]
      ruleHash' paymentAddress' amount' = Some (true, st2) /\
    paymentProofs st2 !! proofId
    = Some {| ZKPVerifier.zkProof := zkProof';
              publicSignals := [1; 1; 1; 1];
              ZKPVerifier.ruleHash := ruleHash';
              ZKPVerifier.paymentAddress := paymentAddress';
              ZKPVerifier.amount := amount';
              timestamp := block_timestamp tx;
              verified := true |} /\
    getUserProofs st2 (msg_sender tx)
    = getUserProofs st (msg_sender tx) ++ [proofId; proofId].
Proof.
  intros E Hp.
  pose proof E as Hst1. unfold verifyAndAuthorizePayment in Hst1.
  destruct (Z.eqb_spec proofId 0) as [ | Hid ]; [ discriminate | ].
  destruct (isProofVerified st proofId); [ discriminate | ].
  injection Hst1 as Hflag Hst1.
  assert (Hv1 : isProofVerified st1 proofId = false).
  { rewrite <- Hst1. unfold isProofVerified. simpl.
    rewrite lookup_insert_eq. simpl. exact Hflag. }
  assert (Hh1 : getUserProofs st1 (msg_sender tx)
                = getUserProofs st (msg_sender tx) ++ [proofId]).
  { rewrite <- Hst1. unfold getUserProofs at 1. simpl.
    rewrite lookup_insert_eq. reflexivity. }
  unfold verifyAndAuthorizePayment.
  destruct (Z.eqb_spec proofId 0); [ contradiction | ].
  rewrite Hv1.
  assert (Hok : _verifyGroth16Proof zkProof' [1; 1; 1; 1] = true).
  { apply verifyGroth16Proof_true. split; [ exact Hp | reflexivity ]. }
  rewrite Hok. simpl. eexists. split; [ reflexivity | ]. simpl. split.
  - rewrite lookup_insert_eq. reflexivity.
  - unfold getUserProofs at 1. simpl. rewrite lookup_insert_eq. simpl.
    rewrite Hh1, <- app_assoc. reflexivity.
Qed.

Lemma failed_attempt_can_be_repeated_witness :
  exists st1 st2,
    verifyAndAuthorizePayment verifier_deployed alice 5 sound_proof [1; 1; 0; 1]
      77 2 6000000 = Some (false, st1) /\
    verifyAndAuthorizePayment st1 alice 5 sound_proof [1; 1; 1; 1]
      78 3 9000000 = Some (true, st2) /\
    getUserProofs st2 8 = [5; 5].
Proof.
  eexists.
  destruct (failed_attempt_can_be_repeated verifier_deployed _ alice 5
              sound_proof sound_proof [1; 1; 0; 1] 77 2 6000000 78 3 9000000
              eq_refl)
    as (st2 & E & _ & Hh).
  { repeat split; discriminate. }
  exists st2. split; [ reflexivity | ]. split; [ exact E | exact Hh ].
Defined.

End ZKPVerifierLedgerFacts.

(** * The circuits outside the reference range *)
Module CircuitEdgeFacts.
Import Field FieldFacts Circomlib CircomlibFacts Circuits CircuitsFacts.
Import TimeConstraintHelpers Bits Scenarios Examples.

(** ** Comparators on arbitrary signals *)

(** What [LessThan(n)] outputs is decided by the residue it decomposes. *)
Lemma LessThan_sat_value (n : nat) (a b out : Z) :
  (n <= 252)%nat -> LessThan_sat n a b out ->
  (a + 2 ^ Z.of_nat n - b) mod p < 2 ^ Z.of_nat (S n) /\
  out = Z.b2z ((a + 2 ^ Z.of_nat n - b) mod p <? 2 ^ Z.of_nat n).
Proof.
  intros Hn (bits & Hsat & Hout).
  rewrite shiftl_1 in Hsat.
  pose proof Hsat as (Hlen & _ & _).
  apply Num2Bits_sound in Hsat; [ | lia | apply is_signal_mod ].
  destruct Hsat as [Hbits Hlc].
  pose proof (lc1_bound bits Hbits) as Hrange. rewrite Hlen, Hlc in Hrange.
  split; [ lia | ].
  rewrite (top_bit n bits _ Hlen Hbits Hlc) in Hout. rewrite Hout.
  destruct (Z.leb_spec (2 ^ Z.of_nat n) ((a + 2 ^ Z.of_nat n - b) mod p));
    destruct (Z.ltb_spec ((a + 2 ^ Z.of_nat n - b) mod p) (2 ^ Z.of_nat n));
    try lia; reflexivity.
Qed.

Lemma LessThan_w_sat_value (n : nat) (a b : Z) :
  (a + 2 ^ Z.of_nat n - b) mod p < 2 ^ Z.of_nat (S n) ->
  LessThan_sat n a b (LessThan_w n a b).
Proof.
  intros Hv. unfold LessThan_sat, LessThan_w.
  eexists. split; [ | reflexivity ].
  rewrite shiftl_1. apply Num2Bits_w_sat.
  pose proof (is_signal_mod (a + 2 ^ Z.of_nat n - b)) as [H0 _]. lia.
Qed.

Lemma LessThan_sat_true (n : nat) (a b : Z) :
  (n <= 252)%nat -> 0 <= a < 2 ^ Z.of_nat n -> 0 <= b <= 2 ^ Z.of_nat n -> a < b ->
  LessThan_sat n a b 1.
Proof.
  intros Hn Ha Hb Hlt.
  pose proof (LessThan_w_sat n a b Hn Ha Hb) as Hs.
  pose proof (LessThan_sound n a b _ Hn Ha Hb Hs) as Ho.
  rewrite Ho in Hs.
  replace (a <? b) with true in Hs by (symmetry; apply Z.ltb_lt; exact Hlt).
  exact Hs.
Qed.

Lemma GreaterEqThan_zero_sat_true (n : nat) (r : Z) :
  (n <= 252)%nat -> 0 <= r < 2 ^ Z.of_nat n -> GreaterEqThan_sat n r 0 1.
Proof.
  intros Hn Hr.
  pose proof (GreaterEqThan_w_sat n r 0 Hn Hr ltac:(lia)) as Hs.
  pose proof (GreaterEqThan_sound n r 0 _ Hn Hr ltac:(lia) Hs) as Ho.
  rewrite Ho in Hs.
  replace (0 <=? r) with true in Hs by (symmetry; apply Z.leb_le; lia).
  exact Hs.
Qed.

(** ** The modulo helper *)

(** Any remainder can be completed by a quotient of the field. *)
Lemma quotient_exists (dividend divisor remainder : Z) :
  is_signal divisor -> divisor <> 0 ->
  exists quotient,
    is_signal quotient /\
    dividend mod p = (quotient * divisor + remainder) mod p.
Proof.
  intros Hd Hnz.
  exists (((dividend - remainder) * finv divisor) mod p).
  split; [ apply is_signal_mod | ].
  rewrite <- Zplus_mod_idemp_l, Zmult_mod_idemp_l, <- Z.mul_assoc.
  rewrite <- Zmult_mod_idemp_r, (Z.mul_comm (finv divisor)).
  rewrite finv_correct by assumption.
  rewrite Z.mul_1_r, Zplus_mod_idemp_l. f_equal. ring.
Qed.

(** X9.  [Mod(n)] on a dividend and a divisor below [2 ^ n]: the
    constraint system is satisfied by exactly the remainders below the
    divisor, whatever the dividend is.  The value the template computes is
    one of them, and nothing ties the remainder to the dividend, because
    the quotient ranges over the whole field. *)
Theorem Mod_accepts_every_small_remainder (n : nat) (dividend divisor remainder : Z) :
  (n <= 252)%nat -> is_signal dividend -> 0 < divisor < 2 ^ Z.of_nat n ->
  is_signal remainder ->
  (Mod_sat n dividend divisor remainder <-> 0 <= remainder < divisor) /\
  Mod_sat n dividend divisor (Mod_w dividend divisor).
Proof.
  intros Hn Hdd Hdiv Hr.
  assert (Hpow : 2 ^ Z.of_nat n <= 2 ^ 252) by (apply Z.pow_le_mono_r; lia).
  pose proof p_big as Hp.
  assert (Hds : is_signal divisor) by (unfold is_signal; lia).
  assert (Hall : forall r, 0 <= r < divisor -> Mod_sat n dividend divisor r).
  { intros r Hrange.
    destruct (quotient_exists dividend divisor r Hds ltac:(lia)) as (q & Hq & E).
    exists q. split; [ exact Hq | split; [ exact E | split ] ].
    - apply LessThan_sat_true; lia.
    - apply GreaterEqThan_zero_sat_true; lia. }
  split; [ split | ].
  - intros (q & _ & _ & Hlt & Hgeq).
    apply GreaterEqThan_zero_sat_one in Hgeq; [ | exact Hn | exact Hr ].
    apply LessThan_sat_one in Hlt; [ lia | exact Hn | exact Hgeq | exact Hds ].
  - apply Hall.
  - apply Hall. unfold Mod_w. apply Z.mod_pos_bound. lia.
Qed.

Lemma Mod_accepts_every_small_remainder_witness :
  Mod_w 7 2 = 1 /\ Mod_sat 8 7 2 1 /\ Mod_sat 8 7 2 0.
Proof.
  assert (H7 : is_signal 7) by (split; [ discriminate | reflexivity ]).
  assert (H0 : is_signal 0) by (split; [ discriminate | reflexivity ]).
  split; [ reflexivity | split ].
  - exact (proj2 (Mod_accepts_every_small_remainder 8 7 2 0
                    ltac:(lia) H7 ltac:(lia) H0)).
  - exact (proj2 (proj1 (Mod_accepts_every_small_remainder 8 7 2 0
                           ltac:(lia) H7 ltac:(lia) H0)) ltac:(lia)).
Defined.

(** ** The amount check on amounts that do not fit 64 bits *)

Lemma LessEqThan_value (a b : Z) :
  0 <= b < 2 ^ 64 ->
  (a + Z.shiftl 1 (Z.of_nat 64) - fadd b 1) mod p = (a + 2 ^ 64 - b - 1) mod p.
Proof.
  intros Hb. unfold fadd. pose proof p_big.
  rewrite (Z.mod_small (b + 1)) by lia. rewrite shiftl_1.
  change (Z.of_nat 64) with 64. f_equal. ring.
Qed.

(** X10.  The amount check compares residues, not integers: for an input
    whose other signals are within their widths and whose payment amount
    is the residue [p - k] with [k + maxAmount < 2 ^ 64], an amount far
    above the cap, the constraints are satisfiable and every satisfying
    assignment has [amountValid = 1]. *)
Theorem amount_check_wraps_around (i : PaymentRulesInput) (k : Z) :
  in_widths i -> 1 <= k -> k + maxAmount i < 2 ^ 64 ->
  amount_ok (with_amount i (p - k)) = false /\
  PaymentRules_sat (with_amount i (p - k)) (PaymentRules_w (with_amount i (p - k))) /\
  forall o, PaymentRules_sat (with_amount i (p - k)) o ->
    amountValid o = 1 /\ isValid o = Z.b2z (address_ok i && time_ok i).
Proof.
  intros (Hpa & Ha1 & Ha2 & Ha3 & Ham & Hmax & Hts & Hlo & Hhi) Hk Hkb.
  pose proof p_big as Hp.
  assert (Hv : (p - k + 2 ^ 64 - maxAmount i - 1) mod p
               = 2 ^ 64 - k - maxAmount i - 1).
  { rewrite <- (Z.mod_add _ (-1)) by lia. rewrite Z.mod_small by lia. ring. }
  split; [ | split ].
  - unfold amount_ok. simpl. apply Z.leb_gt. lia.
  - unfold PaymentRules_sat, PaymentRules_w. simpl.
    do 5 eexists.
    split; [ apply AddressWhitelistCheck_w_sat | ].
    split.
    { unfold LessEqThan_sat, LessEqThan_w. apply LessThan_w_sat_value.
      pose proof (LessEqThan_value (p - k) (maxAmount i) Hmax) as E.
      rewrite shiftl_1 in E. rewrite E, Hv.
      change (2 ^ Z.of_nat 65) with (2 ^ 65). lia. }
    split; [ apply TimeConstraintCheck_w_sat; assumption | ].
    repeat split; apply AND_w_sat.
  - intros o (ac & mc & tc & ag & fa & Hac & Hmc & Htc & Hag & Hfa & Eo & Ea & Em & Et).
    simpl in *.
    apply AddressWhitelistCheck_sound in Hac; try assumption.
    apply TimeConstraintCheck_sound in Htc; try assumption.
    unfold LessEqThan_sat in Hmc.
    apply LessThan_sat_value in Hmc; [ | lia ]. destruct Hmc as [_ Hmc].
    pose proof (LessEqThan_value (p - k) (maxAmount i) Hmax) as E.
    rewrite shiftl_1 in E. rewrite E, Hv in Hmc.
    replace (2 ^ 64 - k - maxAmount i - 1 <? 2 ^ Z.of_nat 64) with true in Hmc
      by (symmetry; apply Z.ltb_lt; change (2 ^ Z.of_nat 64) with (2 ^ 64); lia).
    subst ac mc tc.
    apply (AND_sound _ true) in Hag. subst ag.
    apply AND_sound in Hfa. subst fa.
    rewrite Em, Eo. split; [ reflexivity | ].
    unfold address_ok, time_ok. rewrite andb_true_r. reflexivity.
Qed.

Lemma amount_check_wraps_around_witness :
  maxAmount example_input = 100 /\
  paymentAmount (with_amount example_input (p - 1)) = p - 1 /\
  amount_ok (with_amount example_input (p - 1)) = false /\
  forall o, PaymentRules_sat (with_amount example_input (p - 1)) o ->
    amountValid o = 1 /\ isValid o = 1.
Proof.
  split; [ reflexivity | ]. split; [ reflexivity | ].
  destruct (amount_check_wraps_around example_input 1 example_input_in_widths
              ltac:(lia) ltac:(reflexivity)) as (H1 & _ & H3).
  split; [ exact H1 | exact H3 ].
Defined.

(** X11.  An amount between [2 ^ 64 + maxAmount] and [p - 2 ^ 64] cannot
    be proved about at all: the constraint system has no satisfying
    assignment, whatever the other inputs are. *)
Theorem oversized_amount_has_no_proof (i : PaymentRulesInput) (o : PaymentRulesOutput) :
  0 <= maxAmount i < 2 ^ 64 ->
  2 ^ 64 + maxAmount i < paymentAmount i <= p - 2 ^ 64 ->
  ~ PaymentRules_sat i o.
Proof.
  intros Hmax Ha (ac & mc & tc & ag & fa & _ & Hmc & _).
  pose proof p_big as Hp.
  unfold LessEqThan_sat in Hmc.
  apply LessThan_sat_value in Hmc; [ | lia ]. destruct Hmc as [Hmc _].
  pose proof (LessEqThan_value (paymentAmount i) (maxAmount i) Hmax) as E.
  rewrite shiftl_1 in E. rewrite E in Hmc.
  rewrite Z.mod_small in Hmc by lia.
  change (2 ^ Z.of_nat 65) with (2 ^ 65) in Hmc. lia.
Qed.

Lemma oversized_amount_has_no_proof_witness :
  paymentAmount (with_amount example_input (2 ^ 64 + 101)) = 2 ^ 64 + 101 /\
  forall o, ~ PaymentRules_sat (with_amount example_input (2 ^ 64 + 101)) o.
Proof.
  split; [ reflexivity | ]. intros o.
  exact (oversized_amount_has_no_proof (with_amount example_input (2 ^ 64 + 101)) o
           ltac:(simpl; lia) ltac:(split; [ reflexivity | discriminate ])).
Defined.

End CircuitEdgeFacts.

(** * The two paths of the prover and the readers of the signals *)
Module ProverPathsFacts.
Import Js Types Prover ProverFacts Scenarios Examples.
Open Scope string_scope.

(** ** Addresses as numbers *)

Lemma toLowerCase_length (s : string) : String.length (toLowerCase s) = String.length s.
Proof. induction s as [ | c s IH ]; simpl; [ reflexivity | now rewrite IH ]. Qed.

Lemma toLowerCase_empty (s : string) : toLowerCase s = EmptyString -> s = EmptyString.
Proof. destruct s; [ reflexivity | discriminate ]. Qed.

Lemma lower_char_idempotent (c : ascii) : lower_char (lower_char c) = lower_char c.
Proof.
  destruct c as [ [ | ] [ | ] [ | ] [ | ] [ | ] [ | ] [ | ] [ | ] ]; reflexivity.
Qed.

Lemma toLowerCase_idempotent (s : string) : toLowerCase (toLowerCase s) = toLowerCase s.
Proof.
  induction s as [ | c s IH ]; simpl; [ reflexivity | ].
  now rewrite lower_char_idempotent, IH.
Qed.

(** The number of an address depends on its lower-case form only. *)
Lemma addressToNumber_lower (x y : string) :
  toLowerCase x = toLowerCase y -> addressToNumber x = addressToNumber y.
Proof.
  intros E. unfold addressToNumber.
  rewrite <- (toLowerCase_length x), <- (toLowerCase_length y), E.
  assert (Hx : String.eqb x EmptyString = String.eqb y EmptyString).
  { destruct x, y; try reflexivity; discriminate E. }
  rewrite Hx. reflexivity.
Qed.

Lemma addressToNumber_short (addr : string) :
  (String.length addr < 42)%nat -> addressToNumber addr = 0%Z.
Proof.
  intros H. unfold addressToNumber.
  apply Nat.ltb_lt in H. rewrite H, orb_true_r. reflexivity.
Qed.

Lemma address_or_default_lower (l : list string) (k : nat) (a : string) :
  nth_error l k = Some a ->
  addressToNumber (address_or_default l k) = addressToNumber a.
Proof.
  intros H. unfold address_or_default. rewrite H.
  destruct (String.eqb_spec a EmptyString) as [-> | ]; reflexivity.
Qed.

Lemma address_or_default_missing (l : list string) (k : nat) :
  (length l <= k)%nat -> addressToNumber (address_or_default l k) = 0%Z.
Proof.
  intros H. unfold address_or_default.
  apply nth_error_None in H. rewrite H. reflexivity.
Qed.

Lemma circuit_input_value (hour : Z) (plan : PaymentPlan) (rules : UserRules) :
  circuit_input hour plan rules
  = Some {| Circuits.paymentAddress := addressToNumber (toAddress plan);
            Circuits.paymentAmount := amount plan;
            Circuits.paymentTimestamp := hour;
            Circuits.allowedAddress1 :=
              addressToNumber (address_or_default (allowedAddresses rules) 0);
            Circuits.allowedAddress2 :=
              addressToNumber (address_or_default (allowedAddresses rules) 1);
            Circuits.allowedAddress3 :=
              addressToNumber (address_or_default (allowedAddresses rules) 2);
            Circuits.maxAmount := maxAmount rules;
            Circuits.minHour := fst (allowedHours rules);
            Circuits.maxHour := snd (allowedHours rules) |}.
Proof. unfold circuit_input. rewrite plan_amount_spec. reflexivity. Qed.

(** The circuit input of a plan and rules whose amounts and hours fit the
    comparators is within the widths: the address numbers always are. *)
Lemma circuit_input_in_widths (hour : Z) (plan : PaymentPlan) (rules : UserRules)
    (input : Circuits.PaymentRulesInput) :
  plan_fits hour plan rules ->
  circuit_input hour plan rules = Some input ->
  Circuits.in_widths input.
Proof.
  intros (Ham & Hmax & Hh & Hlo & Hhi) E.
  rewrite circuit_input_value in E. injection E as <-.
  assert (Haddr : forall a, Field.is_signal (addressToNumber a)).
  { intros a. pose proof (addressToNumber_range a). pose proof FieldFacts.p_big.
    unfold Field.is_signal. lia. }
  unfold Circuits.in_widths. simpl. repeat split; try apply Haddr; lia.
Qed.

(** X12.  A payment address shorter than 42 characters is mapped to 0,
    and so is every slot of the whitelist that the rules leave empty: with
    fewer than three allowed addresses the circuit input built for such a
    payment has its address equal to the third allowed address, and the
    address check of the circuit passes, whether or not the address is on
    the list. *)
Theorem short_address_matches_empty_slot (hour : Z) (plan : PaymentPlan)
    (rules : UserRules) :
  (String.length (toAddress plan) < 42)%nat ->
  (length (allowedAddresses rules) < 3)%nat ->
  exists input,
    circuit_input hour plan rules = Some input /\
    Circuits.paymentAddress input = 0%Z /\
    Circuits.allowedAddress3 input = 0%Z /\
    Circuits.address_ok input = true.
Proof.
  intros Hshort Hfew. rewrite circuit_input_value. eexists.
  split; [ reflexivity | ]. simpl.
  unfold Circuits.address_ok. simpl.
  rewrite (addressToNumber_short _ Hshort).
  rewrite (address_or_default_missing _ 2) by lia.
  repeat split. apply orb_true_r.
Qed.

Lemma short_address_matches_empty_slot_witness :
  includes (allowedAddresses demo_rules) "0xdead" = false /\
  exists input,
    circuit_input 14 (to_address demo_plan "0xdead") demo_rules = Some input /\
    Circuits.paymentAddress input = 0%Z /\
    Circuits.allowedAddress3 input = 0%Z /\
    Circuits.address_ok input = true.
Proof.
  split; [ reflexivity | ].
  exact (short_address_matches_empty_slot 14 (to_address demo_plan "0xdead") demo_rules
           ltac:(simpl; lia) ltac:(simpl; lia)).
Defined.

(** ** The verdict of the proving path *)

Lemma signal_of_bit (b : bool) : Number_toString (Z.b2z b) = signal_of_bool b.
Proof. destruct b; reflexivity. Qed.

(** X13.  With the circuit files in place and a proving oracle that
    returns what the circuit computes, a plan and rules whose amounts and
    hours fit the comparators get four public signals: the three checks
    on the circuit input (the address compared as a number with the first
    three allowed addresses, the amount with the cap, the clock's hour
    with the allowed hours) and, in front, their conjunction, which is
    also the artifact's [isValid]. *)
Theorem verdict_of_the_proving_path (hour : Z) (plan : PaymentPlan) (rules : UserRules) :
  plan_fits hour plan rules ->
  exists input artifact,
    circuit_input hour plan rules = Some input /\
    generatePaymentProof (honest_prover hour) plan rules = Some artifact /\
    publicSignals artifact
    = List.map signal_of_bool
        [Circuits.address_ok input && Circuits.amount_ok input && Circuits.time_ok input;
         Circuits.address_ok input; Circuits.amount_ok input; Circuits.time_ok input] /\
    isValid artifact
    = Circuits.address_ok input && Circuits.amount_ok input && Circuits.time_ok input.
Proof.
  intros Hfit.
  destruct (circuit_input hour plan rules) as [ input | ] eqn:Hin;
    [ | rewrite circuit_input_value in Hin; discriminate Hin ].
  pose proof (circuit_input_in_widths _ _ _ _ Hfit Hin) as Hw.
  pose proof (CircuitsFacts.PaymentRules_w_sat input Hw) as Hsat.
  destruct (CircuitsFacts.PaymentRules_sound input _ Hw Hsat) as (Ha & Hm & Ht & Hv).
  unfold generatePaymentProof, honest_prover.
  cbn [circuitFilesExist currentHour fullProve negb].
  rewrite Hin. unfold honest_fullProve.
  exists input. eexists. split; [ reflexivity | ]. split; [ reflexivity | ].
  cbn [publicSignals isValid List.map].
  rewrite Ha, Hm, Ht, Hv, !signal_of_bit.
  split; [ reflexivity | ].
  destruct (Circuits.address_ok input && Circuits.amount_ok input
            && Circuits.time_ok input); reflexivity.
Qed.

Lemma verdict_of_the_proving_path_witness :
  plan_fits 14 demo_plan demo_rules /\
  exists input artifact,
    circuit_input 14 demo_plan demo_rules = Some input /\
    generatePaymentProof (honest_prover 14) demo_plan demo_rules = Some artifact /\
    publicSignals artifact
    = List.map signal_of_bool
        [Circuits.address_ok input && Circuits.amount_ok input && Circuits.time_ok input;
         Circuits.address_ok input; Circuits.amount_ok input; Circuits.time_ok input] /\
    isValid artifact
    = Circuits.address_ok input && Circuits.amount_ok input && Circuits.time_ok input.
Proof.
  assert (H : plan_fits 14 demo_plan demo_rules).
  { unfold plan_fits. simpl. lia. }
  split; [ exact H | ].
  exact (verdict_of_the_proving_path 14 demo_plan demo_rules H).
Defined.

(** ** Letter case *)

Lemma includes_In (l : list string) (x : string) : includes l x = true <-> In x l.
Proof.
  unfold includes. rewrite existsb_exists. split.
  - intros (y & Hy & E). apply String.eqb_eq in E. now subst.
  - intros H. exists x. split; [ exact H | apply String.eqb_refl ].
Qed.

(** X14.  The two paths of the prover disagree on letter case.  When the
    payment address differs from one of the first three allowed addresses
    only in the case of its letters and is not itself on the list, and
    amount and hour are within the rules, the proving path (with an oracle
    that returns what the circuit computes) yields a valid artifact and the
    direct evaluation an invalid one. *)
Theorem prover_paths_disagree_on_letter_case (hour : Z) (plan : PaymentPlan)
    (rules : UserRules) (k : nat) (allowed : string) :
  plan_fits hour plan rules ->
  (k < 3)%nat -> nth_error (allowedAddresses rules) k = Some allowed ->
  toLowerCase (toAddress plan) = toLowerCase allowed ->
  ~ In (toAddress plan) (allowedAddresses rules) ->
  (amount plan <= maxAmount rules)%Z ->
  (fst (allowedHours rules) <= hour <= snd (allowedHours rules))%Z ->
  option_map isValid (generatePaymentProof (honest_prover hour) plan rules) = Some true /\
  option_map isValid (generatePaymentProof (manual_prover hour) plan rules) = Some false.
Proof.
  intros Hfit Hk Hnth Hcase Hnotin Ham Hhour. split.
  - pose proof (circuit_input_value hour plan rules) as Hin.
    pose proof (circuit_input_in_widths _ _ _ _ Hfit Hin) as Hw.
    unfold honest_prover.
    rewrite (honest_prover_verdict hour plan rules _ Hin Hw). f_equal.
    unfold Circuits.address_ok, Circuits.amount_ok, Circuits.time_ok. simpl.
    rewrite (addressToNumber_lower _ _ Hcase).
    repeat (apply andb_true_iff; split); try (apply Z.leb_le; lia).
    destruct k as [ | [ | [ | k ] ] ]; [ | | | lia ];
      rewrite (address_or_default_lower _ _ _ Hnth), Z.eqb_refl;
      rewrite ?orb_true_r; reflexivity.
  - rewrite fallback_artifact by reflexivity. simpl.
    rewrite validateRulesManually_spec.
    destruct (includes (allowedAddresses rules) (toAddress plan)) eqn:E;
      [ | reflexivity ].
    apply includes_In in E. contradiction.
Qed.

Lemma prover_paths_disagree_on_letter_case_witness :
  option_map isValid
    (generatePaymentProof (honest_prover 14)
       (to_address demo_plan "0xf2431b618b5b02923922c525885dbffcdb9de853") demo_rules)
  = Some true /\
  option_map isValid
    (generatePaymentProof (manual_prover 14)
       (to_address demo_plan "0xf2431b618b5b02923922c525885dbffcdb9de853") demo_rules)
  = Some false.
Proof.
  apply (prover_paths_disagree_on_letter_case 14
           (to_address demo_plan "0xf2431b618b5b02923922c525885dbffcdb9de853")
           demo_rules 0 "0xF2431b618B5b02923922c525885DBfFcdb9DE853").
  - unfold plan_fits. simpl. lia.
  - lia.
  - reflexivity.
  - reflexivity.
  - simpl. intros [H | [H | []]]; discriminate H.
  - simpl. lia.
  - simpl. lia.
Defined.

(** ** Reading the signals *)

Import PaymentSystem.

(** X15.  Both readers of the public signals decode what the circuit
    outputs: for an input within the widths and any satisfying assignment,
    [analyzeProofResults] returns the three reference checks and their
    conjunction, and [interpretViolationSignals] lists exactly the checks
    that fail, in the order address, amount, time. *)
Theorem readers_decode_circuit_outputs (i : Circuits.PaymentRulesInput)
    (o : Circuits.PaymentRulesOutput) :
  Circuits.in_widths i -> Circuits.PaymentRules_sat i o ->
  LocalZKPVerifier.analyzeProofResults (signals_of_output o)
  = {| LocalZKPVerifier.isValid :=
         Circuits.address_ok i && Circuits.amount_ok i && Circuits.time_ok i;
       LocalZKPVerifier.addressValid := Circuits.address_ok i;
       LocalZKPVerifier.amountValid := Circuits.amount_ok i;
       LocalZKPVerifier.timeValid := Circuits.time_ok i |} /\
  interpretViolationSignals (signals_of_output o)
  = ((if Circuits.address_ok i then [] else [address_not_allowed]) ++
     (if Circuits.amount_ok i then [] else [amount_over_cap]) ++
     (if Circuits.time_ok i then [] else [time_constraint_violated]))%list.
Proof.
  intros Hw Hsat.
  destruct (CircuitsFacts.PaymentRules_sound i o Hw Hsat) as (Ha & Hm & Ht & Hv).
  unfold signals_of_output. rewrite Ha, Hm, Ht, Hv.
  destruct (Circuits.address_ok i), (Circuits.amount_ok i), (Circuits.time_ok i);
    split; reflexivity.
Qed.

Lemma readers_decode_circuit_outputs_witness :
  interpretViolationSignals
    (signals_of_output (Circuits.PaymentRules_w (Examples.with_amount example_input 101)))
  = [amount_over_cap] /\
  LocalZKPVerifier.amountValid
    (LocalZKPVerifier.analyzeProofResults
       (signals_of_output (Circuits.PaymentRules_w (Examples.with_amount example_input 101))))
  = false.
Proof.
  assert (Hw : Circuits.in_widths (Examples.with_amount example_input 101)).
  { unfold Circuits.in_widths, Field.is_signal. simpl.
    repeat split; (discriminate || reflexivity). }
  destruct (readers_decode_circuit_outputs _ _ Hw
              (CircuitsFacts.PaymentRules_w_sat _ Hw)) as [H1 H2].
  split; [ exact H2 | ]. rewrite H1. reflexivity.
Defined.

(** X16.  On an artifact of the direct evaluation the readers find
    nothing: it carries one signal, so [interpretViolationSignals] names
    no violated rule even when the artifact is invalid, and
    [analyzeProofResults] reports each of the three checks as failed even
    when the artifact is valid. *)
Theorem readers_find_nothing_in_fallback_artifact (env : Prover.Env)
    (plan : PaymentPlan) (rules : UserRules) :
  circuitFilesExist env = false ->
  exists artifact,
    generatePaymentProof env plan rules = Some artifact /\
    isValid artifact = validateRulesManually (currentHour env) plan rules /\
    interpretViolationSignals (publicSignals artifact) = [] /\
    LocalZKPVerifier.analyzeProofResults (publicSignals artifact)
    = {| LocalZKPVerifier.isValid := isValid artifact;
         LocalZKPVerifier.addressValid := false;
         LocalZKPVerifier.amountValid := false;
         LocalZKPVerifier.timeValid := false |}.
Proof.
  intros H. rewrite (fallback_artifact env plan rules H). eexists.
  split; [ reflexivity | ]. simpl.
  destruct (validateRulesManually (currentHour env) plan rules); repeat split.
Qed.

Lemma readers_find_nothing_in_fallback_artifact_witness :
  exists artifact,
    generatePaymentProof (manual_prover 20) demo_plan demo_rules = Some artifact /\
    isValid artifact = false /\
    interpretViolationSignals (publicSignals artifact) = [].
Proof.
  destruct (readers_find_nothing_in_fallback_artifact (manual_prover 20)
              demo_plan demo_rules eq_refl) as (artifact & Hgen & Hv & Hi & _).
  exists artifact. split; [ exact Hgen | ]. split; [ exact Hv | exact Hi ].
Defined.

(** ** The signals of a manual evaluation *)

(** X17.  [generateViolationSignals] lays its result out as the circuit
    does: four signals, the three checks in the clear (the destination
    against the list as it is written, the amount against the cap, the
    hour against the allowed hours) behind their conjunction;
    [interpretViolationSignals] reads back exactly the checks that fail,
    and the local structural check accepts the signals exactly when the
    proof is an object and all three checks pass. *)
Theorem generateViolationSignals_layout (hour : Z) (plan : PaymentPlan)
    (rules : UserRules) :
  let addressValid := includes (allowedAddresses rules) (toAddress plan) in
  let amountValid := (amount plan <=? maxAmount rules)%Z in
  let timeValid := ((fst (allowedHours rules) <=? hour)%Z
                    && (hour <=? snd (allowedHours rules))%Z) in
  let signals := ViolationSignals.generateViolationSignals hour plan rules in
  signals = List.map signal_of_bool
              [addressValid && amountValid && timeValid;
               addressValid; amountValid; timeValid] /\
  interpretViolationSignals signals
  = ((if addressValid then [] else [address_not_allowed]) ++
     (if amountValid then [] else [amount_over_cap]) ++
     (if timeValid then [] else [time_constraint_violated]))%list /\
  forall proof,
    OnChainZKPVerifier.verifyProofLocally proof signals
    = truthy proof && typeof_object proof
      && (addressValid && amountValid && timeValid).
Proof.
  cbv zeta.
  unfold ViolationSignals.generateViolationSignals,
    OnChainZKPVerifier.verifyProofLocally.
  destruct (includes (allowedAddresses rules) (toAddress plan)),
           (amount plan <=? maxAmount rules)%Z,
           ((fst (allowedHours rules) <=? hour)%Z && (hour <=? snd (allowedHours rules))%Z);
    (split; [ reflexivity | split; [ reflexivity | ] ]);
    intros proof; destruct (truthy proof), (typeof_object proof); reflexivity.
Qed.

End ProverPathsFacts.

(** * The pipeline: what a run depends on and where it can end *)
Module PipelineFacts.
Import Js Types PaymentSystem Protocol Scenarios Examples PaymentSystemFacts.

#[local] Arguments bind : simpl never.
#[local] Arguments sendLog : simpl never.
#[local] Arguments saveProcessingLog : simpl never.
#[local] Arguments call : simpl never.

(** ** The order of the allowed addresses *)

Lemma commitRules_permutation (env : Env) (rules1 rules2 : UserRules) :
  Permutation (allowedAddresses rules1) (allowedAddresses rules2) ->
  maxAmount rules1 = maxAmount rules2 ->
  allowedHours rules1 = allowedHours rules2 ->
  commitRules env rules1 = commitRules env rules2.
Proof.
  intros Hp Hm Hh. unfold commitRules, RuleCommitment.hashRules.
  rewrite (RuleCommitmentFacts.sort_permutation _ _ Hp), Hm, Hh. reflexivity.
Qed.

(** X18.  A run of [processPayment] does not depend on the order in which
    the rules list the allowed addresses: the commit sorts the list in
    place, and the planner, the prover and the verifier are handed the
    rules with the sorted list. *)
Theorem run_ignores_whitelist_order (env : Env) (input : PaymentInput)
    (rules1 rules2 : UserRules) :
  Permutation (allowedAddresses rules1) (allowedAddresses rules2) ->
  maxAmount rules1 = maxAmount rules2 ->
  allowedHours rules1 = allowedHours rules2 ->
  processPayment env input rules1 = processPayment env input rules2.
Proof.
  intros Hp Hm Hh. unfold processPayment, processPayment_try.
  rewrite (commitRules_permutation env rules1 rules2 Hp Hm Hh). reflexivity.
Qed.

Lemma run_ignores_whitelist_order_witness :
  allowedAddresses rules_abc <> allowedAddresses rules_cab /\
  processPayment (over_cap_env all_writes_succeed) InputDemo rules_abc
  = processPayment (over_cap_env all_writes_succeed) InputDemo rules_cab.
Proof.
  split; [ discriminate | ].
  exact (run_ignores_whitelist_order (over_cap_env all_writes_succeed) InputDemo
           rules_abc rules_cab RuleCommitmentFacts.rules_abc_cab_permutation
           eq_refl eq_refl).
Defined.

(** ** A commit that fails *)

(** X19.  When committing the rules fails, [commitRules] returns a null
    hash and the run ends in the catch-all handler before the invoice is
    parsed: nothing but the commit and log calls has happened, and the
    result is the error result, or a rejection when the handler's own log
    write fails. *)
Theorem failed_commit_ends_in_error (env : Env) (input : PaymentInput)
    (userRules : UserRules) :
  commit_ok env = false ->
  (forall e, In e (fst (processPayment env input userRules)) ->
     e = CommitRules \/ is_log e = true) /\
  snd (processPayment env input userRules)
  = if db_ok env error_step
    then Some {| success := false; status := status_error; violations := [] |}
    else None.
Proof.
  intros Hc. unfold processPayment, processPayment_try, commitRules.
  unfold sendLog, saveProcessingLog, call, bind, guard, throw.
  rewrite Hc. simpl.
  destruct (observer_ok env commit active), (db_ok env rule_committed); simpl;
    (split; [ intros e He; simpl in He; intuition (subst; auto) | reflexivity ]).
Qed.

Lemma failed_commit_ends_in_error_witness :
  commit_ok failing_commit_env = false /\
  snd (processPayment failing_commit_env InputDemo demo_rules)
  = Some {| success := false; status := status_error; violations := [] |}.
Proof.
  split; [ reflexivity | ].
  exact (proj2 (failed_commit_ends_in_error failing_commit_env InputDemo
                  demo_rules eq_refl)).
Defined.

Lemma try_authorized (env : Env) (input : PaymentInput) (userRules : UserRules)
    (t : list Event) (r : option ProcessResult) :
  processPayment_try env input userRules = (t, r) ->
  In (VerifyProofOnChain true) t ->
  exists plan rules ruleHash artifact,
    Prover.generatePaymentProof (prover env) plan rules = Some artifact /\
    OnChainZKPVerifier.authorized
      (fst (OnChainZKPVerifier.verifyProofOnChain (verifier env) (chain env)
              (Prover.proof artifact) (Prover.publicSignals artifact)
              ruleHash (toAddress plan) (amount plan))) = true.
Proof.
  intros H Hin. unfold processPayment_try in H. cbv zeta in H.
  exec H idtac.
  all: simpl in Hin.
  all: try (exfalso; intuition congruence).
  all: match goal with
       | E2 : Prover.generatePaymentProof _ ?plan ?rules = Some ?artifact,
         E4 : OnChainZKPVerifier.verifyProofOnChain _ _ _ _ ?ruleHash _ _ = _ |- _ =>
           exists plan, rules, ruleHash, artifact;
           split; [ exact E2 | rewrite E4; assumption ]
       end.
Qed.

Lemma run_reaches_Executed (t : list Event) (s : Stage) :
  run s t = Some Executed -> s = Executed \/ In ExecutePayment t.
Proof.
  revert s. induction t as [ | e t IH ]; intros s; simpl.
  - intros H. injection H as ->. now left.
  - destruct (step s e) as [ s1 | ] eqn:E; [ | discriminate ].
    intros Hrun. destruct (IH s1 Hrun) as [-> | Hin]; [ | now right; right ].
    destruct e, s; simpl in E; try discriminate; try (now left);
      repeat match goal with
             | b : bool |- _ => destruct b
             | o : option bool |- _ => destruct o
             end; simpl in E; try discriminate.
    right. now left.
Qed.

(** X20.  Without the circuit files no run pays, whatever the verifier's
    configuration and the ledger: the artifact of the direct evaluation
    carries one public signal, which neither the contract nor the local
    structural check accepts, so the executor is never invoked and a run
    ends as a rule violation, a failed verification or an error. *)
Theorem manual_mode_never_pays (env : Env) (input : PaymentInput)
    (userRules : UserRules) :
  Prover.circuitFilesExist (prover env) = false ->
  (forall e, In e (fst (processPayment env input userRules)) ->
     e <> ExecutePayment /\ e <> VerifyProofOnChain true) /\
  (forall result, snd (processPayment env input userRules) = Some result ->
     success result = false /\
     (status result = status_rule_violation \/
      status result = status_verification_failed \/
      status result = status_error)).
Proof.
  intros Hfiles.
  assert (Hnever : ~ In (VerifyProofOnChain true)
                        (fst (processPayment env input userRules))).
  { intros Hin. unfold processPayment in Hin.
    destruct (processPayment_try env input userRules) as [t r] eqn:E.
    assert (Hin' : In (VerifyProofOnChain true) t).
    { destruct r; simpl in Hin; [ exact Hin | ].
      apply in_app_or in Hin. destruct Hin as [Hin | [Hin | []]];
        [ exact Hin | discriminate Hin ]. }
    destruct (try_authorized _ _ _ _ _ E Hin')
      as (plan & rules & ruleHash & artifact & Hgen & Hauth).
    rewrite (ProverFacts.fallback_artifact _ plan rules Hfiles) in Hgen.
    injection Hgen as <-. simpl in Hauth.
    apply VerifierFacts.verifyProofOnChain_authorized in Hauth.
    apply VerifierFacts.four_bits_all_one_shape in Hauth.
    destruct Hauth as [Hlen _]. discriminate Hlen. }
  destruct (processPayment_follows_protocol env input userRules) as (s & Hrun & Hfit).
  assert (Hnoexec : ~ In ExecutePayment (fst (processPayment env input userRules))).
  { intros Hin. apply in_split in Hin. destruct Hin as (t1 & t2 & E).
    rewrite E in Hrun, Hnever.
    apply executor_needs_authorization in Hrun.
    destruct Hrun as [Hs | Hin]; [ discriminate Hs | ].
    apply Hnever, in_or_app. now left. }
  split.
  - intros e He. split; intros ->; contradiction.
  - intros result Hres. rewrite Hres in Hfit. simpl in Hfit.
    assert (Hs : s <> Executed).
    { intros ->. apply run_reaches_Executed in Hrun.
      destruct Hrun as [Hrun | Hrun]; [ discriminate Hrun | contradiction ]. }
    destruct (status result); intuition.
Qed.

Lemma manual_mode_never_pays_witness :
  snd (processPayment (manual_env 14) InputDemo demo_rules)
  = Some {| success := false; status := status_verification_failed;
            violations := [] |} /\
  forall e, In e (fst (processPayment (manual_env 14) InputDemo demo_rules)) ->
    e <> ExecutePayment /\ e <> VerifyProofOnChain true.
Proof.
  split; [ vm_compute; reflexivity | ].
  exact (proj1 (manual_mode_never_pays (manual_env 14) InputDemo demo_rules eq_refl)).
Defined.

End PipelineFacts.

(** * The payment executor *)
Module USDCPaymentExecutorFacts.
Import Js Types USDCPaymentExecutor Scenarios Examples.


(** X22.  Whether a payment counts as made does not depend on the
    receipt's status: for an amount that is a safe integer, once the
    balance check, the simulation, the send and the wait for the receipt
    have gone through, [executePayment] returns [success: true], also for
    a receipt that says the transaction reverted.  From 10^21 on, where
    the amount prints in exponent form, no transfer is simulated or sent
    and the result is a failure. *)
Theorem success_ignores_receipt_status (env : Env) (paymentPlan : PaymentPlan) :
  let amountInWei := amount paymentPlan * 10 ^ default 6 (decimals env) in
  (Z.abs (amount paymentPlan) <= MAX_SAFE_INTEGER ->
   forall balance hash receipt_,
     balanceOf env = Some balance ->
     balance_below env balance (default 6 (decimals env)) (amount paymentPlan) = false ->
     getTransactionCount env = true ->
     simulateContract env (toAddress paymentPlan) amountInWei = true ->
     writeContract env (toAddress paymentPlan) amountInWei = Some hash ->
     waitForTransactionReceipt env hash = Some receipt_ ->
     snd (executePayment env paymentPlan)
     = {| success := true; txHash := Some hash; receipt := Some receipt_;
          paymentDetails := details_of paymentPlan |}) /\
  (10 ^ 21 <= Z.abs (amount paymentPlan) ->
   snd (executePayment env paymentPlan) = failure paymentPlan /\
   forall c, In c (fst (executePayment env paymentPlan)) ->
     c = ReadBalanceOf \/ c = ReadDecimals).
Proof.
  cbv zeta. split.
  - intros Hsafe balance hash receipt_ Hb Hlow Hn Hs Hw Hr.
    assert (Hp : (Z.abs (amount paymentPlan) <? 10 ^ 21) = true).
    { apply Z.ltb_lt. unfold MAX_SAFE_INTEGER in Hsafe. lia. }
    unfold executePayment, getBalance, getDecimals, parseUnits.
    rewrite Hb. simpl. rewrite Hlow, Hp, Hn. simpl. rewrite Hs. simpl.
    rewrite Hw, Hr. reflexivity.
  - intros Hbig.
    assert (Hp : (Z.abs (amount paymentPlan) <? 10 ^ 21) = false)
      by (apply Z.ltb_ge; exact Hbig).
    unfold executePayment, getBalance, getDecimals, parseUnits.
    destruct (balanceOf env) as [ balance | ]; simpl;
      [ destruct (balance_below env balance _ _); simpl; rewrite ?Hp | ].
    all: split; [ reflexivity | ].
    all: intros c Hc; simpl in Hc; intuition auto.
Qed.

Lemma success_ignores_receipt_status_witness :
  receipt_status reverted_receipt = receipt_reverted /\
  snd (executePayment reverting_token demo_plan)
  = {| success := true; txHash := Some 4660; receipt := Some reverted_receipt;
       paymentDetails := details_of demo_plan |} /\
  snd (executePayment reverting_token (with_amount_of demo_plan (10 ^ 21)))
  = failure (with_amount_of demo_plan (10 ^ 21)).
Proof.
  split; [ reflexivity | ]. split.
  - refine (proj1 (success_ignores_receipt_status reverting_token demo_plan) _
              10000000 4660 reverted_receipt eq_refl eq_refl eq_refl eq_refl
              eq_refl eq_refl).
    vm_compute. discriminate.
  - refine (proj1 (proj2 (success_ignores_receipt_status reverting_token
                            (with_amount_of demo_plan (10 ^ 21))) _)).
    vm_compute. discriminate.
Defined.

End USDCPaymentExecutorFacts.

(** * Committing rules from the manager to the contract *)
Module RuleCommitmentManagerFacts.
Import Js Types RuleCommitmentManager Ledger Scenarios Examples.



End RuleCommitmentManagerFacts.

(** * The on-chain path of the verifier *)
Module OnChainPathFacts.
Import Js Digits JsFacts OnChainZKPVerifier Bits VerifierSpec Scenarios Ledger Examples.

(** ** [BigInt(n.toString())] is [n] *)

Lemma plain_chars_trim_start (s : string) :
  forallb (fun c => negb (is_whitespace c)) (list_ascii_of_string s) = true ->
  trim_start s = s.
Proof.
  destruct s as [ | c s ];
    cbn [trim_start list_ascii_of_string forallb]; [ reflexivity | ].
  intros H. apply andb_true_iff in H. destruct H as [H _].
  destruct (is_whitespace c); [ discriminate H | reflexivity ].
Qed.

Lemma plain_chars_trim (s : string) :
  forallb (fun c => negb (is_whitespace c)) (list_ascii_of_string s) = true ->
  trim s = s.
Proof.
  intros H. unfold trim. rewrite (plain_chars_trim_start s H).
  rewrite plain_chars_trim_start.
  - unfold reverse. rewrite list_ascii_of_string_of_list_ascii, rev_involutive.
    apply string_of_list_ascii_of_string.
  - unfold reverse. rewrite list_ascii_of_string_of_list_ascii.
    apply forallb_forall. intros c Hc. apply in_rev in Hc.
    rewrite forallb_forall in H. exact (H c Hc).
Qed.

Lemma plain_chars_remove_commas (s : string) :
  forallb (fun c => negb (is_char c [44%N])) (list_ascii_of_string s) = true ->
  remove_commas s = s.
Proof.
  induction s as [ | c s IH ];
    cbn [remove_commas list_ascii_of_string forallb]; [ reflexivity | ].
  intros H. apply andb_true_iff in H. destruct H as [Hc Hs].
  destruct (is_char c [44%N]); [ discriminate Hc | ]. now rewrite IH.
Qed.

Lemma digit_char_is_plain (d : Z) :
  0 <= d < 10 ->
  is_whitespace (digit_char d) = false /\
  is_char (digit_char d) [44%N] = false /\
  is_char (digit_char d) [45%N] = false /\
  is_char (digit_char d) [43%N] = false /\
  is_char (digit_char d) [120%N; 88%N] = false /\
  is_char (digit_char d) [111%N; 79%N] = false /\
  is_char (digit_char d) [98%N; 66%N] = false.
Proof.
  intros Hd.
  assert (H : d = 0 \/ d = 1 \/ d = 2 \/ d = 3 \/ d = 4 \/ d = 5 \/ d = 6 \/
              d = 7 \/ d = 8 \/ d = 9) by lia.
  repeat (destruct H as [-> | H]; [ repeat split | ]). subst d. repeat split.
Qed.

(** A character that reads as a decimal digit is one. *)
Lemma decimal_digit_char (c : ascii) (d : Z) :
  digit_value c = Some d -> d < 10 -> 0 <= d < 10 /\ c = digit_char d.
Proof.
  destruct c as [ [ | ] [ | ] [ | ] [ | ] [ | ] [ | ] [ | ] [ | ] ];
    vm_compute; intros H; try discriminate H; injection H as <-;
    intros Hlt; try discriminate Hlt; repeat split; discriminate.
Qed.

Lemma reads_chars (s : string) (ds : list Z) :
  digits_prefix 10 s = (ds, EmptyString) ->
  List.Forall (fun c => exists d, 0 <= d < 10 /\ c = digit_char d)
              (list_ascii_of_string s).
Proof.
  revert ds. induction s as [ | c s IH ]; intros ds; simpl.
  - constructor.
  - destruct (digit_value c) as [ d | ] eqn:Ed; [ | discriminate ].
    destruct (Z.ltb_spec d 10) as [Hlt | ]; [ | discriminate ].
    destruct (digits_prefix 10 s) as [ds' tl] eqn:Ep.
    intros H. injection H as <- ->.
    constructor; [ | exact (IH ds' eq_refl) ].
    destruct (decimal_digit_char c d Ed Hlt) as [Hd ->]. eauto.
Qed.

Lemma digit_chars_plain (l : list ascii) :
  List.Forall (fun c => exists d, 0 <= d < 10 /\ c = digit_char d) l ->
  forallb (fun c => negb (is_whitespace c)) l = true /\
  forallb (fun c => negb (is_char c [44%N])) l = true.
Proof.
  induction 1 as [ | c l (d & Hd & ->) _ [IH1 IH2] ]; cbn [forallb]; [ now split | ].
  destruct (digit_char_is_plain d Hd) as (Hw & Hc & _).
  rewrite Hw, Hc, IH1, IH2. now split.
Qed.

Lemma BigInt_of_digits (d : Z) (rest : string) (v : Z) :
  0 <= d < 10 -> reads (String (digit_char d) rest) 0 v ->
  safeBigInt (JsString (String (digit_char d) rest)) = Some v /\
  safeBigInt (JsString (String "-"%char (String (digit_char d) rest))) = Some (- v) /\
  BigInt_of_string (String (digit_char d) rest) = Some v.
Proof.
  intros Hd (ds & Hp & Hv).
  pose proof (reads_chars _ _ Hp) as Hchars.
  destruct (digit_chars_plain _ Hchars) as [Hplain Hcomma].
  destruct (digit_char_is_plain d Hd) as (Hw & _ & Hminus & Hplus & Hx & Ho & Hb).
  assert (Hall : all_digits 10 (String (digit_char d) rest) = Some v).
  { unfold all_digits. rewrite Hp.
    destruct ds as [ | d0 ds ].
    - simpl in Hp. rewrite digit_value_digit_char in Hp by exact Hd.
      destruct (Z.ltb_spec d 10); [ | lia ].
      destruct (digits_prefix 10 rest). discriminate Hp.
    - unfold digits_value. now rewrite Hv. }
  assert (Hbig : BigInt_of_string (String (digit_char d) rest) = Some v).
  { unfold BigInt_of_string. rewrite (plain_chars_trim _ Hplain).
    destruct rest as [ | c1 rest ]; [ exact Hall | ].
    simpl in Hchars. apply Forall_inv_tail, Forall_inv in Hchars.
    destruct Hchars as (d1 & Hd1 & ->).
    destruct (digit_char_is_plain d1 Hd1) as (_ & _ & _ & _ & Hx1 & Ho1 & Hb1).
    rewrite Hx1, Ho1, Hb1, !andb_false_r, Hminus, Hplus. exact Hall. }
  split; [ | split; [ | exact Hbig ] ].
  - unfold safeBigInt. rewrite (plain_chars_remove_commas _ Hcomma). exact Hbig.
  - unfold safeBigInt.
    rewrite plain_chars_remove_commas by (simpl; exact Hcomma).
    unfold BigInt_of_string.
    rewrite plain_chars_trim by (simpl; exact Hplain).
    change (is_char "-" [48%N]) with false. cbv iota. simpl andb. cbv iota.
    change (is_char "-" [45%N]) with true. cbv iota.
    rewrite Hall. reflexivity.
Qed.

Lemma safeBigInt_Number_toString (n : Z) :
  safeBigInt (JsString (Number_toString n)) = Some n.
Proof.
  unfold Number_toString.
  destruct (Z.ltb_spec n 0) as [Hneg | Hpos].
  - assert (Hm : 0 <= - n) by lia.
    destruct (decimal_digits_head (Z.to_nat (Z.log2 (- n))) (- n) EmptyString Hm)
      as (d & rest & Hd & E & Hrest); [ now left | ].
    pose proof (decimal_digits_reads _ (- n) EmptyString (- n)
                  (log2_fuel _ Hm) (reads_nil _)) as Hr.
    rewrite E in *.
    destruct (BigInt_of_digits d rest (- n) Hd Hr) as (_ & H & _).
    rewrite H. f_equal. lia.
  - destruct (decimal_digits_head (Z.to_nat (Z.log2 n)) n EmptyString Hpos)
      as (d & rest & Hd & E & Hrest); [ now left | ].
    pose proof (decimal_digits_reads _ n EmptyString n
                  (log2_fuel _ Hpos) (reads_nil _)) as Hr.
    rewrite E in *.
    now destruct (BigInt_of_digits d rest n Hd Hr) as (H & _).
Qed.

(** X24.  [convertToOnChainProof] reads a proof as snarkjs prints it: for
    coordinates written in decimal, it returns the numbers themselves,
    the first two of [pi_a] and [pi_c] and the first two rows of [pi_b],
    and leaves out the third, projective, entries. *)
Theorem convertToOnChainProof_reads_decimals (a0 a1 b00 b01 b10 b11 c0 c1 : Z) :
  convertToOnChainProof (snarkjs_proof a0 a1 b00 b01 b10 b11 c0 c1)
  = Some {| a := (a0, a1); b := ((b00, b01), (b10, b11)); c := (c0, c1) |}.
Proof.
  unfold convertToOnChainProof, snarkjs_proof. simpl get. cbv iota.
  simpl opt_index.
  rewrite !safeBigInt_Number_toString. reflexivity.
Qed.

(** ** Where the verifier's verdict comes from *)

(** X25.  The ABI the verifier holds declares [b] as [uint256[2]], where
    [convertToOnChainProof] builds a 2 by 2 array.  With an encoder that
    refuses it, as viem's does, [verifyProofOnChain] sends no transaction:
    whatever the proof, the signals and the ledger, the ledger is left as
    it was, the result is not an on-chain one, and the verdict is that of
    the local structural check. *)
Theorem refused_encoding_keeps_verifier_local (env : Env) (chain : ZKPVerifier.State)
    (proof : JsValue) (publicSignals : list string)
    (ruleHash paymentAddress : string) (amount : Z) :
  (forall m, encode_b (abi env) m = None) ->
  snd (verifyProofOnChain env chain proof publicSignals ruleHash paymentAddress amount)
  = chain /\
  on_chain (fst (verifyProofOnChain env chain proof publicSignals
                   ruleHash paymentAddress amount)) = false /\
  authorized (fst (verifyProofOnChain env chain proof publicSignals
                     ruleHash paymentAddress amount))
  = verifyProofLocally proof publicSignals.
Proof.
  intros Hb. unfold verifyProofOnChain, try_on_chain.
  destruct (unconfigured env); [ repeat split | ].
  destruct (generateProofId env proof publicSignals ruleHash) as [ proofId | ];
    [ | repeat split ].
  destruct (convertToOnChainProof proof) as [ onChainProof | ]; [ | repeat split ].
  destruct (signals_to_bigint publicSignals) as [ signals | ]; [ | repeat split ].
  unfold encode_args. rewrite Hb.
  destruct (encode_pair (a onChainProof)); repeat split.
Qed.

Lemma refused_encoding_keeps_verifier_local_witness :
  snd (verifyProofOnChain deployed_verifier empty_chain
         (snarkjs_proof 11 12 21 22 23 24 31 32) four_ones "0xrules" "0xdest" 6)
  = empty_chain /\
  on_chain (fst (verifyProofOnChain deployed_verifier empty_chain
                   (snarkjs_proof 11 12 21 22 23 24 31 32) four_ones
                   "0xrules" "0xdest" 6)) = false /\
  authorized (fst (verifyProofOnChain deployed_verifier empty_chain
                     (snarkjs_proof 11 12 21 22 23 24 31 32) four_ones
                     "0xrules" "0xdest" 6)) = true.
Proof.
  exact (refused_encoding_keeps_verifier_local deployed_verifier empty_chain
           (snarkjs_proof 11 12 21 22 23 24 31 32) four_ones "0xrules" "0xdest" 6
           (fun _ => eq_refl)).
Defined.

(** X26.  The verifier fails open.  Whenever a call does not end on
    chain, the verdict is that of the local structural check, so that a
    proof object with four signals "1" is authorized; and a call never
    ends on chain when the contract reverts, as it does for the zero proof
    id and for an id it has already recorded as verified. *)
Theorem verifier_fails_open (env : Env) (chain : ZKPVerifier.State)
    (proof : JsValue) (publicSignals : list string)
    (ruleHash paymentAddress : string) (amount : Z) :
  (on_chain (fst (verifyProofOnChain env chain proof publicSignals
                    ruleHash paymentAddress amount)) = false ->
   authorized (fst (verifyProofOnChain env chain proof publicSignals
                      ruleHash paymentAddress amount))
   = verifyProofLocally proof publicSignals /\
   (truthy proof = true -> typeof_object proof = true -> publicSignals = four_ones ->
    authorized (fst (verifyProofOnChain env chain proof publicSignals
                       ruleHash paymentAddress amount)) = true)) /\
  (forall proofId,
     generateProofId env proof publicSignals ruleHash = Some proofId ->
     proofId = 0 \/ ZKPVerifier.isProofVerified chain proofId = true ->
     on_chain (fst (verifyProofOnChain env chain proof publicSignals
                      ruleHash paymentAddress amount)) = false).
Proof.
  split.
  - intros Hoff.
    assert (H : authorized (fst (verifyProofOnChain env chain proof publicSignals
                                   ruleHash paymentAddress amount))
                = verifyProofLocally proof publicSignals).
    { revert Hoff. unfold verifyProofOnChain.
      destruct (unconfigured env); [ reflexivity | ].
      destruct (try_on_chain _ _ _ _ _ _ _) as [ [ result | ] chain' ] eqn:E;
        [ | reflexivity ].
      apply VerifierFacts.try_on_chain_inv in E.
      destruct E as (? & ? & ? & ? & _ & _ & _ & _ & _ & ->). discriminate. }
    split; [ exact H | ].
    intros Ht Ho ->. rewrite H.
    apply VerifierFacts.verifyProofLocally_iff. auto.
  - intros proofId Hid Hrevert. unfold verifyProofOnChain, try_on_chain.
    destruct (unconfigured env); [ reflexivity | ]. rewrite Hid.
    destruct (convertToOnChainProof proof) as [ onChainProof | ]; [ | reflexivity ].
    destruct (signals_to_bigint publicSignals) as [ signals | ]; [ | reflexivity ].
    destruct (encode_args _ _ _ _ _ _ _) as [ args | ] eqn:Hargs; [ | reflexivity ].
    destruct (VerifierFacts.encode_args_signals _ _ _ _ _ _ _ _ Hargs) as (_ & Hi & _).
    destruct (negb (reachable env SimulateContract)); [ reflexivity | ].
    unfold call_contract, ZKPVerifier.verifyAndAuthorizePayment. rewrite Hi.
    destruct Hrevert as [-> | Hv]; [ reflexivity | ].
    rewrite Hv. destruct (proofId =? 0); reflexivity.
Qed.

Lemma verifier_fails_open_witness :
  Js.get (Prover.mock_proof true) "mock" = Some (JsBool true) /\
  ZKPVerifier.isProofVerified ledger_with_77 77 = true /\
  on_chain (fst (verifyProofOnChain deployed_verifier ledger_with_77
                   (Prover.mock_proof true) four_ones "0xrules" "0xdest" 6)) = false /\
  authorized (fst (verifyProofOnChain deployed_verifier ledger_with_77
                     (Prover.mock_proof true) four_ones "0xrules" "0xdest" 6)) = true.
Proof.
  pose proof (verifier_fails_open deployed_verifier ledger_with_77
                (Prover.mock_proof true) four_ones "0xrules" "0xdest" 6) as [Hlocal Hoff].
  assert (H : on_chain (fst (verifyProofOnChain deployed_verifier ledger_with_77
                (Prover.mock_proof true) four_ones "0xrules" "0xdest" 6)) = false)
    by (apply (Hoff 77); [ reflexivity | right; reflexivity ]).
  split; [ reflexivity | ]. split; [ reflexivity | ]. split; [ exact H | ].
  exact (proj2 (Hlocal H) eq_refl eq_refl eq_refl).
Defined.

End OnChainPathFacts.

(** * The planner's rule check and risk score *)
Module PaymentPlannerFacts.
Import Js Types PaymentPlanner Scenarios Examples.
Import Stdlib.Floats.PrimFloat.

#[local] Set Warnings "-inexact-float".




End PaymentPlannerFacts.

(** * The log manager *)
Module LogManagerFacts.
Import Js LogManager Sanitized Examples.

(** Induction on values, through arrays and objects. *)
Lemma JsValue_induction (P : JsValue -> Prop) :
  P JsUndefined -> P JsNull -> (forall b, P (JsBool b)) ->
  (forall n, P (JsNumber n)) -> (forall n, P (JsBigInt n)) ->
  (forall s, P (JsString s)) ->
  (forall items, List.Forall P items -> P (JsArray items)) ->
  (forall fields, List.Forall (fun entry => P (snd entry)) fields ->
                  P (JsObject fields)) ->
  forall v, P v.
Proof.
  intros Hu Hn Hb Hnum Hbig Hs Ha Ho.
  fix IH 1. intros [ | | b | n | n | s | items | fields ].
  - exact Hu.
  - exact Hn.
  - apply Hb.
  - apply Hnum.
  - apply Hbig.
  - apply Hs.
  - apply Ha. induction items as [ | x items IHitems ]; constructor.
    + apply IH.
    + exact IHitems.
  - apply Ho. induction fields as [ | [k x] fields IHfields ]; constructor.
    + apply IH.
    + exact IHfields.
Qed.

(** ** Properties kept by the loop of [sanitizeForJSON] *)

(** What the loop keeps of the object under construction: distinct keys,
    none of them [__proto__], and values that satisfy [Q]. *)
Lemma set_property_keeps (Q : JsValue -> Prop) (fields : list (string * JsValue))
    (key : string) (value : JsValue) :
  sanitized_object Q fields -> key <> "__proto__"%string -> Q value ->
  sanitized_object Q (set_property fields key value) /\
  (forall k, In k (List.map fst (set_property fields key value)) <->
             k = key \/ In k (List.map fst fields)).
Proof.
  intros (Hnd & Hproto & Hq) Hkey Hv.
  induction fields as [ | [k v] rest IH ]; simpl.
  - split.
    + split; [ constructor; [ intros [] | constructor ] | split ].
      * intros [H | []]. simpl in H. congruence.
      * repeat constructor. exact Hv.
    + intros k. split; [ intros [<- | []]; now left | intros [-> | []]; now left ].
  - simpl in Hnd, Hproto, Hq.
    apply List.NoDup_cons_iff in Hnd. destruct Hnd as [Hk Hnd].
    apply List.Forall_cons_iff in Hq. destruct Hq as [Hqv Hq].
    destruct (String.eqb_spec key k) as [-> | Hne].
    + split.
      * split; [ simpl; constructor; assumption | split; [ exact Hproto | ] ].
        constructor; assumption.
      * intros k'. simpl. intuition (subst; auto).
    + destruct IH as [(Hnd' & Hproto' & Hq') Hkeys].
      * exact Hnd.
      * intros H. apply Hproto. now right.
      * exact Hq.
      * split.
        -- split; [ | split ].
           ++ simpl. constructor; [ | exact Hnd' ].
              intros Hin. apply Hkeys in Hin. destruct Hin as [-> | Hin];
                [ now apply Hne | contradiction ].
           ++ simpl. intros [H | H]; [ apply Hproto; now left | contradiction ].
           ++ constructor; assumption.
        -- intros k'. simpl. rewrite Hkeys. intuition (subst; auto).
Qed.

Lemma assign_keeps (Q : JsValue -> Prop) (fields : list (string * JsValue))
    (key : string) (value : JsValue) :
  sanitized_object Q fields -> Q value -> sanitized_object Q (assign fields key value).
Proof.
  intros Hf Hv. unfold assign.
  destruct (String.eqb_spec key "__proto__") as [ | Hne ]; [ exact Hf | ].
  now apply set_property_keeps.
Qed.

Lemma loop_keeps (Q : JsValue -> Prop) (fields acc : list (string * JsValue)) :
  List.Forall (fun entry => Q (sanitizeForJSON (snd entry))) fields ->
  sanitized_object Q acc ->
  sanitized_object Q
    (fold_left (fun sanitized entry =>
                  match entry with
                  | (key, value) => assign sanitized key (sanitizeForJSON value)
                  end) fields acc).
Proof.
  intros Hf. revert acc. induction Hf as [ | [k v] rest Hv _ IH ]; intros acc Hacc; simpl.
  - exact Hacc.
  - apply IH. apply assign_keeps; assumption.
Qed.

Lemma sanitized_object_nil (Q : JsValue -> Prop) : sanitized_object Q [].
Proof. split; [ constructor | split; [ intros [] | constructor ] ]. Qed.

(** On an object that the loop has built, the loop changes nothing. *)
Lemma loop_on_sanitized (fields acc : list (string * JsValue)) :
  sanitized_object (fun v => sanitizeForJSON v = v) (acc ++ fields) ->
  fold_left (fun sanitized entry =>
               match entry with
               | (key, value) => assign sanitized key (sanitizeForJSON value)
               end) fields acc
  = acc ++ fields.
Proof.
  revert acc. induction fields as [ | [k v] rest IH ]; intros acc H; simpl.
  - now rewrite app_nil_r.
  - pose proof H as (Hnd & Hproto & Hq).
    assert (Hv : sanitizeForJSON v = v).
    { apply List.Forall_app in Hq. destruct Hq as [_ Hq].
      apply List.Forall_cons_iff in Hq. exact (proj1 Hq). }
    assert (Hk : k <> "__proto__"%string).
    { intros ->. apply Hproto. rewrite map_app. apply in_or_app. right. now left. }
    assert (Hfresh : ~ In k (List.map fst acc)).
    { rewrite map_app in Hnd. simpl in Hnd.
      apply List.NoDup_remove_2 in Hnd. intros Hin. apply Hnd.
      apply in_or_app. now left. }
    assert (Hset : assign acc k (sanitizeForJSON v) = acc ++ [(k, v)]).
    { unfold assign. rewrite Hv.
      destruct (String.eqb_spec k "__proto__"); [ contradiction | ].
      clear -Hfresh. induction acc as [ | [k' v'] acc IHacc ]; simpl; [ reflexivity | ].
      destruct (String.eqb_spec k k') as [-> | Hne].
      - exfalso. apply Hfresh. now left.
      - f_equal. apply IHacc. intros Hin. apply Hfresh. now right. }
    rewrite Hset, IH; rewrite <- app_assoc; [ reflexivity | exact H ].
Qed.

(** X29.  What [sanitizeForJSON] returns holds no [bigint] at any depth,
    whatever it is given, and sanitizing it again changes nothing. *)
Theorem sanitizeForJSON_removes_bigints (obj : JsValue) :
  has_bigint (sanitizeForJSON obj) = false /\
  sanitizeForJSON (sanitizeForJSON obj) = sanitizeForJSON obj.
Proof.
  induction obj as [ | | b | n | n | s | items IH | fields IH ] using JsValue_induction;
    try (split; reflexivity).
  - simpl. split.
    + induction IH as [ | x items [Hx _] _ IHitems ]; simpl; [ reflexivity | ].
      now rewrite Hx, IHitems.
    + f_equal. induction IH as [ | x items [_ Hx] _ IHitems ]; simpl; [ reflexivity | ].
      now rewrite Hx, IHitems.
  - set (loop := fold_left
                   (fun sanitized entry =>
                      match entry with
                      | (key, value) => assign sanitized key (sanitizeForJSON value)
                      end) fields []).
    change (sanitizeForJSON (JsObject fields)) with (JsObject loop).
    split.
    + assert (H : sanitized_object (fun v => has_bigint v = false) loop).
      { apply loop_keeps; [ | apply sanitized_object_nil ].
        eapply List.Forall_impl; [ | exact IH ]. intros entry [H _]. exact H. }
      destruct H as (_ & _ & H). cbn [has_bigint].
      induction H as [ | [k v] rest Hv _ IHrest ]; simpl; [ reflexivity | ].
      simpl in Hv. now rewrite Hv, IHrest.
    + cbn [sanitizeForJSON]. f_equal. apply (loop_on_sanitized loop []). simpl.
      apply loop_keeps; [ | apply sanitized_object_nil ].
      eapply List.Forall_impl; [ | exact IH ]. intros entry [_ H]. exact H.
Qed.

(** ** Clients *)

(** X30.  A response that closes takes with it every registration made
    under a process id it was once registered with: after a second
    response has registered under the same process id, the close of the
    first one deletes the entry of the second, and [sendLog] for that
    process id writes nothing, to either of them. *)
Theorem stale_close_unregisters_new_client (write_ok : Z -> JsValue -> bool)
    (st : State) (processId phase status message timestamp timestamp' : string)
    (details : JsValue) (first second : Z) :
  clients (addClient (addClient st processId first) processId second) !! processId
  = Some second /\
  sendLog write_ok
    (close (addClient (addClient st processId first) processId second) first)
    processId phase status message details timestamp timestamp'
  = Some [].
Proof.
  split; [ apply lookup_insert_eq | ].
  unfold sendLog.
  assert (H : clients (close (addClient (addClient st processId first)
                                processId second) first) !! processId = None).
  { unfold close. cbn [clients on_close addClient].
    assert (Hin : In processId
                    (default []
                       (<[ second := default []
                                       (<[ first := default [] (on_close st !! first)
                                                    ++ [processId] ]>
                                          (on_close st) !! second) ++ [processId] ]>
                          (<[ first := default [] (on_close st !! first)
                                       ++ [processId] ]> (on_close st)) !! first))).
    { destruct (decide (second = first)) as [-> | Hne].
      - rewrite lookup_insert_eq. simpl. apply in_or_app. right. now left.
      - rewrite lookup_insert_ne by exact Hne. rewrite lookup_insert_eq. simpl.
        apply in_or_app. right. now left. }
    revert Hin. generalize (<[processId:=second]> (<[processId:=first]> (clients st))).
    match goal with |- forall m, In _ ?l -> _ => generalize l end.
    intros l. induction l as [ | p l IHl ]; intros m Hin; [ destruct Hin | ].
    simpl. destruct Hin as [-> | Hin].
    - clear IHl. assert (Hgone : delete processId m !! processId = None)
        by apply lookup_delete_eq.
      revert Hgone. generalize (delete processId m). clear.
      induction l as [ | q l IHl ]; intros m Hm; simpl; [ exact Hm | ].
      apply IHl. destruct (decide (q = processId)) as [-> | Hne].
      + apply lookup_delete_eq.
      + rewrite lookup_delete_ne by exact Hne. exact Hm.
    - apply IHl, Hin. }
  rewrite H. reflexivity.
Qed.

End LogManagerFacts.
